(** * vlt: version references, diffs, timelines and snapshot restore

    A shallow embedding of the [pkg/vault] package of ethanadams/vlt
    (compare.go, flatten.go, client.go, timeline.go, snapshot.go,
    operations.go, tree.go) and the properties its specification states
    about it, followed by further properties that the code shows.

    Go values are modelled as follows: [int] is a 64-bit integer kept in
    [Z] with the wrap-around written where the code can overflow; [string]
    is a byte string ([String.string]); [map[string]any] is
    [gmap string Any]; slices are lists; a call that returns
    [(T, error)] returns a [Result].  A [range] over a map visits its
    entries in the order [map_to_list] gives them; Go leaves that order
    open, and it matters to a result only where two entries of a loop
    write the same key of a map.  The secret store is outside the
    package: the read-only calls are answered by arbitrary functions
    (record [Client.Client]), the calls of a restore go through the
    interface [Snapshot.Store], of which [Snapshot.memStore] is the
    instance the restore properties are proved on; the operations on
    single secrets go through [Operations.OpStore], with
    [Operations.memOps] and, for a store that refuses some deletes,
    [Operations.lockedOps]. *)

From Stdlib Require Import ZArith String Ascii List Lia Bool.
From Stdlib Require Import DecimalString DecimalPos.
From stdpp Require Import base option list gmap strings sorting.

Local Open Scope string_scope.
Local Open Scope list_scope.
Local Open Scope Z_scope.

(** ** Go primitives *)

Module Go.

(** [(T, error)] results; the error side carries the kind of failure. *)
Inductive Result (E A : Type) : Type :=
| Ok (a : A)
| Err (e : E).
Arguments Ok {E A} a.
Arguments Err {E A} e.

Definition minInt : Z := - 2 ^ 63.
Definition maxInt : Z := 2 ^ 63 - 1.

(** Two's complement wrap-around of 64-bit [int] arithmetic. *)
Definition wrapInt (z : Z) : Z := (z + 2 ^ 63) mod 2 ^ 64 - 2 ^ 63.

(** [len(s)] for a string. *)
Definition len (s : string) : Z := Z.of_nat (String.length s).

(** [s[lo:hi]] and [s[lo:]] on byte strings. *)
Definition slice (s : string) (lo hi : Z) : string :=
  String.substring (Z.to_nat lo) (Z.to_nat (hi - lo)) s.

Definition sliceFrom (s : string) (lo : Z) : string :=
  slice s lo (len s).

(** [strings.HasPrefix]. *)
Definition HasPrefix (s pre : string) : bool := String.prefix pre s.

(** [strings.LastIndex(s, substr)]: byte index of the last occurrence of
    [substr] in [s], or [-1].  The scan keeps the rightmost match. *)
Fixpoint lastIndexFrom (i : Z) (s substr : string) : Z :=
  match s with
  | EmptyString => if String.eqb substr "" then i else -1
  | String _ s' =>
      let r := lastIndexFrom (i + 1) s' substr in
      if 0 <=? r then r else if HasPrefix s substr then i else -1
  end.

Definition LastIndex (s substr : string) : Z := lastIndexFrom 0 s substr.

(** Decimal digits. *)
Definition digitVal (c : ascii) : option Z :=
  let n := Z.of_N (N_of_ascii c) in
  if (48 <=? n) && (n <=? 57) then Some (n - 48) else None.

Fixpoint digitsVal (acc : Z) (s : string) : option Z :=
  match s with
  | EmptyString => Some acc
  | String c s' =>
      match digitVal c with
      | Some d => digitsVal (acc * 10 + d) s'
      | None => None
      end
  end.

(** The integer an optionally signed, non-empty run of decimal digits
    denotes; no bound on its size. *)
Definition intLiteral (s : string) : option Z :=
  match s with
  | EmptyString => None
  | String c s' =>
      if Ascii.eqb c "-" then
        match s' with
        | EmptyString => None
        | _ => Z.opp <$> digitsVal 0 s'
        end
      else if Ascii.eqb c "+" then
        match s' with
        | EmptyString => None
        | _ => digitsVal 0 s'
        end
      else digitsVal 0 s
  end.

(** [strconv.Atoi]: base 10, optional sign, no underscores; a syntax
    error or a value outside [int] gives an error ([None]). *)
Definition Atoi (s : string) : option Z :=
  match intLiteral s with
  | Some n => if (minInt <=? n) && (n <=? maxInt) then Some n else None
  | None => None
  end.

(** *** Values of type [any]

    The dynamic values a secret can hold after JSON or YAML decoding:
    [nil], booleans, integers, strings, [[]any] and [map[string]any].
    Floating-point numbers are left out. *)
#[warnings="-register-all"]
Inductive Any : Type :=
| VNil
| VBool (b : bool)
| VInt (n : Z)
| VString (s : string)
| VList (l : list Any)
| VMap (m : gmap string Any).

(** [sort.Slice] on a short slice is an insertion sort: each element in
    turn moves left while it is [less] than its left neighbour.  The
    sorted prefix is kept reversed, its last element first. *)
Fixpoint insertLeft {A} (less : A → A → bool) (x : A) (rprefix : list A) : list A :=
  match rprefix with
  | [] => [x]
  | y :: rest => if less x y then y :: insertLeft less x rest else x :: rprefix
  end.

Definition insertionSort {A} (less : A → A → bool) (l : list A) : list A :=
  reverse (fold_left (λ rprefix x, insertLeft less x rprefix) l []).

(** What [sort.Slice] promises for a [less] that is a strict weak
    order: the result is a rearrangement of the slice in which no
    element is [less] than one before it.  Equal elements may come out
    in any order. *)
Definition StrictWeak {A} (less : A → A → bool) : Prop :=
  (∀ a b, less a b = true → less b a = false) ∧
  (∀ a b c, less b a = false → less c b = false → less c a = false).

Class SliceSorter : Type := {
  sortSlice : ∀ {A : Type}, (A → A → bool) → list A → list A;
  sortSlice_perm : ∀ {A : Type} (less : A → A → bool) (l : list A),
    sortSlice less l ≡ₚ l;
  sortSlice_sorted : ∀ {A : Type} (less : A → A → bool) (l : list A),
    StrictWeak less →
    StronglySorted (λ a b, less b a = false) (sortSlice less l)
}.

(** [strconv.Itoa]. *)
Definition Itoa (n : Z) : string := NilEmpty.string_of_int (Z.to_int n).

(** [strings.Join]. *)
Definition Join (parts : list string) (sep : string) : string :=
  String.concat sep parts.

(** [fmt.Sprintf("%v", v)]: strings print raw, [nil] as [<nil>], a slice
    as [[a b]], a map as [map[k:v ...]] with its keys in sorted order. *)
Fixpoint Sprintv (v : Any) : string :=
  match v with
  | VNil => "<nil>"
  | VBool b => if b then "true" else "false"
  | VInt n => Itoa n
  | VString s => s
  | VList l => "[" +:+ Join (map Sprintv l) " " +:+ "]"
  | VMap m =>
      let entries := map_fold (λ k x acc, (k, Sprintv x) :: acc) [] m in
      let sorted := insertionSort (λ a b, String.ltb a.1 b.1) entries in
      "map[" +:+ Join (map (λ e, e.1 +:+ ":" +:+ e.2) sorted) " " +:+ "]"
  end.

(** *** crypto/sha256 and encoding/hex *)

Module Sha256.

Definition mask32 (x : Z) : Z := Z.land x 4294967295.
Definition add32 (x y : Z) : Z := mask32 (x + y).
Definition rotr (n x : Z) : Z :=
  Z.lor (Z.shiftr x n) (mask32 (Z.shiftl x (32 - n))).
Definition shr (n x : Z) : Z := Z.shiftr x n.
Definition Ch (x y z : Z) : Z :=
  Z.lxor (Z.land x y) (Z.land (mask32 (Z.lnot x)) z).
Definition Maj (x y z : Z) : Z :=
  Z.lxor (Z.lxor (Z.land x y) (Z.land x z)) (Z.land y z).
Definition Sigma0 (x : Z) : Z := Z.lxor (Z.lxor (rotr 2 x) (rotr 13 x)) (rotr 22 x).
Definition Sigma1 (x : Z) : Z := Z.lxor (Z.lxor (rotr 6 x) (rotr 11 x)) (rotr 25 x).
Definition sigma0 (x : Z) : Z := Z.lxor (Z.lxor (rotr 7 x) (rotr 18 x)) (shr 3 x).
Definition sigma1 (x : Z) : Z := Z.lxor (Z.lxor (rotr 17 x) (rotr 19 x)) (shr 10 x).

(** The constants of FIPS 180-4, from their definition: the first 32
    bits of the fractional parts of the cube roots of the first
    sixty-four primes, and of the square roots of the first eight. *)
Definition isPrime (n : Z) : bool :=
  forallb (λ d, negb (n mod d =? 0)) (seqZ 2 (n - 2)).

Definition primes : list Z :=
  Eval vm_compute in List.filter isPrime (seqZ 2 310).

(** The integer cube root, one bit at a time from bit [k - 1] down. *)
Fixpoint cubeRootBits (k : nat) (r n : Z) : Z :=
  match k with
  | O => r
  | S k' =>
      let r' := r + 2 ^ Z.of_nat k' in
      if r' * r' * r' <=? n then cubeRootBits k' r' n else cubeRootBits k' r n
  end.

Definition K : list Z :=
  Eval vm_compute in
    map (λ p, cubeRootBits 36 0 (p * 2 ^ 96) mod 2 ^ 32) primes.

Definition H0 : list Z :=
  Eval vm_compute in
    map (λ p, Z.sqrt (p * 2 ^ 64) mod 2 ^ 32) (take 8 primes).

Definition bytesOf (s : string) : list Z :=
  map (λ c, Z.of_N (N_of_ascii c)) (list_ascii_of_string s).

(** The [n] low bytes of [x], most significant first. *)
Fixpoint beBytes (n : nat) (x : Z) : list Z :=
  match n with
  | O => []
  | S n' => Z.land (Z.shiftr x (8 * Z.of_nat n')) 255 :: beBytes n' x
  end.

Definition pad (msg : list Z) : list Z :=
  let l := Z.of_nat (length msg) in
  msg ++ [128] ++ repeat 0 (Z.to_nat ((55 - l) mod 64)) ++ beBytes 8 (8 * l).

Fixpoint wordsOf (n : nat) (bs : list Z) : list Z :=
  match n with
  | O => []
  | S n' =>
      match bs with
      | b0 :: b1 :: b2 :: b3 :: rest =>
          (Z.shiftl b0 24 + Z.shiftl b1 16 + Z.shiftl b2 8 + b3) :: wordsOf n' rest
      | _ => []
      end
  end.

(** Message schedule; [w] holds the last sixteen words, oldest first. *)
Fixpoint schedule (n : nat) (w : list Z) : list Z :=
  match n with
  | O => []
  | S n' =>
      let at_ i := List.nth i w 0 in
      let x := add32 (add32 (sigma1 (at_ 14%nat)) (at_ 9%nat))
                     (add32 (sigma0 (at_ 1%nat)) (at_ 0%nat)) in
      x :: schedule n' (tl w ++ [x])
  end.

Definition round (st : list Z) (kw : Z * Z) : list Z :=
  match st with
  | [a; b; c; d; e; f; g; h] =>
      let t1 := add32 (add32 (add32 h (Sigma1 e)) (add32 (Ch e f g) kw.1)) kw.2 in
      let t2 := add32 (Sigma0 a) (Maj a b c) in
      [add32 t1 t2; a; b; c; add32 d t1; e; f; g]
  | _ => st
  end.

Definition block (h ws : list Z) : list Z :=
  let w := ws ++ schedule 48 ws in
  let st := fold_left round (combine K w) h in
  map (λ p, add32 p.1 p.2) (combine h st).

Fixpoint blocks (n : nat) (h bs : list Z) : list Z :=
  match n with
  | O => h
  | S n' =>
      match bs with
      | [] => h
      | _ => blocks n' (block h (wordsOf 16 bs)) (skipn 64 bs)
      end
  end.

(** [sha256.Sum256([]byte(s))], as a list of 32 bytes. *)
Definition Sum256 (s : string) : list Z :=
  let p := pad (bytesOf s) in
  flat_map (beBytes 4) (blocks (length p) H0 p).

End Sha256.

Definition hexDigit (n : Z) : ascii :=
  ascii_of_N (Z.to_N (if n <? 10 then 48 + n else 87 + n)).

(** [hex.EncodeToString]. *)
Definition EncodeToString (bs : list Z) : string :=
  string_of_list_ascii
    (flat_map (λ b, [hexDigit (Z.shiftr b 4); hexDigit (Z.land b 15)]) bs).

(** [strings.HasSuffix] and [strings.TrimSuffix]. *)
Definition HasSuffix (s suf : string) : bool :=
  (len suf <=? len s) && String.eqb (sliceFrom s (len s - len suf)) suf.

Definition TrimSuffix (s suf : string) : string :=
  if HasSuffix s suf then slice s 0 (len s - len suf) else s.

End Go.

(** ** compare.go: version references *)

Module Compare.
Import Go.

(** VersionSpec represents a version specification parsed from a path. *)
Record VersionSpec : Type := mkSpec {
  Version : Z;
  ChangesAgo : Z;
  IsPrev : bool;
  IsChangesAgo : bool
}.

(** The zero value [VersionSpec{}]. *)
Definition noSpec : VersionSpec := mkSpec 0 0 false false.

Definition HasVersion (v : VersionSpec) : bool :=
  (0 <? Version v) || IsPrev v || IsChangesAgo v.

(** ParseVersionedPath extracts path and version from "path@version". *)
Definition ParseVersionedPath (path : string) : string * VersionSpec :=
  let spec := noSpec in
  let idx := LastIndex path "@" in
  if negb (idx =? -1) then
    let versionStr := sliceFrom path (idx + 1) in
    let basePath := slice path 0 idx in
    if String.eqb versionStr "prev" || String.eqb versionStr "previous" then
      (basePath, mkSpec (Version spec) (ChangesAgo spec) true (IsChangesAgo spec))
    else
      match Atoi versionStr with
      | Some version =>
          if version <? 0 then
            (basePath, mkSpec (Version spec) (wrapInt (- version)) (IsPrev spec) true)
          else if 0 <? version then
            (basePath, mkSpec version (ChangesAgo spec) (IsPrev spec) (IsChangesAgo spec))
          else (path, spec)
      | None => (path, spec)
      end
  else (path, spec).

(** *** compare.go: diffs of flat maps *)

(** DiffEntry represents a key that exists only in one source. *)
Record DiffEntry : Type := mkDiffEntry {
  Key : string;
  Value : string
}.

(** ChangedEntry represents a key with different values in each source. *)
Record ChangedEntry : Type := mkChangedEntry {
  ChangedKey : string;
  FirstLen : Z;
  SecondLen : Z;
  FirstValue : string;
  SecondValue : string
}.

(** DiffResult holds the comparison between two secret maps. *)
Record DiffResult : Type := mkDiffResult {
  OnlyInFirst : list DiffEntry;
  OnlyInSecond : list DiffEntry;
  Changed : list ChangedEntry;
  Unchanged : Z
}.

Definition HasDifferences (d : DiffResult) : bool :=
  (0 <? Z.of_nat (length (OnlyInFirst d)))
  || (0 <? Z.of_nat (length (OnlyInSecond d)))
  || (0 <? Z.of_nat (length (Changed d))).

(** hashValue creates a hash of a value for comparison. *)
Definition hashValue (value : Any) : string :=
  let str := Sprintv value in
  let hash := Sha256.Sum256 str in
  EncodeToString hash.

(** Body of the first loop of [CompareSecrets], for one [key, val1] of
    [secrets1]. *)
Definition compareFirst (secrets2 : gmap string Any)
    (result : DiffResult) (kv : string * Any) : DiffResult :=
  let key := kv.1 in
  let val1 := kv.2 in
  let val1Str := Sprintv val1 in
  match secrets2 !! key with
  | Some val2 =>
      let val2Str := Sprintv val2 in
      if negb (String.eqb (hashValue val1) (hashValue val2)) then
        mkDiffResult (OnlyInFirst result) (OnlyInSecond result)
          (Changed result ++
             [mkChangedEntry key (len val1Str) (len val2Str) val1Str val2Str])
          (Unchanged result)
      else
        mkDiffResult (OnlyInFirst result) (OnlyInSecond result)
          (Changed result) (Unchanged result + 1)
  | None =>
      mkDiffResult (OnlyInFirst result ++ [mkDiffEntry key val1Str])
        (OnlyInSecond result) (Changed result) (Unchanged result)
  end.

(** Body of the second loop, for one [key, val2] of [secrets2]. *)
Definition compareSecond (secrets1 : gmap string Any)
    (result : DiffResult) (kv : string * Any) : DiffResult :=
  let key := kv.1 in
  let val2 := kv.2 in
  match secrets1 !! key with
  | Some _ => result
  | None =>
      mkDiffResult (OnlyInFirst result)
        (OnlyInSecond result ++ [mkDiffEntry key (Sprintv val2)])
        (Changed result) (Unchanged result)
  end.

(** What the loops of [CompareSecrets] make of one entry: the entry the
    first loop appends to [OnlyInFirst] or to [Changed], whether it
    counts the entry as unchanged, and the entry the second loop appends
    to [OnlyInSecond]. *)
Definition firstOnly (B : gmap string Any) (kv : string * Any) : option DiffEntry :=
  match B !! kv.1 with
  | Some _ => None
  | None => Some (mkDiffEntry kv.1 (Sprintv kv.2))
  end.

Definition changedIn (B : gmap string Any) (kv : string * Any) : option ChangedEntry :=
  match B !! kv.1 with
  | Some v2 =>
      if String.eqb (hashValue kv.2) (hashValue v2) then None
      else Some (mkChangedEntry kv.1 (len (Sprintv kv.2)) (len (Sprintv v2))
                   (Sprintv kv.2) (Sprintv v2))
  | None => None
  end.

Definition sameIn (B : gmap string Any) (kv : string * Any) : bool :=
  match B !! kv.1 with
  | Some v2 => String.eqb (hashValue kv.2) (hashValue v2)
  | None => false
  end.

Definition secondOnly (A : gmap string Any) (kv : string * Any) : option DiffEntry :=
  match A !! kv.1 with
  | Some _ => None
  | None => Some (mkDiffEntry kv.1 (Sprintv kv.2))
  end.

Section WithSorter.
Context {sorter : SliceSorter}.

(** CompareSecrets compares two flattened secret maps and returns the
    differences.  A [range] over a map visits its entries in the order of
    [map_to_list]; the three lists are sorted by key afterwards.  The
    counter [Unchanged] never exceeds the size of [secrets1], so its
    64-bit wrap-around is not written. *)
Definition CompareSecrets (secrets1 secrets2 : gmap string Any) : DiffResult :=
  let result := mkDiffResult [] [] [] 0 in
  let result := fold_left (compareFirst secrets2) (map_to_list secrets1) result in
  let result := fold_left (compareSecond secrets1) (map_to_list secrets2) result in
  mkDiffResult
    (sortSlice (λ a b, String.ltb (Key a) (Key b)) (OnlyInFirst result))
    (sortSlice (λ a b, String.ltb (Key a) (Key b)) (OnlyInSecond result))
    (sortSlice (λ a b, String.ltb (ChangedKey a) (ChangedKey b)) (Changed result))
    (Unchanged result).

End WithSorter.

(** *** flatten.go *)

(** [flattenRecursive] recurses into a value that is itself a map; the
    recursion is carried by the [switch] on the value. *)
Fixpoint flattenValue (value : Any) (fullKey : string)
    (result : gmap string Any) {struct value} : gmap string Any :=
  match value with
  | VMap v =>
      map_fold (λ key value result,
        let fullKey' :=
          if negb (String.eqb fullKey "") then fullKey +:+ "." +:+ key else key in
        flattenValue value fullKey' result) result v
  | _ => <[fullKey := value]> result
  end.

Definition flattenRecursive (data : gmap string Any) (prefix : string)
    (result : gmap string Any) : gmap string Any :=
  map_fold (λ key value result,
    let fullKey :=
      if negb (String.eqb prefix "") then prefix +:+ "." +:+ key else key in
    flattenValue value fullKey result) result data.

(** Flatten converts a nested map structure into a flat map with
    dot-notation keys. *)
Definition Flatten (data : gmap string Any) : gmap string Any :=
  flattenRecursive data "" ∅.

(** FlattenAndExtractValues flattens a nested map and extracts .value
    fields. *)
Definition FlattenAndExtractValues (data : gmap string Any) (forDirectory : bool)
    : gmap string Any :=
  let flattened := Flatten data in
  map_fold (λ k v result,
    let key :=
      if forDirectory && String.eqb k "value" then ""
      else if HasSuffix k ".value" then TrimSuffix k ".value"
      else k in
    <[key := v]> result) ∅ flattened.

End Compare.

(** ** client.go: the calls made to the secret store *)

Module Client.
Import Go.

(** The errors the package builds with [fmt.Errorf], one constructor per
    message; [cause] is the error wrapped with [%w]. *)
Inductive Error : Type :=
| ApiError (msg : string)
| ErrListSecrets (path : string) (cause : Error)
| ErrReadMetadata (path : string) (cause : Error)
| ErrNoSecretsFound (path : string)
| ErrNoVersionHistory (path : string)
| ErrNoChanges (path : string)
| ErrOnlyNChanges (have : Z) (path : string) (want : Z)
| ErrNoSecretsAtChangesAgo (changesAgo : Z)
| ErrWriteSecret (relPath : string) (cause : Error)
| ErrDeleteSecret (relPath : string) (cause : Error)
| NilDereference.

Abbreviation R := (Result Error).

(** Modelled from the spec: the error kinds of its section 7, and the
    kind each message of the code falls under (the code itself has no
    error kinds, only messages). *)
Inductive ErrorKind : Type :=
| NotFound | NoHistory | InvalidSelector | InvalidDepth | StoreError.

Definition kindOf (e : Error) : ErrorKind :=
  match e with
  | ErrNoSecretsFound _ => NotFound
  | ErrNoSecretsAtChangesAgo _ => NotFound
  | ErrNoVersionHistory _ => NoHistory
  | ErrNoChanges _ => NoHistory
  | ErrOnlyNChanges _ _ _ => InvalidDepth
  | _ => StoreError
  end.

(** VersionInfo contains info about a specific version of a secret.
    Times are instants on a line, so [time.After] is [>]. *)
Record VersionInfo : Type := mkVersionInfo {
  Version : Z;
  CreatedTime : Z;
  Destroyed : bool;
  Deleted : bool
}.

(** SecretMetadata contains metadata about a secret. *)
Record SecretMetadata : Type := mkSecretMetadata {
  MetaCreatedTime : Z;
  UpdatedTime : Z;
  CurrentVersion : Z;
  MaxVersions : Z
}.

(** What the store answers to the read-only calls of the client.
    [metadataVersions] is the decoded ["versions"] table of a secret's
    metadata, in the order its [range] visits it ([None] when the store
    has no metadata there); the other two are the results of
    [ListSecretPaths] and [ReadSecretVersion]. *)
Record Client : Type := mkClient {
  ListSecretPaths : string → R (list string);
  metadataVersions : string → R (option (list VersionInfo));
  ReadSecretVersion : string → Z → R (option (gmap string Any))
}.

Section WithSorter.
Context {sorter : SliceSorter}.

(** GetVersionHistory retrieves the version history for a secret: the
    versions neither destroyed nor deleted, newest first. *)
Definition GetVersionHistory (c : Client) (path : string) : R (list VersionInfo) :=
  match metadataVersions c path with
  | Err e => Err (ErrReadMetadata path e)
  | Ok None => Ok []
  | Ok (Some versions) =>
      let result :=
        fold_left (λ result info,
          if negb (Destroyed info) && negb (Deleted info)
          then result ++ [info] else result) versions [] in
      Ok (sortSlice (λ a b, Version b <? Version a) result)
  end.

End WithSorter.
End Client.

(** ** timeline.go: timelines and past states *)

Module Timeline.
Import Go Compare Client.

(** TimelineEntry represents a single change in the version timeline. *)
Record TimelineEntry : Type := mkTimelineEntry {
  Time : Z;
  SecretPath : string;
  FullPath : string;
  EntryVersion : Z;
  IsCreation : bool
}.

(** The local type [changeEvent] of [GetStateAtChangesAgo]. *)
Record changeEvent : Type := mkChangeEvent {
  secretPath : string;
  version : Z;
  createdTime : Z
}.

(** [for k, v := range flattened { result[relPath(.k)] = v }]. *)
Definition mergeFlattened (relPath : string) (flattened result : gmap string Any)
    : gmap string Any :=
  map_fold (λ k v result,
    if String.eqb k "" then <[relPath := v]> result
    else <[relPath +:+ "." +:+ k := v]> result) result flattened.

Section WithSorter.
Context {sorter : SliceSorter}.

(** GetTimeline returns a chronological timeline of all changes under a
    path, sorted by time descending (newest first). *)
Definition GetTimeline (c : Client) (path : string) : R (list TimelineEntry) :=
  match ListSecretPaths c path with
  | Err e => Err (ErrListSecrets path e)
  | Ok paths =>
      if Z.of_nat (length paths) =? 0 then Err (ErrNoSecretsFound path)
      else
        let timeline :=
          fold_left (λ timeline secretPath,
            let fullPath := path +:+ "/" +:+ secretPath in
            match GetVersionHistory c fullPath with
            | Err _ => timeline
            | Ok versions =>
                fold_left (λ timeline v,
                  timeline ++
                    [mkTimelineEntry (CreatedTime v) secretPath fullPath
                       (Version v) (Version v =? 1)])
                  versions timeline
            end) paths [] in
        if Z.of_nat (length timeline) =? 0 then Err (ErrNoVersionHistory path)
        else Ok (sortSlice (λ a b, Time b <? Time a) timeline)
  end.

(** First loop of [GetStateAtChangesAgo]: the change events of every
    secret and the current version of each. *)
Definition collectChanges (c : Client) (basePath : string)
    (secretPaths : list string) : list changeEvent * gmap string Z :=
  fold_left (λ '(allChanges, secretCurrentVersions) relPath,
    let fullPath := basePath +:+ "/" +:+ relPath in
    match GetVersionHistory c fullPath with
    | Err _ => (allChanges, secretCurrentVersions)
    | Ok [] => (allChanges, secretCurrentVersions)
    | Ok ((h0 :: _) as history) =>
        (fold_left (λ allChanges v,
           if 1 <? Version v
           then allChanges ++ [mkChangeEvent relPath (Version v) (CreatedTime v)]
           else allChanges) history allChanges,
         <[relPath := Version h0]> secretCurrentVersions)
    end) secretPaths ([], ∅).

(** [for i := 0; i < changesAgo && i < len(allChanges); i++]: [rest] is
    [allChanges[i:]]. *)
Fixpoint undoChanges (changesAgo i : Z) (rest : list changeEvent)
    (secretVersionsAtPoint : gmap string Z) : gmap string Z :=
  match rest with
  | [] => secretVersionsAtPoint
  | change :: rest' =>
      if i <? changesAgo then
        undoChanges changesAgo (i + 1) rest'
          (match secretVersionsAtPoint !! secretPath change with
           | Some currentVer =>
               if currentVer =? version change
               then <[secretPath change := version change - 1]> secretVersionsAtPoint
               else secretVersionsAtPoint
           | None => secretVersionsAtPoint
           end)
      else secretVersionsAtPoint
  end.

(** Last loop: read each secret at the computed version. *)
Definition readAtVersions (c : Client) (basePath : string)
    (secretVersionsAtPoint : gmap string Z) : gmap string Any :=
  map_fold (λ relPath version result,
    if version <? 1 then result
    else
      let fullPath := basePath +:+ "/" +:+ relPath in
      match ReadSecretVersion c fullPath version with
      | Err _ => result
      | Ok None => result
      | Ok (Some secrets) =>
          let flattened := FlattenAndExtractValues secrets true in
          mergeFlattened relPath flattened result
      end) ∅ secretVersionsAtPoint.

(** GetStateAtChangesAgo retrieves the state of a directory N changes
    ago. *)
Definition GetStateAtChangesAgo (c : Client) (basePath : string) (changesAgo : Z)
    : R (gmap string Any) :=
  match ListSecretPaths c basePath with
  | Err e => Err (ErrListSecrets basePath e)
  | Ok secretPaths =>
      if Z.of_nat (length secretPaths) =? 0 then Err (ErrNoSecretsFound basePath)
      else
        let '(allChanges, secretCurrentVersions) :=
          collectChanges c basePath secretPaths in
        if Z.of_nat (length allChanges) =? 0 then Err (ErrNoChanges basePath)
        else
          let allChanges :=
            sortSlice (λ a b, createdTime b <? createdTime a) allChanges in
          if Z.of_nat (length allChanges) <? changesAgo then
            Err (ErrOnlyNChanges (Z.of_nat (length allChanges)) basePath changesAgo)
          else
            let secretVersionsAtPoint :=
              map_fold (λ path ver m, <[path := ver]> m) ∅ secretCurrentVersions in
            let secretVersionsAtPoint :=
              undoChanges changesAgo 0 allChanges secretVersionsAtPoint in
            let result := readAtVersions c basePath secretVersionsAtPoint in
            if Z.of_nat (size result) =? 0
            then Err (ErrNoSecretsAtChangesAgo changesAgo)
            else Ok result
  end.

End WithSorter.
End Timeline.

(** ** snapshot.go: snapshots and their restore *)

Module Snapshot.
Import Go Client.

(** SnapshotSecret represents a single secret in a snapshot. *)
Record SnapshotSecret : Type := mkSnapshotSecret {
  Value : Any;
  Version : Z;
  SecretUpdated : Z
}.

(** Snapshot represents a point-in-time backup of secrets. *)
Record Snapshot : Type := mkSnapshot {
  Path : string;
  CreatedAt : Z;
  Secrets : gmap string SnapshotSecret
}.

(** RestoreOptions configures how a restore operation behaves. *)
Record RestoreOptions : Type := mkRestoreOptions {
  DryRun : bool;
  Verify : bool;
  DeleteExtra : bool
}.

(** RestoreResult contains the results of a restore operation. *)
Record RestoreResult : Type := mkRestoreResult {
  Added : list string;
  Updated : list string;
  Deleted : list string;
  Unchanged : list string;
  Skipped : list string
}.

(** HasChanges returns true if the restore would make any changes. *)
Definition HasChanges (r : RestoreResult) : bool :=
  (0 <? Z.of_nat (length (Added r)))
  || (0 <? Z.of_nat (length (Updated r)))
  || (0 <? Z.of_nat (length (Deleted r))).

(** TotalChanges returns the total number of changes. *)
Definition TotalChanges (r : RestoreResult) : Z :=
  Z.of_nat (length (Added r)) + Z.of_nat (length (Updated r))
  + Z.of_nat (length (Deleted r)).

(** The calls [RestoreSnapshot] makes on the client, over a store in
    state [S].  A write or delete that fails leaves the store as it
    was. *)
Record Store (S : Type) : Type := mkStore {
  ListSecretPaths : S → string → R (list string);
  GetMetadata : S → string → R (option SecretMetadata);
  ReadSecretRaw : S → string → R (option (gmap string Any));
  WriteSecret : S → string → gmap string Any → R S;
  DeleteSecret : S → string → R S
}.
Arguments ListSecretPaths {S} _ _ _.
Arguments GetMetadata {S} _ _ _.
Arguments ReadSecretRaw {S} _ _ _.
Arguments WriteSecret {S} _ _ _ _.
Arguments DeleteSecret {S} _ _ _.

(** Unwraps [{"value": v}] to [v], as both sides of the comparison in
    [RestoreSnapshot] do. *)
Definition unwrapValue (m : gmap string Any) : Any :=
  match m !! "value" with
  | Some v => if Z.of_nat (size m) =? 1 then v else VMap m
  | None => VMap m
  end.

Section Restore.
Context {S : Type} (c : Store S).

(** The variables a run of [RestoreSnapshot] updates. *)
Record restoreState : Type := mkRestoreState {
  store : S;
  currentSet : gset string;
  result : RestoreResult
}.

(** How one iteration of a loop ends: the loop goes on, or the function
    returns an error; the store is as the iteration left it. *)
Inductive step : Type :=
| Continue (st : restoreState)
| Return (s : S) (e : Error).

Definition writeSnapshotSecret (opts : RestoreOptions) (fullPath relPath : string)
    (snapshotSecret : SnapshotSecret) (st : restoreState) : step :=
  if negb (DryRun opts) then
    let data := Value snapshotSecret in
    let dataMap :=
      match data with
      | VMap dataMap => dataMap
      | _ => {["value" := data]}
      end in
    match WriteSecret c (store st) fullPath dataMap with
    | Err e => Return (store st) (ErrWriteSecret relPath e)
    | Ok s' => Continue (mkRestoreState s' (currentSet st) (result st))
    end
  else Continue st.

(** Body of the loop over [snapshot.Secrets]. *)
Definition restoreSecret (opts : RestoreOptions) (targetPath : string)
    (st : restoreState) (entry : string * SnapshotSecret) : step :=
  let relPath := entry.1 in
  let snapshotSecret := entry.2 in
  let fullPath := targetPath +:+ "/" +:+ relPath in
  let exists_ := bool_decide (relPath ∈ currentSet st) in
  let st := mkRestoreState (store st) (currentSet st ∖ {[relPath]}) (result st) in
  let r := result st in
  let skipped :=
    mkRestoreState (store st) (currentSet st)
      (mkRestoreResult (Added r) (Updated r) (Deleted r) (Unchanged r)
         (Skipped r ++ [relPath])) in
  let unchanged :=
    mkRestoreState (store st) (currentSet st)
      (mkRestoreResult (Added r) (Updated r) (Deleted r)
         (Unchanged r ++ [relPath]) (Skipped r)) in
  let updated :=
    mkRestoreState (store st) (currentSet st)
      (mkRestoreResult (Added r) (Updated r ++ [relPath]) (Deleted r)
         (Unchanged r) (Skipped r)) in
  let added :=
    mkRestoreState (store st) (currentSet st)
      (mkRestoreResult (Added r ++ [relPath]) (Updated r) (Deleted r)
         (Unchanged r) (Skipped r)) in
  let restore :=
    if exists_ then
      match ReadSecretRaw c (store st) fullPath with
      | Ok currentData =>
          let snapshotValue :=
            match Value snapshotSecret with
            | VMap sv => unwrapValue sv
            | v => v
            end in
          let currentValue := unwrapValue (default ∅ currentData) in
          if String.eqb (Sprintv currentValue) (Sprintv snapshotValue)
          then Continue unchanged
          else writeSnapshotSecret opts fullPath relPath snapshotSecret updated
      | Err _ => writeSnapshotSecret opts fullPath relPath snapshotSecret updated
      end
    else writeSnapshotSecret opts fullPath relPath snapshotSecret added in
  if Verify opts && exists_ then
    match GetMetadata c (store st) fullPath with
    | Ok (Some metadata) =>
        if negb (CurrentVersion metadata =? Version snapshotSecret)
        then Continue skipped
        else restore
    | Ok None => Return (store st) NilDereference
    | Err _ => restore
    end
  else restore.

(** Body of the loop over what is left of [currentSet]. *)
Definition deleteExtra (opts : RestoreOptions) (targetPath : string)
    (st : restoreState) (relPath : string) : step :=
  let r := result st in
  let st :=
    mkRestoreState (store st) (currentSet st)
      (mkRestoreResult (Added r) (Updated r) (Deleted r ++ [relPath])
         (Unchanged r) (Skipped r)) in
  if negb (DryRun opts) then
    let fullPath := targetPath +:+ "/" +:+ relPath in
    match DeleteSecret c (store st) fullPath with
    | Err e => Return (store st) (ErrDeleteSecret relPath e)
    | Ok s' => Continue (mkRestoreState s' (currentSet st) (result st))
    end
  else Continue st.

(** A [for ... range] whose body may return from the function. *)
Fixpoint rangeOver {A} (body : restoreState → A → step) (l : list A)
    (st : restoreState) : step :=
  match l with
  | [] => Continue st
  | x :: l' =>
      match body st x with
      | Continue st' => rangeOver body l' st'
      | Return s e => Return s e
      end
  end.

(** RestoreSnapshot restores secrets from a snapshot.  It returns the
    store as the call leaves it, and the result or the error. *)
Definition RestoreSnapshot (s : S) (snapshot : Snapshot) (targetPath : string)
    (opts : RestoreOptions) : S * R RestoreResult :=
  let initial := mkRestoreResult [] [] [] [] [] in
  let currentPaths :=
    match ListSecretPaths c s targetPath with
    | Ok currentPaths => currentPaths
    | Err _ => []
    end in
  let current : gset string := list_to_set currentPaths in
  match rangeOver (restoreSecret opts targetPath)
          (map_to_list (Secrets snapshot))
          (mkRestoreState s current initial) with
  | Return s' e => (s', Err e)
  | Continue st =>
      if DeleteExtra opts then
        match rangeOver (deleteExtra opts targetPath)
                (elements (currentSet st)) st with
        | Return s' e => (s', Err e)
        | Continue st' => (store st', Ok (result st'))
        end
      else (store st, Ok (result st))
  end.

End Restore.

(** *** The store kept in memory

    A key-value store with one current version per path, as the calls
    above see a KV version 2 mount: a write makes version 1 of a new
    path or the next version of an existing one, a delete removes the
    path with its versions, and the listing of a directory gives the
    paths below it, relative to it. *)
Record entry : Type := mkEntry {
  entryVersion : Z;
  entryData : gmap string Any
}.

Definition stripPrefix (pre s : string) : option string :=
  if HasPrefix s pre then Some (sliceFrom s (len pre)) else None.

Definition memStore : Store (gmap string entry) :=
  mkStore (gmap string entry)
    (λ s path, Ok (omap (stripPrefix (path +:+ "/")) (map_to_list s).*1))
    (λ s path, Ok ((λ e, mkSecretMetadata 0 0 (entryVersion e) 0) <$> s !! path))
    (λ s path, Ok (entryData <$> s !! path))
    (λ s path data,
       Ok (<[path :=
               mkEntry (match s !! path with
                        | Some e => entryVersion e + 1
                        | None => 1
                        end) data]> s))
    (λ s path, Ok (delete path s)).

(** *** What a run does, entry by entry

    The class [RestoreSnapshot] gives a snapshot entry depends only on
    what the store holds at the entry's path when the run starts. *)
Inductive class : Type := CAdded | CUpdated | CUnchanged | CSkipped.

#[global] Instance class_eq_dec : EqDecision class.
Proof. solve_decision. Defined.

Definition fullPathOf (targetPath relPath : string) : string :=
  targetPath +:+ "/" +:+ relPath.

(** The two sides of the comparison, and the data a write sends. *)
Definition snapshotValueOf (snapshotSecret : SnapshotSecret) : Any :=
  match Value snapshotSecret with
  | VMap sv => unwrapValue sv
  | v => v
  end.

Definition dataOf (snapshotSecret : SnapshotSecret) : gmap string Any :=
  match Value snapshotSecret with
  | VMap dataMap => dataMap
  | data => {["value" := data]}
  end.

Definition classify (verify : bool) (s : gmap string entry) (targetPath : string)
    (kv : string * SnapshotSecret) : class :=
  match s !! fullPathOf targetPath kv.1 with
  | None => CAdded
  | Some e =>
      if verify && negb (entryVersion e =? Version kv.2) then CSkipped
      else if String.eqb (Sprintv (unwrapValue (entryData e)))
                (Sprintv (snapshotValueOf kv.2))
      then CUnchanged else CUpdated
  end.

Definition keysOfClass (cl : class) (verify : bool) (s : gmap string entry)
    (targetPath : string) (entries : list (string * SnapshotSecret)) : list string :=
  (filter (λ kv, classify verify s targetPath kv = cl) entries).*1.

Definition isWritten (cl : class) : bool :=
  match cl with
  | CAdded | CUpdated => true
  | _ => false
  end.

(** The write of one snapshot entry, and the delete of one extra path,
    on the store kept in memory. *)
Definition writeTo (targetPath : string) (s : gmap string entry)
    (kv : string * SnapshotSecret) : gmap string entry :=
  <[fullPathOf targetPath kv.1 :=
      mkEntry (match s !! fullPathOf targetPath kv.1 with
               | Some e => entryVersion e + 1
               | None => 1
               end) (dataOf kv.2)]> s.

Definition deleteAt (targetPath : string) (s : gmap string entry)
    (relPath : string) : gmap string entry :=
  delete (fullPathOf targetPath relPath) s.

(** The result with [relPath] appended to the list of its class. *)
Definition recordClass (cl : class) (relPath : string) (r : RestoreResult)
    : RestoreResult :=
  match cl with
  | CAdded =>
      mkRestoreResult (Added r ++ [relPath]) (Updated r) (Deleted r)
        (Unchanged r) (Skipped r)
  | CUpdated =>
      mkRestoreResult (Added r) (Updated r ++ [relPath]) (Deleted r)
        (Unchanged r) (Skipped r)
  | CUnchanged =>
      mkRestoreResult (Added r) (Updated r) (Deleted r)
        (Unchanged r ++ [relPath]) (Skipped r)
  | CSkipped =>
      mkRestoreResult (Added r) (Updated r) (Deleted r)
        (Unchanged r) (Skipped r ++ [relPath])
  end.

Definition recordDeleted (relPaths : list string) (r : RestoreResult)
    : RestoreResult :=
  mkRestoreResult (Added r) (Updated r) (Deleted r ++ relPaths)
    (Unchanged r) (Skipped r).

(** The entries a run writes, and the result of its first loop. *)
Definition writtenEntries (verify : bool) (s : gmap string entry)
    (targetPath : string) (entries : list (string * SnapshotSecret))
    : list (string * SnapshotSecret) :=
  filter (λ kv, isWritten (classify verify s targetPath kv) = true) entries.

Definition recordEntries (verify : bool) (s : gmap string entry)
    (targetPath : string) (entries : list (string * SnapshotSecret))
    (r : RestoreResult) : RestoreResult :=
  foldl (λ r kv, recordClass (classify verify s targetPath kv) kv.1 r) r entries.

(** The paths listed under [targetPath] in a store kept in memory. *)
Definition listed (s : gmap string entry) (targetPath : string) : list string :=
  omap (stripPrefix (targetPath +:+ "/")) (map_to_list s).*1.

(** The paths of the store that the snapshot does not hold. *)
Definition extraPaths (s : gmap string entry) (targetPath : string)
    (entries : list (string * SnapshotSecret)) : list string :=
  elements (list_to_set (listed s targetPath) ∖ list_to_set entries.*1
              : gset string).

End Snapshot.

(** ** The specification's own words

    The definitions below follow the text of the specification, not the
    code; the theorems compare the two. *)

Module Spec.
Import Go Compare Client Timeline.

(** The selectors of the specification, as the [VersionSpec] values that
    stand for them. *)
Definition selNone : VersionSpec := noSpec.
Definition selExact (n : Z) : VersionSpec := mkSpec n 0 false false.
Definition selPrevious : VersionSpec := mkSpec 0 0 true false.
Definition selChangesAgo (n : Z) : VersionSpec := mkSpec 0 n false true.

(** The resolver as the specification words it: split at the last [@];
    a positive integer suffix is [Exact], a negative one [ChangesAgo],
    [prev]/[previous] is [Previous], anything else leaves the string
    whole.  [splitLast] walks the string once and keeps the text on each
    side of the rightmost [@]. *)
Fixpoint splitLast (c : ascii) (s : string) : option (string * string) :=
  match s with
  | EmptyString => None
  | String a s' =>
      match splitLast c s' with
      | Some (b, suf) => Some (String a b, suf)
      | None => if Ascii.eqb a c then Some (EmptyString, s') else None
      end
  end.

Definition Resolve (path : string) : string * VersionSpec :=
  match splitLast "@" path with
  | None => (path, selNone)
  | Some (base, suffix) =>
      if String.eqb suffix "prev" || String.eqb suffix "previous"
      then (base, selPrevious)
      else match intLiteral suffix with
           | Some n =>
               if 0 <? n then (base, selExact n)
               else if n <? 0 then (base, selChangesAgo (- n))
               else (path, selNone)
           | None => (path, selNone)
           end
  end.

(** The suffix after the last [@] reads as an integer that [int] holds
    together with its negation (or is not an integer at all). *)
Definition suffixFitsInt (path : string) : Prop :=
  match splitLast "@" path with
  | Some (_, suffix) =>
      match intLiteral suffix with
      | Some n => - maxInt <= n <= maxInt
      | None => True
      end
  | None => True
  end.

Section WithSorter.
Context {sorter : SliceSorter}.

(** The keys of a directory. *)
Definition keysOf (c : Client) (dir : string) : list string :=
  match ListSecretPaths c dir with
  | Ok keys => keys
  | Err _ => []
  end.

(** The retained version history of a key, newest first. *)
Definition historyOf (c : Client) (dir key : string) : list VersionInfo :=
  match GetVersionHistory c (dir +:+ "/" +:+ key) with
  | Ok history => history
  | Err _ => []
  end.

(** The recorded changes of a directory: one event for each retained
    version above 1, of every key. *)
Definition changesOf (c : Client) (dir : string) : list changeEvent :=
  keysOf c dir ≫= λ key,
    (λ v, mkChangeEvent key (Version v) (CreatedTime v))
      <$> filter (λ v, 1 < Version v) (historyOf c dir key).

Definition totalChanges (c : Client) (dir : string) : Z :=
  Z.of_nat (length (changesOf c dir)).

(** The merged stream of changes, latest first. *)
Definition eventStream (c : Client) (dir : string) : list changeEvent :=
  sortSlice (λ a b, createdTime b <? createdTime a) (changesOf c dir).

(** The current version of each key: its newest retained version. *)
Definition currentVersions (c : Client) (dir : string) : gmap string Z :=
  list_to_map
    (omap (λ key, (λ v, (key, Version v)) <$> head (historyOf c dir key))
       (keysOf c dir)).

(** The current-version table as the first loop builds it. *)
Definition recordCurrent (c : Client) (dir : string)
    (cur : gmap string Z) (key : string) : gmap string Z :=
  match head (historyOf c dir key) with
  | Some v => <[key := Version v]> cur
  | None => cur
  end.

(** One step of the walk: the pointer of the event's key goes down by
    one iff it equals the event's version. *)
Definition undo (pointer : gmap string Z) (ev : changeEvent) : gmap string Z :=
  match pointer !! secretPath ev with
  | Some p =>
      if decide (p = version ev) then <[secretPath ev := p - 1]> pointer
      else pointer
  | None => pointer
  end.

(** The pointers after walking the first [N] events. *)
Definition pointersAt (c : Client) (dir : string) (N : Z) : gmap string Z :=
  foldl undo (currentVersions c dir) (take (Z.to_nat N) (eventStream c dir)).

(** The state the pointers stand for: each key whose pointer is at
    least 1 brings the fields of its value read at that version; a key
    whose pointer is 0, or whose read gives nothing, brings none. *)
Definition stateAt (c : Client) (dir : string) (pointer : gmap string Z)
    : gmap string Any :=
  map_fold (λ key p state,
    if decide (1 ≤ p) then
      match ReadSecretVersion c (dir +:+ "/" +:+ key) p with
      | Ok (Some secret) =>
          mergeFlattened key (FlattenAndExtractValues secret true) state
      | _ => state
      end
    else state) ∅ pointer.

(** The live current state of a directory. *)
Definition liveState (c : Client) (dir : string) : gmap string Any :=
  stateAt c dir (currentVersions c dir).

(** "GetStateAtChangesAgo(dir, N) returns exactly the map computed by the
    pointer-walk", for N from 1 to the total. *)
Definition returnsWalkedState (c : Client) (dir : string) (N : Z) : Prop :=
  1 ≤ N ≤ totalChanges c dir →
  GetStateAtChangesAgo c dir N = Ok (stateAt c dir (pointersAt c dir N)).

(** "Fails with NotFound if the directory has no keys; fails with
    NoHistory if every key has exactly one version." *)
Definition everyKeyHasOneVersion (c : Client) (dir : string) : Prop :=
  keysOf c dir ≠ [] ∧
  ∀ key, key ∈ keysOf c dir → length (historyOf c dir key) = 1%nat.

Definition timelineFailures (c : Client) (dir : string) : Prop :=
  (ListSecretPaths c dir = Ok [] →
   ∃ e, GetTimeline c dir = Err e ∧ kindOf e = NotFound) ∧
  (everyKeyHasOneVersion c dir →
   ∃ e, GetTimeline c dir = Err e ∧ kindOf e = NoHistory).

(** "Fails with InvalidDepth exactly when N exceeds the total number of
    recorded changes." *)
Definition failsInvalidDepth (c : Client) (dir : string) (N : Z) : Prop :=
  ∃ e, GetStateAtChangesAgo c dir N = Err e ∧ kindOf e = InvalidDepth.

Definition invalidDepthExactly (c : Client) (dir : string) (N : Z) : Prop :=
  failsInvalidDepth c dir N ↔ totalChanges c dir < N.

(** "StateAtChangesAgo(dir, 0) == live current state of dir". *)
Definition zeroChangesAgoIsLive (c : Client) (dir : string) : Prop :=
  GetStateAtChangesAgo c dir 0 = Ok (liveState c dir).

End WithSorter.
End Spec.

(** ** Example directories *)

Module Examples.
Import Go Client.

(** A directory [d] with one key [a] that was written once. *)
Definition writtenOnce : Client :=
  mkClient
    (λ path, if String.eqb path "d" then Ok ["a"] else Ok [])
    (λ path,
       if String.eqb path "d/a"
       then Ok (Some [mkVersionInfo 1 10 false false])
       else Ok None)
    (λ path ver,
       if String.eqb path "d/a" && (ver =? 1)
       then Ok (Some {["value" := VString "x"]})
       else Ok None).

(** A directory [d] with one key [k] written three times, whose first
    version has been destroyed since: versions 3 and 2 are retained and
    can be read, version 1 cannot. *)
Definition firstDestroyed : Client :=
  mkClient
    (λ path, if String.eqb path "d" then Ok ["k"] else Ok [])
    (λ path,
       if String.eqb path "d/k"
       then Ok (Some [mkVersionInfo 1 10 true false;
                      mkVersionInfo 2 20 false false;
                      mkVersionInfo 3 30 false false])
       else Ok None)
    (λ path ver,
       if String.eqb path "d/k" && (2 <=? ver) && (ver <=? 3)
       then Ok (Some {["value" := VInt ver]})
       else Ok None).

(** A directory [d] with two keys, each created and updated once; the
    update of [k2] is the latest event, the update of [k1] the one
    before. *)
Definition twoKeys : Client :=
  mkClient
    (λ path, if String.eqb path "d" then Ok ["k1"; "k2"] else Ok [])
    (λ path,
       if String.eqb path "d/k1"
       then Ok (Some [mkVersionInfo 1 10 false false;
                      mkVersionInfo 2 30 false false])
       else if String.eqb path "d/k2"
       then Ok (Some [mkVersionInfo 2 40 false false;
                      mkVersionInfo 1 20 false false])
       else Ok None)
    (λ path ver,
       if (String.eqb path "d/k1" || String.eqb path "d/k2")
          && (1 <=? ver) && (ver <=? 2)
       then Ok (Some {["value" := VString (path +:+ "@" +:+ Itoa ver)]})
       else Ok None).

(** The scenario of the specification: the snapshot holds [a] with
    value "1" and [b] with value "2"; the live directory [t] holds [a]
    with value "1" and [c] with value "3".  Every secret is at its first
    version. *)
Definition snapshotAB : Snapshot.Snapshot :=
  Snapshot.mkSnapshot "t" 0
    (<["a" := Snapshot.mkSnapshotSecret (VString "1") 1 0]>
       (<["b" := Snapshot.mkSnapshotSecret (VString "2") 1 0]> ∅)).

Definition liveAC : gmap string Snapshot.entry :=
  <["t/a" := Snapshot.mkEntry 1 {["value" := VString "1"]}]>
    (<["t/c" := Snapshot.mkEntry 1 {["value" := VString "3"]}]> ∅).

(** The same directory after a writer has put "9" in [a], which is now
    at its second version. *)
Definition liveAC_rewritten : gmap string Snapshot.entry :=
  <["t/a" := Snapshot.mkEntry 2 {["value" := VString "9"]}]> liveAC.

End Examples.

(** ** snapshot.go: taking a snapshot *)

Module Backups.
Import Go Client Snapshot.

(** The errors of [CreateSnapshot], one constructor per message;
    [NilMetadata] is the nil dereference of [metadata.CurrentVersion]
    when the store has no metadata for a listed path. *)
Inductive CreateError : Type :=
| ErrListing (cause : Error)
| ErrNoSecretsAt (path : string)
| ErrReadSecret (relPath : string) (cause : Error)
| ErrGetMetadata (relPath : string) (cause : Error)
| NilMetadata.

Section Create.
Context {S : Type} (c : Store S).

(** The loop of [CreateSnapshot] over the listed paths; an error leaves
    the function. *)
Fixpoint readSecrets (s : S) (path : string) (secretPaths : list string)
    (secrets : gmap string SnapshotSecret)
    : Result CreateError (gmap string SnapshotSecret) :=
  match secretPaths with
  | [] => Ok secrets
  | relPath :: secretPaths' =>
      let fullPath := path +:+ "/" +:+ relPath in
      match ReadSecretRaw c s fullPath with
      | Err e => Err (ErrReadSecret relPath e)
      | Ok data =>
          match GetMetadata c s fullPath with
          | Err e => Err (ErrGetMetadata relPath e)
          | Ok None => Err NilMetadata
          | Ok (Some metadata) =>
              let value := unwrapValue (default ∅ data) in
              readSecrets s path secretPaths'
                (<[relPath := mkSnapshotSecret value (CurrentVersion metadata)
                                (UpdatedTime metadata)]> secrets)
          end
      end
  end.

(** CreateSnapshot creates a snapshot of all secrets under a path;
    [now] is what [time.Now()] returns. *)
Definition CreateSnapshot (s : S) (path : string) (now : Z)
    : Result CreateError Snapshot :=
  match ListSecretPaths c s path with
  | Err e => Err (ErrListing e)
  | Ok secretPaths =>
      if Z.of_nat (length secretPaths) =? 0 then Err (ErrNoSecretsAt path)
      else
        match readSecrets s path secretPaths ∅ with
        | Err e => Err e
        | Ok secrets => Ok (mkSnapshot path now secrets)
        end
  end.

End Create.

(** What a snapshot holds of an entry of the store kept in memory,
    which keeps no times. *)
Definition secretOf (e : entry) : SnapshotSecret :=
  mkSnapshotSecret (unwrapValue (entryData e)) (entryVersion e) 0.

(** The store as an iteration of a loop of [RestoreSnapshot] leaves
    it. *)
Definition storeAfter {S} (c : Store S) (r : step (S := S)) : S :=
  match r with
  | Continue st => store st
  | Return s _ => s
  end.

(** A secret whose data is a single [value] that is itself a map with
    the single key [value]. *)
Definition doublyWrapped (data : gmap string Any) : Prop :=
  ∃ inner w, data = {["value" := VMap inner]} ∧ inner = {["value" := w]}.

End Backups.

(** ** Histories as a store keeps them

    What a key-value store with versions keeps of a secret whose
    versions are written one after the other: the retained versions are
    consecutive numbers, and a higher version was written later. *)

Module Histories.
Import Go Client Timeline Spec.

(** The [n] numbers [hi], [hi - 1], ... *)
Fixpoint countDown (hi : Z) (n : nat) : list Z :=
  match n with
  | O => []
  | S n' => hi :: countDown (hi - 1) n'
  end.

Definition contiguous (history : list VersionInfo) : Prop :=
  match history with
  | [] => True
  | newest :: _ =>
      Client.Version <$> history = countDown (Client.Version newest) (length history)
  end.

Definition laterIsNewer (history : list VersionInfo) : Prop :=
  StronglySorted (λ a b, CreatedTime b < CreatedTime a) history.

(** The retained versions go down to version 1: nothing was destroyed
    or deleted at the old end. *)
Definition reachesFirst (history : list VersionInfo) : Prop :=
  match history with
  | [] => True
  | newest :: _ => Client.Version newest = Z.of_nat (length history)
  end.

Section WithSorter.
Context {sorter : SliceSorter}.

Definition regular (c : Client) (dir : string) : Prop :=
  NoDup (keysOf c dir) ∧
  ∀ key, key ∈ keysOf c dir →
    contiguous (historyOf c dir key) ∧ laterIsNewer (historyOf c dir key).

(** The events of one key among the first [N] of the stream. *)
Definition eventsOf (c : Client) (dir key : string) (N : Z) : list changeEvent :=
  filter (λ ev, secretPath ev = key) (take (Z.to_nat N) (eventStream c dir)).

End WithSorter.
End Histories.

(** ** operations.go: single secrets and copies *)

Module Operations.
Import Go Client Snapshot.

(** The errors of operations.go: an error of the client returned as it
    is, or one of the messages built with [fmt.Errorf]. *)
Inductive OpError : Type :=
| ClientError (e : Error)
| ErrAlreadyExists (path : string)
| ErrSecretNotFound (path : string)
| ErrKeyNotFound (key path : string)
| ErrSourceMissing (src : string)
| ErrDestinationExists (dst : string)
| ErrWriteFailed (dstPath : string) (cause : Error)
| ErrDeleteAfterCopy (cause : Error)
| ErrRollbackFailed (cause rollback : Error).

(** The calls of the client that operations.go makes: those of
    [Store] and [SecretExists]. *)
Record OpStore (S : Type) : Type := mkOpStore {
  calls : Store S;
  SecretExists : S → string → R bool
}.
Arguments calls {S} _.
Arguments SecretExists {S} _ _ _.

Section Ops.
Context {S : Type} (c : OpStore S).

(** Add writes a new secret value at the given path. *)
Definition Add (s : S) (path value : string) : S * Result OpError unit :=
  match SecretExists c s path with
  | Err e => (s, Err (ClientError e))
  | Ok exists_ =>
      if exists_ then (s, Err (ErrAlreadyExists path))
      else
        let data : gmap string Any := {["value" := VString value]} in
        match WriteSecret (calls c) s path data with
        | Err e => (s, Err (ClientError e))
        | Ok s' => (s', Ok tt)
        end
  end.

(** Update updates an existing secret value at the given path. *)
Definition Update (s : S) (path value : string) : S * Result OpError unit :=
  match SecretExists c s path with
  | Err e => (s, Err (ClientError e))
  | Ok exists_ =>
      if negb exists_ then (s, Err (ErrSecretNotFound path))
      else
        let data : gmap string Any := {["value" := VString value]} in
        match WriteSecret (calls c) s path data with
        | Err e => (s, Err (ClientError e))
        | Ok s' => (s', Ok tt)
        end
  end.

(** GetValue retrieves a specific key from a secret at the given path. *)
Definition GetValue (s : S) (path key : string) : Result OpError Any :=
  match ReadSecretRaw (calls c) s path with
  | Err e => Err (ClientError e)
  | Ok None => Err (ErrSecretNotFound path)
  | Ok (Some data) =>
      match data !! key with
      | Some value => Ok value
      | None => Err (ErrKeyNotFound key path)
      end
  end.

(** readAndValidateSource reads source data and validates it exists:
    [len(srcData) == 0] holds of a nil map and of an empty one. *)
Definition readAndValidateSource (s : S) (src : string)
    : Result OpError (gmap string Any) :=
  match ReadSecretRaw (calls c) s src with
  | Err e => Err (ClientError e)
  | Ok srcData =>
      if Z.of_nat (size (default ∅ srcData)) =? 0
      then Err (ErrSourceMissing src)
      else Ok (default ∅ srcData)
  end.

(** checkDestinationNotExists validates that destination doesn't
    exist; [None] is the nil error. *)
Definition checkDestinationNotExists (s : S) (dst : string) : option OpError :=
  match SecretExists c s dst with
  | Err e => Some (ClientError e)
  | Ok exists_ => if exists_ then Some (ErrDestinationExists dst) else None
  end.

(** checkDestinationsNotExist validates that none of the destination
    paths exist. *)
Fixpoint checkDestinationsNotExist (s : S) (dst : string) (relPaths : list string)
    : option OpError :=
  match relPaths with
  | [] => None
  | relPath :: relPaths' =>
      match checkDestinationNotExists s (dst +:+ "/" +:+ relPath) with
      | Some err => Some err
      | None => checkDestinationsNotExist s dst relPaths'
      end
  end.

(** copySecrets copies secrets from src to dst for the given relative
    paths; a nil map read from the source is written as the empty
    map. *)
Fixpoint copySecrets (s : S) (src dst : string) (relPaths : list string)
    : S * option OpError :=
  match relPaths with
  | [] => (s, None)
  | relPath :: relPaths' =>
      let srcPath := src +:+ "/" +:+ relPath in
      let dstPath := dst +:+ "/" +:+ relPath in
      match ReadSecretRaw (calls c) s srcPath with
      | Err e => (s, Some (ClientError e))
      | Ok srcData =>
          match WriteSecret (calls c) s dstPath (default ∅ srcData) with
          | Err e => (s, Some (ErrWriteFailed dstPath e))
          | Ok s' => copySecrets s' src dst relPaths'
          end
      end
  end.

(** Copy copies a single secret from src to dst. *)
Definition Copy (s : S) (src dst : string) : S * Result OpError unit :=
  match readAndValidateSource s src with
  | Err e => (s, Err e)
  | Ok srcData =>
      match checkDestinationNotExists s dst with
      | Some err => (s, Err err)
      | None =>
          match WriteSecret (calls c) s dst srcData with
          | Err e => (s, Err (ClientError e))
          | Ok s' => (s', Ok tt)
          end
      end
  end.

(** CopyRecursive copies all secrets under src to dst; it returns the
    number of secrets copied. *)
Definition CopyRecursive (s : S) (src dst : string) : S * Result OpError Z :=
  match ListSecretPaths (calls c) s src with
  | Err e => (s, Err (ClientError e))
  | Ok secretPaths =>
      if Z.of_nat (length secretPaths) =? 0 then
        match Copy s src dst with
        | (s', Err e) => (s', Err e)
        | (s', Ok _) => (s', Ok 1)
        end
      else
        match checkDestinationsNotExist s dst secretPaths with
        | Some err => (s, Err err)
        | None =>
            match copySecrets s src dst secretPaths with
            | (s', Some err) => (s', Err err)
            | (s', None) => (s', Ok (Z.of_nat (length secretPaths)))
            end
        end
  end.

(** Move moves a single secret from src to dst. *)
Definition Move (s : S) (src dst : string) : S * Result OpError unit :=
  match readAndValidateSource s src with
  | Err e => (s, Err e)
  | Ok srcData =>
      match checkDestinationNotExists s dst with
      | Some err => (s, Err err)
      | None =>
          match WriteSecret (calls c) s dst srcData with
          | Err e => (s, Err (ClientError e))
          | Ok s1 =>
              match DeleteSecret (calls c) s1 src with
              | Err e =>
                  match DeleteSecret (calls c) s1 dst with
                  | Err rollbackErr => (s1, Err (ErrRollbackFailed e rollbackErr))
                  | Ok s2 => (s2, Err (ErrDeleteAfterCopy e))
                  end
              | Ok s2 => (s2, Ok tt)
              end
          end
      end
  end.

End Ops.

(** The store kept in memory, with [SecretExists], and the same store
    with some paths that cannot be deleted. *)
Definition memOps : OpStore (gmap string entry) :=
  mkOpStore _ memStore (λ s path, Ok (bool_decide (is_Some (s !! path)))).

Definition lockedOps (locked : gset string) : OpStore (gmap string entry) :=
  mkOpStore _
    (mkStore (gmap string entry)
       (ListSecretPaths memStore) (GetMetadata memStore)
       (ReadSecretRaw memStore) (WriteSecret memStore)
       (λ s path,
          if decide (path ∈ locked) then Err (ApiError "permission denied")
          else Ok (delete path s)))
    (λ s path, Ok (bool_decide (is_Some (s !! path)))).

End Operations.

(** ** timeline.go: previous versions *)

Module Previous.
Import Go Compare Client Timeline.

(** The errors of [GetPrevVersions] and [GetSecretAtVersion]: an error
    of the client returned as it is, or one of their messages. *)
Inductive PrevError : Type :=
| ClientErr (e : Error)
| ErrListUnder (basePath : string) (cause : Error)
| ErrAllAtVersion1 (basePath : string)
| ErrNoSecretsUnder (basePath : string)
| ErrGetMetadataFor (path : string) (cause : Error)
| ErrSecretNotFoundAt (path : string)
| ErrNoPreviousVersion (path : string) (currentVersion : Z)
| ErrVersionNotFound (version : Z) (path : string).

(** The calls the two functions make: those of [Client] and
    [GetMetadata]. *)
Record MetaClient : Type := mkMetaClient {
  client : Client;
  GetMetadata : string → R (option SecretMetadata)
}.

(** Body of the loop of [GetPrevVersions]: the result and the number
    of secrets skipped. *)
Definition prevVersion (c : MetaClient) (basePath : string)
    (acc : gmap string Any * Z) (relPath : string) : gmap string Any * Z :=
  let '(result, skipped) := acc in
  let fullPath := basePath +:+ "/" +:+ relPath in
  match GetMetadata c fullPath with
  | Err _ => (result, skipped + 1)
  | Ok None => (result, skipped + 1)
  | Ok (Some metadata) =>
      if CurrentVersion metadata <=? 1 then (result, skipped + 1)
      else
        let prevVersion := CurrentVersion metadata - 1 in
        match ReadSecretVersion (client c) fullPath prevVersion with
        | Err _ => (result, skipped + 1)
        | Ok secrets =>
            let flattened := FlattenAndExtractValues (default ∅ secrets) true in
            (mergeFlattened relPath flattened result, skipped)
        end
  end.

(** GetPrevVersions retrieves the previous version of each secret under
    a path. *)
Definition GetPrevVersions (c : MetaClient) (basePath : string)
    : Result PrevError (gmap string Any) :=
  match ListSecretPaths (client c) basePath with
  | Err e => Err (ErrListUnder basePath e)
  | Ok secretPaths =>
      let '(result, skipped) :=
        fold_left (prevVersion c basePath) secretPaths (∅, 0) in
      if Z.of_nat (size result) =? 0 then
        if 0 <? skipped then Err (ErrAllAtVersion1 basePath)
        else Err (ErrNoSecretsUnder basePath)
      else Ok result
  end.

(** GetSecretAtVersion reads a single secret at a specific version; if
    [isPrev] is true, reads the previous version. *)
Definition GetSecretAtVersion (c : MetaClient) (path : string) (version : Z)
    (isPrev : bool) : Result PrevError (gmap string Any) :=
  let read (version : Z) :=
    match ReadSecretVersion (client c) path version with
    | Err e => Err (ClientErr e)
    | Ok None => Err (ErrVersionNotFound version path)
    | Ok (Some secrets) => Ok secrets
    end in
  if isPrev then
    match GetMetadata c path with
    | Err e => Err (ErrGetMetadataFor path e)
    | Ok None => Err (ErrSecretNotFoundAt path)
    | Ok (Some metadata) =>
        if CurrentVersion metadata <=? 1
        then Err (ErrNoPreviousVersion path (CurrentVersion metadata))
        else read (CurrentVersion metadata - 1)
    end
  else read version.

(** Whether [GetPrevVersions] skips a listed secret: no metadata, no
    version before the current one, or a failed read of it. *)
Definition skips (c : MetaClient) (basePath relPath : string) : bool :=
  match GetMetadata c (basePath +:+ "/" +:+ relPath) with
  | Ok (Some metadata) =>
      (CurrentVersion metadata <=? 1)
      || match ReadSecretVersion (client c) (basePath +:+ "/" +:+ relPath)
                 (CurrentVersion metadata - 1) with
         | Err _ => true
         | Ok _ => false
         end
  | _ => true
  end.

(** The fields of the previous version of a listed secret; none when
    the secret is skipped. *)
Definition prevFields (c : MetaClient) (basePath relPath : string)
    : gmap string Any :=
  match GetMetadata c (basePath +:+ "/" +:+ relPath) with
  | Ok (Some metadata) =>
      if CurrentVersion metadata <=? 1 then ∅
      else
        match ReadSecretVersion (client c) (basePath +:+ "/" +:+ relPath)
                (CurrentVersion metadata - 1) with
        | Ok secrets => FlattenAndExtractValues (default ∅ secrets) true
        | Err _ => ∅
        end
  | _ => ∅
  end.

End Previous.

(** ** compare.go: the changes between two versions *)

Module Versions.
Import Go Compare Client.

(** ChangeType indicates the type of change. *)
Inductive ChangeType : Type :=
| ChangeAdded
| ChangeModified
| ChangeDeleted.

(** VersionChange represents a change between two versions; the field
    [Type] of the source is [Type_] here. *)
Record VersionChange : Type := mkVersionChange {
  Key : string;
  Type_ : ChangeType;
  OldValue : string;
  NewValue : string;
  OldLength : Z;
  NewLength : Z
}.

(** Body of the loop over [newData]: added and changed keys. *)
Definition compareNew (oldData : gmap string Any)
    (changes : list VersionChange) (kv : string * Any) : list VersionChange :=
  let key := kv.1 in
  let newVal := kv.2 in
  let newValStr := Sprintv newVal in
  match oldData !! key with
  | None =>
      changes ++ [mkVersionChange key ChangeAdded "" newValStr 0 (len newValStr)]
  | Some oldVal =>
      let oldValStr := Sprintv oldVal in
      if negb (String.eqb oldValStr newValStr) then
        changes ++ [mkVersionChange key ChangeModified oldValStr newValStr
                      (len oldValStr) (len newValStr)]
      else changes
  end.

(** Body of the loop over [oldData]: deleted keys. *)
Definition compareOld (newData : gmap string Any)
    (changes : list VersionChange) (kv : string * Any) : list VersionChange :=
  let key := kv.1 in
  let oldVal := kv.2 in
  match newData !! key with
  | Some _ => changes
  | None =>
      let oldValStr := Sprintv oldVal in
      changes ++ [mkVersionChange key ChangeDeleted oldValStr "" (len oldValStr) 0]
  end.

Section WithSorter.
Context {sorter : SliceSorter}.

(** CompareVersions compares two versions of a secret and returns the
    changes.  A version that reads as nil is ranged over as the empty
    map. *)
Definition CompareVersions (c : Client) (path : string)
    (oldVersion newVersion : Z) : R (list VersionChange) :=
  match ReadSecretVersion c path oldVersion with
  | Err e => Err e
  | Ok oldData =>
      match ReadSecretVersion c path newVersion with
      | Err e => Err e
      | Ok newData =>
          let oldData := default ∅ oldData in
          let newData := default ∅ newData in
          let changes := fold_left (compareNew oldData) (map_to_list newData) [] in
          let changes := fold_left (compareOld newData) (map_to_list oldData) changes in
          Ok (sortSlice (λ a b, String.ltb (Key a) (Key b)) changes)
      end
  end.

End WithSorter.

(** What the loops make of one entry. *)
Definition newChange (oldData : gmap string Any) (kv : string * Any)
    : option VersionChange :=
  match oldData !! kv.1 with
  | None =>
      Some (mkVersionChange kv.1 ChangeAdded "" (Sprintv kv.2) 0 (len (Sprintv kv.2)))
  | Some oldVal =>
      if String.eqb (Sprintv oldVal) (Sprintv kv.2) then None
      else Some (mkVersionChange kv.1 ChangeModified (Sprintv oldVal) (Sprintv kv.2)
                   (len (Sprintv oldVal)) (len (Sprintv kv.2)))
  end.

Definition oldChange (newData : gmap string Any) (kv : string * Any)
    : option VersionChange :=
  match newData !! kv.1 with
  | Some _ => None
  | None =>
      Some (mkVersionChange kv.1 ChangeDeleted (Sprintv kv.2) "" (len (Sprintv kv.2)) 0)
  end.

(** The three kinds of change between two maps. *)
Definition isChange (old new : gmap string Any) (ch : VersionChange) : Prop :=
  (∃ k v, new !! k = Some v ∧ old !! k = None ∧
     ch = mkVersionChange k ChangeAdded "" (Sprintv v) 0 (len (Sprintv v))) ∨
  (∃ k v1 v2, old !! k = Some v1 ∧ new !! k = Some v2 ∧
     Sprintv v1 ≠ Sprintv v2 ∧
     ch = mkVersionChange k ChangeModified (Sprintv v1) (Sprintv v2)
            (len (Sprintv v1)) (len (Sprintv v2))) ∨
  (∃ k v, old !! k = Some v ∧ new !! k = None ∧
     ch = mkVersionChange k ChangeDeleted (Sprintv v) "" (len (Sprintv v)) 0).

End Versions.

(** ** client.go: the mount of a path *)

Module Mounts.
Import Go Client.

(** [strings.TrimPrefix]. *)
Definition TrimPrefix (s pre : string) : string :=
  if HasPrefix s pre then sliceFrom s (len pre) else s.

(** [strings.SplitN(s, sep, 2)] for a separator of one byte: the text
    before the first separator and, when there is one, the text after
    it. *)
Fixpoint splitFirst (c : ascii) (s : string) : string * option string :=
  match s with
  | EmptyString => (EmptyString, None)
  | String a s' =>
      if Ascii.eqb a c then (EmptyString, Some s')
      else let '(h, t) := splitFirst c s' in (String a h, t)
  end.

(** splitMountPath splits a path into mount point and secret path. *)
Definition splitMountPath (path : string) : string * string :=
  match splitFirst "/" path with
  | (mount, None) => (mount, "")
  | (mount, Some secretPath) => (mount, secretPath)
  end.

(** What [Sys().ListMounts] tells of a mount. *)
Record MountOutput : Type := mkMountOutput {
  MountType : string;
  Options : gmap string string
}.

Section WithSorter.
Context {sorter : SliceSorter}.

(** The slice [kvMounts] of [ensureMountCache]: the KV version 2
    mounts, without their trailing slash, the longest first. *)
Definition kvMountsOf (mounts : gmap string MountOutput) : list string :=
  let kvMounts :=
    fold_left (λ kvMounts '(path, mount),
      if String.eqb (MountType mount) "kv" then
        match Options mount !! "version" with
        | Some v =>
            if String.eqb v "2" then kvMounts ++ [TrimSuffix path "/"]
            else kvMounts
        | None => kvMounts
        end
      else kvMounts) (map_to_list mounts) [] in
  sortSlice (λ a b, len b <? len a) kvMounts.

(** ensureMountCache fetches and caches KV v2 mounts if not already
    cached; a nil cache is the empty list. *)
Definition ensureMountCache (sysMounts : R (gmap string MountOutput))
    (mountCache : list string) : list string * option Error :=
  if negb (Z.of_nat (length mountCache) =? 0) then (mountCache, None)
  else
    match sysMounts with
    | Err e => (mountCache, Some e)
    | Ok mounts => (kvMountsOf mounts, None)
    end.

(** The loop of [ResolveMountPath] over the cache. *)
Fixpoint findMount (mountCache : list string) (path : string)
    : option (string * string) :=
  match mountCache with
  | [] => None
  | mount :: rest =>
      if HasPrefix path (mount +:+ "/")
      then Some (mount, TrimPrefix path (mount +:+ "/"))
      else if String.eqb path mount then Some (mount, "")
      else findMount rest path
  end.

(** ResolveMountPath detects the KV v2 mount for a path; it returns the
    cache as the call leaves it, the mount and the secret path. *)
Definition ResolveMountPath (sysMounts : R (gmap string MountOutput))
    (mountCache : list string) (path : string) : list string * (string * string) :=
  match ensureMountCache sysMounts mountCache with
  | (mountCache, Some _) => (mountCache, splitMountPath path)
  | (mountCache, None) =>
      match findMount mountCache path with
      | Some found => (mountCache, found)
      | None => (mountCache, splitMountPath path)
      end
  end.

End WithSorter.

(** A mount under which a path lies. *)
Definition matches (mount path : string) : Prop :=
  path = mount ∨ ∃ secretPath, path = mount +:+ "/" +:+ secretPath.

(** A KV version 2 mount of the table, by its path without the
    trailing slash. *)
Definition isKvMount (mounts : gmap string MountOutput) (mount : string) : Prop :=
  ∃ path output, mounts !! path = Some output ∧
    MountType output = "kv" ∧ Options output !! "version" = Some "2" ∧
    mount = TrimSuffix path "/".

End Mounts.

(** ** tree.go: the tree of secrets *)

Module Tree.
Import Go Client.

(** TreeNode represents a node in the secret tree hierarchy.  A node
    owns its children: the pointers of the source form a tree, and a
    change made through [current] is a change of the tree. *)
#[warnings="-register-all"]
Inductive TreeNode : Type :=
  mkTreeNode {
    Name : string;
    FullPath : string;
    IsDir : bool;
    Children : list TreeNode;
    Metadata : option SecretMetadata
  }.

(** [strings.Split(s, sep)] for a separator of one byte. *)
Fixpoint Split (s : string) (sep : ascii) : list string :=
  match s with
  | EmptyString => [EmptyString]
  | String a s' =>
      if Ascii.eqb a sep then EmptyString :: Split s' sep
      else
        match Split s' sep with
        | part :: parts => String a part :: parts
        | [] => [String a EmptyString]
        end
  end.

(** The name a child is looked up by. *)
Definition childName (child : TreeNode) : string :=
  if IsDir child then TrimSuffix (Name child) "/" else Name child.

(** The search for an existing child and what follows it: [next] is
    the rest of the loop of [addPathToTree], run on the child found or
    on the new node, which is appended. *)
Fixpoint descend (part : string) (next : TreeNode → TreeNode)
    (newNode : TreeNode) (children : list TreeNode) : list TreeNode :=
  match children with
  | [] => [next newNode]
  | child :: children' =>
      if String.eqb (childName child) part then next child :: children'
      else child :: descend part next newNode children'
  end.

(** The loop of [addPathToTree] from index [i] on: [seen] is
    [parts[:i]], [parts] is [parts[i:]]. *)
Fixpoint addParts (basePath : string) (seen parts : list string)
    (current : TreeNode) {struct parts} : TreeNode :=
  match parts with
  | [] => current
  | part :: parts' =>
      let isLast := Z.of_nat (length parts') =? 0 in
      let fullPath := basePath +:+ "/" +:+ Join (seen ++ [part]) "/" in
      let newNode :=
        mkTreeNode (if negb isLast then part +:+ "/" else part) fullPath
          (negb isLast) [] None in
      mkTreeNode (Name current) (FullPath current) (IsDir current)
        (descend part (addParts basePath (seen ++ [part]) parts') newNode
           (Children current))
        (Metadata current)
  end.

(** addPathToTree adds a relative path to the tree structure. *)
Definition addPathToTree (root : TreeNode) (basePath relPath : string) : TreeNode :=
  addParts basePath [] (Split relPath "/") root.

(** CountSecrets returns the total number of secrets (non-directory
    nodes) in the tree.  The count is at most the number of nodes, so
    its 64-bit wrap-around is not written. *)
Fixpoint CountSecrets (t : TreeNode) : Z :=
  if negb (IsDir t) then 1
  else fold_left (λ count child, count + CountSecrets child) (Children t) 0.

(** CountDirs returns the total number of directories in the tree
    (excluding root). *)
Fixpoint CountDirs (t : TreeNode) : Z :=
  fold_left (λ count child,
    if IsDir child then count + (1 + CountDirs child) else count)
    (Children t) 0.

End Tree.

(** ** Shapes of values *)

Module Shapes.
Import Go Compare.

(** A value that is not a map, and a map none of whose values is a
    map. *)
Definition notMap (v : Any) : Prop :=
  match v with
  | VMap _ => False
  | _ => True
  end.

Definition flatMap (m : gmap string Any) : Prop :=
  map_Forall (λ _ v, notMap v) m.

(** How deep the maps of a value are nested. *)
Fixpoint depth (v : Any) {struct v} : nat :=
  match v with
  | VMap m => S (map_fold (λ _ x acc, Nat.max (depth x) acc) 0%nat m)
  | _ => 0%nat
  end.

(** The key [mergeFlattened] writes a field of a secret under. *)
Definition fieldKey (relPath k : string) : string :=
  if String.eqb k "" then relPath else relPath +:+ "." +:+ k.

End Shapes.

(** ** More inputs *)

Module MoreExamples.
Import Go Client.

(** A directory [t] whose only secret [a] is a single [value] holding a
    map that is itself a single [value]. *)
Definition nestedValue : gmap string Snapshot.entry :=
  {["t/a" := Snapshot.mkEntry 1 {["value" := VMap {["value" := VString "x"]}]}]}.

(** The directory [d] of [twoKeys] with the metadata of its secrets:
    both are at version 2. *)
Definition twoKeysMeta : Previous.MetaClient :=
  Previous.mkMetaClient Examples.twoKeys
    (λ path,
       if String.eqb path "d/k1" || String.eqb path "d/k2"
       then Ok (Some (mkSecretMetadata 10 30 2 0))
       else Ok None).

(** A table of mounts with one KV version 2 mount. *)
Definition oneKvMount : gmap string Mounts.MountOutput :=
  {["secret/" := Mounts.mkMountOutput "kv" {["version" := "2"]}]}.

End MoreExamples.

(** * Properties *)

Import Go.

(** ** Go's insertion sort keeps the promise of [sort.Slice] *)

Lemma insertLeft_perm {A} (less : A → A → bool) x l :
  insertLeft less x l ≡ₚ x :: l.
Proof.
  induction l as [|y l IH]; simpl; [done|].
  destruct (less x y); [|done].
  rewrite IH. apply Permutation_swap.
Qed.

Lemma insertionSort_perm {A} (less : A → A → bool) l :
  insertionSort less l ≡ₚ l.
Proof.
  unfold insertionSort.
  assert (H : ∀ acc, fold_left (λ rp x, insertLeft less x rp) l acc ≡ₚ l ++ acc).
  { induction l as [|x l IH]; intros acc; simpl; [done|].
    rewrite IH, insertLeft_perm. by rewrite Permutation_middle. }
  rewrite reverse_Permutation, H. by rewrite app_nil_r.
Qed.

Lemma insertLeft_sorted {A} (less : A → A → bool) x l :
  StrictWeak less →
  StronglySorted (λ a b, less a b = false) l →
  StronglySorted (λ a b, less a b = false) (insertLeft less x l).
Proof.
  intros [Hasym Htrans]. induction l as [|y l IH]; intros Hl; simpl.
  - repeat constructor.
  - apply StronglySorted_cons in Hl as [Hy Hl].
    destruct (less x y) eqn:Hxy.
    + apply StronglySorted_cons. split; [|by apply IH].
      rewrite insertLeft_perm. constructor; [by apply Hasym|done].
    + apply StronglySorted_cons. split.
      * constructor; [done|].
        eapply Forall_impl; [exact Hy|]. intros b Hb; simpl in *. eauto.
      * by apply StronglySorted_cons.
Qed.

Lemma StronglySorted_reverse {A} (R : A → A → Prop) l :
  StronglySorted R l → StronglySorted (λ a b, R b a) (reverse l).
Proof.
  induction 1 as [|x l Hl IH Hx]; [constructor|].
  rewrite reverse_cons. apply StronglySorted_app. split_and!.
  - intros a b Ha Hb. apply list_elem_of_singleton in Hb as ->.
    rewrite Forall_forall in Hx. apply Hx.
    by rewrite elem_of_reverse in Ha.
  - done.
  - repeat constructor.
Qed.

Lemma insertionSort_sorted {A} (less : A → A → bool) l :
  StrictWeak less →
  StronglySorted (λ a b, less b a = false) (insertionSort less l).
Proof.
  intros Hless. unfold insertionSort.
  apply (StronglySorted_reverse (λ a b, less a b = false)).
  assert (H : ∀ acc, StronglySorted (λ a b, less a b = false) acc →
    StronglySorted (λ a b, less a b = false)
      (fold_left (λ rp x, insertLeft less x rp) l acc)).
  { induction l as [|x l IH]; intros acc Hacc; simpl; [done|].
    apply IH. by apply insertLeft_sorted. }
  apply H. constructor.
Qed.

(** The sorter Go runs on slices of at most twelve elements. *)
Definition goInsertionSort : SliceSorter :=
  {| sortSlice A := insertionSort;
     sortSlice_perm A := insertionSort_perm;
     sortSlice_sorted A := insertionSort_sorted |}.

(** ** SHA-256 on its test vectors *)

Example Sum256_abc :
  EncodeToString (Sha256.Sum256 "abc")
  = "ba7816bf8f01cfea414140de5dae2223b00361a396177a9cb410ff61f20015ad".
Proof. vm_compute. reflexivity. Qed.

Example Sum256_empty :
  EncodeToString (Sha256.Sum256 "")
  = "e3b0c44298fc1c149afbf4c8996fb92427ae41e4649b934ca495991b7852b855".
Proof. vm_compute. reflexivity. Qed.

Example Sum256_two_blocks :
  EncodeToString
    (Sha256.Sum256 "abcdbcdecdefdefgefghfghighijhijkijkljklmklmnlmnomnopnopq")
  = "248d6a61d20638b8e5c026930c3e6039a33ce45964ff2167f6ecedd419db06c1".
Proof. vm_compute. reflexivity. Qed.

Example hashValue_same : Compare.hashValue (VString "test-value")
  = Compare.hashValue (VString "test-value").
Proof. reflexivity. Qed.

Example hashValue_different :
  Compare.hashValue (VString "test-value")
  ≠ Compare.hashValue (VString "different-value").
Proof. vm_compute. discriminate. Qed.

(** ** The tests of the package, on the embedding *)

Section PackageTests.
Import Compare.

(** TestParseVersionedPath. *)
Example parse_no_version :
  ParseVersionedPath "secret/myapp/config" = ("secret/myapp/config", noSpec).
Proof. vm_compute. reflexivity. Qed.

Example parse_specific_version :
  ParseVersionedPath "secret/myapp/config@3"
  = ("secret/myapp/config", mkSpec 3 0 false false).
Proof. vm_compute. reflexivity. Qed.

Example parse_prev_alias :
  ParseVersionedPath "secret/myapp/config@prev"
  = ("secret/myapp/config", mkSpec 0 0 true false).
Proof. vm_compute. reflexivity. Qed.

Example parse_previous_alias :
  ParseVersionedPath "secret/myapp/config@previous"
  = ("secret/myapp/config", mkSpec 0 0 true false).
Proof. vm_compute. reflexivity. Qed.

Example parse_changes_ago :
  ParseVersionedPath "secret/myapp@-3" = ("secret/myapp", mkSpec 0 3 false true).
Proof. vm_compute. reflexivity. Qed.

Example parse_version_1 :
  ParseVersionedPath "secret/app@1" = ("secret/app", mkSpec 1 0 false false).
Proof. vm_compute. reflexivity. Qed.

Example parse_invalid_version :
  ParseVersionedPath "secret/app@invalid" = ("secret/app@invalid", noSpec).
Proof. vm_compute. reflexivity. Qed.

Example parse_version_0 :
  ParseVersionedPath "secret/app@0" = ("secret/app@0", noSpec).
Proof. vm_compute. reflexivity. Qed.

Example parse_at_in_name :
  ParseVersionedPath "secret/email@domain.com"
  = ("secret/email@domain.com", noSpec).
Proof. vm_compute. reflexivity. Qed.

(** TestVersionSpecHasVersion. *)
Example hasVersion_cases :
  HasVersion noSpec = false ∧
  HasVersion (mkSpec 3 0 false false) = true ∧
  HasVersion (mkSpec 0 0 true false) = true ∧
  HasVersion (mkSpec 0 2 false true) = true.
Proof. by vm_compute. Qed.

(** TestCompareSecrets, the complex scenario: [c] is only in the first
    map, [d] only in the second, [b] changed and [a] is the same. *)
Example compare_complex :
  @CompareSecrets goInsertionSort
    (<["a" := VString "1"]> (<["b" := VString "old"]> {["c" := VString "3"]}))
    (<["a" := VString "1"]> (<["b" := VString "new"]> {["d" := VString "4"]}))
  = mkDiffResult [mkDiffEntry "c" "3"] [mkDiffEntry "d" "4"]
      [mkChangedEntry "b" 3 3 "old" "new"] 1.
Proof. vm_compute. reflexivity. Qed.

Example compare_empty :
  @CompareSecrets goInsertionSort ∅ ∅ = mkDiffResult [] [] [] 0.
Proof. vm_compute. reflexivity. Qed.

(** TestFlatten. *)
Example flatten_deeply_nested :
  Flatten {["a" := VMap {["b" := VMap {["c" := VString "deep"]}]}]}
  = {["a.b.c" := VString "deep"]}.
Proof. vm_compute. reflexivity. Qed.

Example flatten_mixed :
  Flatten (<["flat" := VString "value"]>
             {["nested" := VMap {["key" := VString "nested-value"]}]})
  = <["flat" := VString "value"]> {["nested.key" := VString "nested-value"]}.
Proof. vm_compute. reflexivity. Qed.

Example flatten_numeric :
  Flatten (<["count" := VInt 42]> {["nested" := VMap {["port" := VInt 8080]}]})
  = <["count" := VInt 42]> {["nested.port" := VInt 8080]}.
Proof. vm_compute. reflexivity. Qed.

Example flatten_empty : Flatten ∅ = ∅.
Proof. vm_compute. reflexivity. Qed.

(** The scenario of the specification on [Examples.twoKeys]: one change
    ago the latest update, that of [k2], is undone; two changes ago both
    keys are at their first version. *)
Example twoKeys_one_change_ago :
  @Timeline.GetStateAtChangesAgo goInsertionSort Examples.twoKeys "d" 1
  = Ok (<["k1" := VString "d/k1@2"]> {["k2" := VString "d/k2@1"]}).
Proof. vm_compute. reflexivity. Qed.

Example twoKeys_two_changes_ago :
  @Timeline.GetStateAtChangesAgo goInsertionSort Examples.twoKeys "d" 2
  = Ok (<["k1" := VString "d/k1@1"]> {["k2" := VString "d/k2@1"]}).
Proof. vm_compute. reflexivity. Qed.

Example twoKeys_three_changes_ago :
  @Timeline.GetStateAtChangesAgo goInsertionSort Examples.twoKeys "d" 3
  = Err (Client.ErrOnlyNChanges 2 "d" 3).
Proof. vm_compute. reflexivity. Qed.

End PackageTests.

(** ** Version references *)

Section VersionReferences.
Import Compare Spec.

Lemma len_nonneg s : 0 ≤ len s.
Proof. unfold len. lia. Qed.

Lemma len_String a s : len (String a s) = 1 + len s.
Proof. unfold len. simpl. lia. Qed.

Lemma append_String a s t : String a s +:+ t = String a (s +:+ t).
Proof. reflexivity. Qed.

Lemma append_empty t : "" +:+ t = t.
Proof. reflexivity. Qed.

Lemma splitLast_app c s base suffix :
  splitLast c s = Some (base, suffix) → s = base +:+ String c suffix.
Proof.
  revert base suffix. induction s as [|a s IH]; intros base suffix; simpl; [done|].
  destruct (splitLast c s) as [[b suf]|].
  - intros [= <- <-]. rewrite append_String. f_equal. by apply IH.
  - destruct (Ascii.eqb a c) eqn:Hac; [|done].
    apply Ascii.eqb_eq in Hac as ->. by intros [= <- <-].
Qed.

Lemma HasPrefix_char a s c :
  HasPrefix (String a s) (String c "") = Ascii.eqb a c.
Proof.
  unfold HasPrefix. cbn [String.prefix].
  destruct (Ascii.ascii_dec c a) as [->|Hne].
  - rewrite Ascii.eqb_refl. by destruct s.
  - symmetry. apply Ascii.eqb_neq. congruence.
Qed.

(** [strings.LastIndex] finds the place where [splitLast] cuts. *)
Lemma lastIndexFrom_splitLast s i :
  0 ≤ i →
  lastIndexFrom i s "@" =
    match splitLast "@" s with
    | Some (base, _) => i + len base
    | None => -1
    end.
Proof.
  revert i. induction s as [|a s IH]; intros i Hi; [done|].
  cbn [lastIndexFrom splitLast]. rewrite IH by lia.
  destruct (splitLast "@" s) as [[b suf]|].
  - pose proof (len_nonneg b). rewrite len_String.
    destruct (0 <=? i + 1 + len b) eqn:E.
    + lia.
    + apply Z.leb_gt in E. lia.
  - rewrite HasPrefix_char. change (0 <=? -1) with false. cbv iota.
    destruct (Ascii.eqb a "@"); [|done].
    unfold len; simpl; lia.
Qed.

Lemma substring_app_l base rest :
  String.substring 0 (String.length base) (base +:+ rest) = base.
Proof.
  induction base as [|a base IH].
  - rewrite append_empty. by destruct rest.
  - rewrite append_String. simpl. by rewrite IH.
Qed.

Lemma substring_whole s : String.substring 0 (String.length s) s = s.
Proof. induction s as [|a s IH]; simpl; [done|by rewrite IH]. Qed.

Lemma substring_app_r base c rest :
  String.substring (S (String.length base)) (String.length rest)
    (base +:+ String c rest) = rest.
Proof.
  induction base as [|a base IH].
  - rewrite append_empty. simpl. apply substring_whole.
  - rewrite append_String. simpl. apply IH.
Qed.

Lemma length_append s1 s2 :
  String.length (s1 +:+ s2) = (String.length s1 + String.length s2)%nat.
Proof.
  induction s1 as [|a s1 IH]; [done|].
  rewrite append_String. simpl. by rewrite IH.
Qed.

Lemma slice_base base c suffix :
  slice (base +:+ String c suffix) 0 (len base) = base.
Proof.
  unfold slice, len. rewrite Z.sub_0_r, Nat2Z.id. apply substring_app_l.
Qed.

Lemma sliceFrom_suffix base c suffix :
  sliceFrom (base +:+ String c suffix) (len base + 1) = suffix.
Proof.
  unfold sliceFrom, slice, len. rewrite length_append. simpl.
  replace (Z.to_nat (Z.of_nat (String.length base) + 1))
    with (S (String.length base)) by lia.
  replace (Z.to_nat _) with (String.length suffix) by lia.
  apply substring_app_r.
Qed.

Lemma wrapInt_small z : minInt ≤ z ≤ maxInt → wrapInt z = z.
Proof.
  unfold minInt, maxInt, wrapInt. intros Hz.
  rewrite Z.mod_small; lia.
Qed.

(** The parser agrees with the specification's resolver on every path
    whose suffix fits [int]. *)
Lemma ParseVersionedPath_Resolve path :
  suffixFitsInt path → ParseVersionedPath path = Resolve path.
Proof.
  unfold suffixFitsInt, ParseVersionedPath, Resolve, LastIndex.
  rewrite lastIndexFrom_splitLast by done.
  destruct (splitLast "@" path) as [[base suffix]|] eqn:Hsplit; [|done].
  apply splitLast_app in Hsplit as ->.
  pose proof (len_nonneg base).
  rewrite Z.add_0_l.
  destruct (len base =? -1) eqn:E; [apply Z.eqb_eq in E; lia|]. simpl negb. cbv iota.
  rewrite sliceFrom_suffix, slice_base.
  destruct (_ || _); [done|].
  unfold Atoi. destruct (intLiteral suffix) as [n|]; [|done].
  intros Hn. unfold minInt, maxInt in *.
  destruct (_ && _) eqn:Hrange.
  - destruct (n <? 0) eqn:Hneg.
    + apply Z.ltb_lt in Hneg.
      destruct (0 <? n) eqn:Hpos; [apply Z.ltb_lt in Hpos; lia|].
      unfold selChangesAgo. simpl. rewrite wrapInt_small; [done|].
      unfold minInt, maxInt. lia.
    + destruct (0 <? n); done.
  - apply andb_false_iff in Hrange as [Hr|Hr]; apply Z.leb_gt in Hr; lia.
Qed.

(** A suffix that reads as an integer outside [int] selects nothing. *)
Lemma ParseVersionedPath_out_of_range path base suffix n :
  splitLast "@" path = Some (base, suffix) →
  intLiteral suffix = Some n →
  n < minInt ∨ maxInt < n →
  ParseVersionedPath path = (path, selNone).
Proof.
  intros Hsplit Hlit Hn. unfold ParseVersionedPath, LastIndex.
  rewrite lastIndexFrom_splitLast, Hsplit by done.
  apply splitLast_app in Hsplit as ->.
  pose proof (len_nonneg base).
  rewrite Z.add_0_l.
  destruct (len base =? -1) eqn:E; [apply Z.eqb_eq in E; lia|]. simpl negb. cbv iota.
  rewrite sliceFrom_suffix.
  destruct (String.eqb suffix "prev") eqn:E1.
  { apply String.eqb_eq in E1 as ->. done. }
  destruct (String.eqb suffix "previous") eqn:E2.
  { apply String.eqb_eq in E2 as ->. done. }
  simpl. unfold Atoi. rewrite Hlit.
  destruct (_ && _) eqn:Hrange; [|done].
  apply andb_true_iff in Hrange as [H1 H2].
  apply Z.leb_le in H1, H2. lia.
Qed.

(** [Itoa] writes what [intLiteral] reads. *)
Lemma digitsVal_acc d acc :
  digitsVal (Z.pos acc) (NilEmpty.string_of_uint d)
  = Some (Z.pos (Pos.of_uint_acc d acc)).
Proof.
  revert acc. induction d as [|d IH|d IH|d IH|d IH|d IH|d IH|d IH|d IH|d IH|d IH];
    intros acc; [done|..];
    cbn [NilEmpty.string_of_uint digitsVal Pos.of_uint_acc];
    match goal with
    | |- context [digitVal ?c] =>
        let v := eval vm_compute in (digitVal c) in
        change (digitVal c) with v
    end; cbv iota; rewrite <- IH; f_equal; lia.
Qed.

Lemma digitsVal_zero d :
  digitsVal 0 (NilEmpty.string_of_uint d) = Some (Z.of_N (Pos.of_uint d)).
Proof.
  induction d as [|d IH|d IH|d IH|d IH|d IH|d IH|d IH|d IH|d IH|d IH];
    [done|..];
    cbn [NilEmpty.string_of_uint digitsVal Pos.of_uint];
    match goal with
    | |- context [digitVal ?c] =>
        let v := eval vm_compute in (digitVal c) in
        change (digitVal c) with v
    end; cbv iota; [exact IH|..]; apply digitsVal_acc.
Qed.

Lemma string_of_uint_digit d :
  d ≠ Decimal.Nil →
  ∃ c rest, NilEmpty.string_of_uint d = String c rest ∧
    Ascii.eqb c "-" = false ∧ Ascii.eqb c "+" = false.
Proof. destruct d; [done|..]; intros _; by eexists _, _. Qed.

Lemma intLiteral_Itoa n : intLiteral (Itoa n) = Some n.
Proof.
  unfold Itoa. destruct n as [|p|p]; [done|..];
    cbn [Z.to_int NilEmpty.string_of_int];
    pose proof (DecimalPos.Unsigned.to_uint_nonnil p) as Hnil;
    pose proof (DecimalPos.Unsigned.of_to p) as Hp;
    destruct (string_of_uint_digit _ Hnil) as (c & rest & Hs & Hm & Hpl);
    pose proof (digitsVal_zero (Pos.to_uint p)) as Hd;
    rewrite Hp in Hd.
  - unfold intLiteral. rewrite Hs in *. by rewrite Hm, Hpl.
  - unfold intLiteral. change (Ascii.eqb "-" "-") with true. cbv iota.
    rewrite Hs in *. by rewrite Hd.
Qed.

Lemma splitLast_uint d : splitLast "@" (NilEmpty.string_of_uint d) = None.
Proof.
  induction d; [done|..];
    cbn [NilEmpty.string_of_uint splitLast]; by rewrite IHd.
Qed.

Lemma splitLast_Itoa n : splitLast "@" (Itoa n) = None.
Proof.
  unfold Itoa. destruct n as [|p|p]; [done|..];
    cbn [Z.to_int NilEmpty.string_of_int splitLast];
    by rewrite splitLast_uint.
Qed.

Lemma splitLast_at base suffix :
  splitLast "@" suffix = None →
  splitLast "@" (base +:+ "@" +:+ suffix) = Some (base, suffix).
Proof.
  intros Hsuf. induction base as [|a base IH].
  - rewrite append_empty, append_String, append_empty.
    cbn [splitLast]. by rewrite Hsuf.
  - rewrite append_String. cbn [splitLast]. by rewrite IH.
Qed.

(** The resolver of the specification on a path written as
    [base@suffix]. *)
Lemma ParseVersionedPath_Itoa base n :
  - maxInt ≤ n ≤ maxInt →
  ParseVersionedPath (base +:+ "@" +:+ Itoa n) =
    if 0 <? n then (base, selExact n)
    else if n <? 0 then (base, selChangesAgo (- n))
    else (base +:+ "@" +:+ Itoa n, selNone).
Proof.
  intros Hn. rewrite ParseVersionedPath_Resolve.
  - unfold Resolve. rewrite splitLast_at by apply splitLast_Itoa.
    rewrite intLiteral_Itoa.
    destruct (String.eqb (Itoa n) "prev") eqn:E1.
    { apply String.eqb_eq in E1. pose proof (intLiteral_Itoa n) as H.
      rewrite E1 in H. done. }
    destruct (String.eqb (Itoa n) "previous") eqn:E2.
    { apply String.eqb_eq in E2. pose proof (intLiteral_Itoa n) as H.
      rewrite E2 in H. done. }
    done.
  - unfold suffixFitsInt. rewrite splitLast_at by apply splitLast_Itoa.
    by rewrite intLiteral_Itoa.
Qed.

End VersionReferences.

(** ** Diffs of flat maps *)

Section Diffs.
Import Compare.
Context {sorter : SliceSorter}.

Lemma omap_cons {A B} (f : A → option B) x l :
  omap f (x :: l) =
    match f x with Some y => y :: omap f l | None => omap f l end.
Proof. reflexivity. Qed.

Lemma compareFirst_fold B l r :
  fold_left (compareFirst B) l r =
    mkDiffResult (OnlyInFirst r ++ omap (firstOnly B) l) (OnlyInSecond r)
      (Changed r ++ omap (changedIn B) l)
      (Unchanged r + Z.of_nat (length (filter (λ kv, sameIn B kv = true) l))).
Proof.
  revert r. induction l as [|[k v] l IH]; intros r.
  - simpl. rewrite !app_nil_r, Z.add_0_r. by destruct r.
  - cbn [fold_left]. rewrite IH. clear IH.
    unfold compareFirst, firstOnly, changedIn, sameIn.
    rewrite filter_cons. cbn [omap list_omap fst snd].
    destruct (B !! k) as [v2|]; cbn [OnlyInFirst OnlyInSecond Changed Unchanged].
    + destruct (String.eqb (hashValue v) (hashValue v2)); cbn.
      * rewrite decide_True by done. cbn [length].
        f_equal. lia.
      * rewrite decide_False by done. by rewrite <- app_assoc.
    + rewrite decide_False by done. by rewrite <- app_assoc.
Qed.

Lemma compareSecond_fold A l r :
  fold_left (compareSecond A) l r =
    mkDiffResult (OnlyInFirst r) (OnlyInSecond r ++ omap (secondOnly A) l)
      (Changed r) (Unchanged r).
Proof.
  revert r. induction l as [|[k v] l IH]; intros r.
  - simpl. rewrite app_nil_r. by destruct r.
  - cbn [fold_left]. rewrite IH. clear IH.
    unfold compareSecond, secondOnly. cbn [omap list_omap fst snd].
    destruct (A !! k); cbn [OnlyInFirst OnlyInSecond Changed Unchanged]; [done|].
    by rewrite <- app_assoc.
Qed.

(** The four outputs of [CompareSecrets], up to the order of the lists. *)
Lemma CompareSecrets_spec A B :
  OnlyInFirst (CompareSecrets A B) ≡ₚ omap (firstOnly B) (map_to_list A) ∧
  OnlyInSecond (CompareSecrets A B) ≡ₚ omap (secondOnly A) (map_to_list B) ∧
  Changed (CompareSecrets A B) ≡ₚ omap (changedIn B) (map_to_list A) ∧
  Unchanged (CompareSecrets A B) =
    Z.of_nat (length (filter (λ kv, sameIn B kv = true) (map_to_list A))).
Proof.
  unfold CompareSecrets. rewrite compareFirst_fold, compareSecond_fold.
  cbn [OnlyInFirst OnlyInSecond Changed Unchanged].
  rewrite !sortSlice_perm. done.
Qed.

(** Each entry of the first map falls in exactly one class. *)
Lemma classes_length B l :
  (length (omap (firstOnly B) l) + length (omap (changedIn B) l)
   + length (filter (λ kv, sameIn B kv = true) l))%nat = length l.
Proof.
  induction l as [|[k v] l IH]; [done|].
  rewrite filter_cons, !omap_cons.
  destruct (decide (sameIn B (k, v) = true)) as [Hs|Hs];
    unfold sameIn, firstOnly, changedIn in *; cbn [fst snd] in *;
    destruct (B !! k) as [v2|];
    try destruct (String.eqb (hashValue v) (hashValue v2));
    try done; cbn [length]; lia.
Qed.

Lemma secondOnly_keys A B :
  Key <$> omap (secondOnly A) (map_to_list B)
  = filter (λ k, A !! k = None) (map_to_list B).*1.
Proof.
  induction (map_to_list B) as [|[k v] l IH]; [done|].
  cbn [omap list_omap fmap list_fmap fst]. rewrite filter_cons.
  unfold secondOnly at 1. cbn [fst snd].
  destruct (A !! k) eqn:E.
  - rewrite decide_False by done. apply IH.
  - rewrite decide_True by done. cbn [fmap list_fmap Key]. f_equal. apply IH.
Qed.

Lemma length_NoDup_set (l : list string) (X : gset string) :
  NoDup l → (∀ x, x ∈ l ↔ x ∈ X) → length l = size X.
Proof.
  intros Hl HX. unfold size, set_size. simpl.
  apply Permutation_length, NoDup_Permutation; [done|apply NoDup_elements|].
  intros x. rewrite HX. by rewrite elem_of_elements.
Qed.

Lemma elem_of_map_to_list_fst (m : gmap string Any) k :
  k ∈ (map_to_list m).*1 ↔ k ∈ dom m.
Proof.
  rewrite list_elem_of_fmap, elem_of_dom. split.
  - intros [[k' v] [-> Hkv]]. apply elem_of_map_to_list in Hkv. by exists v.
  - intros [v Hv]. exists (k, v). by rewrite elem_of_map_to_list.
Qed.

Lemma firstOnly_keys_sublist B l :
  Key <$> omap (firstOnly B) l `sublist_of` l.*1.
Proof.
  induction l as [|[k v] l IH]; [done|].
  rewrite omap_cons. unfold firstOnly at 1. cbn [fst snd].
  destruct (B !! k); cbn [fmap list_fmap fst Key].
  - by apply sublist_cons.
  - by apply sublist_skip.
Qed.

Lemma changedIn_keys_sublist B l :
  ChangedKey <$> omap (changedIn B) l `sublist_of` l.*1.
Proof.
  induction l as [|[k v] l IH]; [done|].
  rewrite omap_cons. unfold changedIn at 1. cbn [fst snd].
  destruct (B !! k) as [v2|]; [destruct (String.eqb _ _)|];
    cbn [fmap list_fmap fst ChangedKey];
    (by apply sublist_cons) || (by apply sublist_skip).
Qed.

Lemma firstOnly_key B kv e : firstOnly B kv = Some e → Key e = kv.1 ∧ B !! kv.1 = None.
Proof.
  unfold firstOnly. destruct (B !! kv.1); [done|]. by intros [= <-].
Qed.

Lemma changedIn_key B kv e :
  changedIn B kv = Some e → ChangedKey e = kv.1 ∧ is_Some (B !! kv.1).
Proof.
  unfold changedIn. destruct (B !! kv.1) as [v2|]; [|done].
  destruct (String.eqb _ _); [done|]. by intros [= <-].
Qed.

Lemma classified_keys A B :
  let r := CompareSecrets A B in
  (∀ k, k ∈ Key <$> OnlyInFirst r → k ∈ dom A ∧ k ∉ dom B) ∧
  (∀ k, k ∈ ChangedKey <$> Changed r → k ∈ dom A ∧ k ∈ dom B) ∧
  (∀ k, k ∈ Key <$> OnlyInSecond r ↔ k ∈ dom B ∧ k ∉ dom A).
Proof.
  destruct (CompareSecrets_spec A B) as (H1 & H2 & H3 & _). cbv zeta.
  setoid_rewrite H1. setoid_rewrite H2. setoid_rewrite H3. split_and!.
  - intros k (e & -> & He)%list_elem_of_fmap.
    apply list_elem_of_omap in He as ([k' v] & Hkv & Hf).
    apply firstOnly_key in Hf as [-> Hf]. cbn [fst] in *.
    rewrite not_elem_of_dom. split; [|done].
    apply elem_of_map_to_list in Hkv. by apply elem_of_dom_2 in Hkv.
  - intros k (e & -> & He)%list_elem_of_fmap.
    apply list_elem_of_omap in He as ([k' v] & Hkv & Hf).
    apply changedIn_key in Hf as [-> Hf]. cbn [fst] in *.
    rewrite !elem_of_dom. split; [|done].
    apply elem_of_map_to_list in Hkv. by exists v.
  - intros k. rewrite secondOnly_keys, list_elem_of_filter,
      elem_of_map_to_list_fst, not_elem_of_dom. tauto.
Qed.

Lemma classified_NoDup A B :
  let r := CompareSecrets A B in
  NoDup (Key <$> OnlyInFirst r) ∧ NoDup (ChangedKey <$> Changed r) ∧
  NoDup (Key <$> OnlyInSecond r).
Proof.
  destruct (CompareSecrets_spec A B) as (H1 & H2 & H3 & _). cbv zeta.
  rewrite H1, H2, H3. split_and!.
  - eapply sublist_NoDup; [|apply firstOnly_keys_sublist].
    apply NoDup_fst_map_to_list.
  - eapply sublist_NoDup; [|apply changedIn_keys_sublist].
    apply NoDup_fst_map_to_list.
  - rewrite secondOnly_keys. apply NoDup_filter, NoDup_fst_map_to_list.
Qed.

(** C9: [CompareSecrets] puts each key in exactly one class: the keys
    only in the first map, the changed keys and the unchanged count add
    up to the size of the first map; the keys only in the second map are
    exactly the keys of the second map absent from the first; no key is
    listed twice; and the four classes together count the keys of the
    union of the two maps. *)
Theorem CompareSecrets_classifies_each_key_once (A B : gmap string Any) :
  let r := CompareSecrets A B in
  Z.of_nat (length (OnlyInFirst r)) + Z.of_nat (length (Changed r))
    + Unchanged r = Z.of_nat (size A) ∧
  (∀ k, k ∈ Key <$> OnlyInSecond r ↔ k ∈ dom B ∧ k ∉ dom A) ∧
  NoDup ((Key <$> OnlyInFirst r) ++ (ChangedKey <$> Changed r)
         ++ (Key <$> OnlyInSecond r)) ∧
  Z.of_nat (length (OnlyInFirst r)) + Z.of_nat (length (OnlyInSecond r))
    + Z.of_nat (length (Changed r)) + Unchanged r
  = Z.of_nat (size (dom A ∪ dom B)).
Proof.
  destruct (classified_keys A B) as (K1 & K2 & K3).
  destruct (classified_NoDup A B) as (N1 & N2 & N3).
  destruct (CompareSecrets_spec A B) as (H1 & H2 & H3 & H4).
  cbv zeta in *.
  assert (Hsum : Z.of_nat (length (OnlyInFirst (CompareSecrets A B)))
    + Z.of_nat (length (Changed (CompareSecrets A B)))
    + Unchanged (CompareSecrets A B) = Z.of_nat (size A)).
  { rewrite H4, (Permutation_length H1), (Permutation_length H3).
    rewrite <- (length_map_to_list A).
    rewrite <- (classes_length B (map_to_list A)). lia. }
  split_and!; [done|done| |].
  - apply NoDup_app. split_and!; [done| |].
    + intros k Hk [Hc|Hs]%elem_of_app.
      * apply K1 in Hk. apply K2 in Hc. tauto.
      * apply K1 in Hk. apply K3 in Hs. tauto.
    + apply NoDup_app. split_and!; [done| |done].
      intros k Hk Hs. apply K2 in Hk. apply K3 in Hs. tauto.
  - rewrite size_union_alt, size_dom.
    assert (length (OnlyInSecond (CompareSecrets A B)) = size (dom B ∖ dom A))
      as ->.
    { rewrite <- (length_fmap Key). apply length_NoDup_set; [done|].
      intros k. rewrite K3, elem_of_difference. tauto. }
    lia.
Qed.

(** C10: equality is judged on the SHA-256 hash of the [%v] rendering:
    a key present in both maps whose two values render to the same
    string is in none of the three lists, and the count of unchanged
    keys is one more than it would be without that key.  The integer 1
    and the string "1" are such values. *)
Theorem CompareSecrets_same_rendering_unchanged
    (A B : gmap string Any) (k : string) (v1 v2 : Any) :
  A !! k = Some v1 → B !! k = Some v2 → Sprintv v1 = Sprintv v2 →
  let r := CompareSecrets A B in
  (k ∉ ChangedKey <$> Changed r) ∧
  (k ∉ Key <$> OnlyInFirst r) ∧
  (k ∉ Key <$> OnlyInSecond r) ∧
  Unchanged r = Unchanged (CompareSecrets (delete k A) B) + 1 ∧
  Sprintv (VInt 1) = Sprintv (VString "1").
Proof.
  intros HA HB Hv.
  destruct (classified_keys A B) as (K1 & K2 & K3).
  destruct (CompareSecrets_spec A B) as (H1 & H2 & H3 & H4).
  destruct (CompareSecrets_spec (delete k A) B) as (_ & _ & _ & H4').
  cbv zeta in *.
  assert (Hhash : hashValue v1 = hashValue v2).
  { unfold hashValue. by rewrite Hv. }
  split_and!.
  - rewrite H3. intros (e & Hk & He)%list_elem_of_fmap.
    apply list_elem_of_omap in He as ([k' v] & Hkv & Hf).
    apply elem_of_map_to_list in Hkv.
    pose proof Hf as Hf'. apply changedIn_key in Hf' as [Hk' _].
    cbn [fst] in *. rewrite Hk' in Hk. subst k'.
    rewrite HA in Hkv. injection Hkv as <-.
    unfold changedIn in Hf. cbn [fst snd] in Hf. rewrite HB, Hhash in Hf.
    by rewrite String.eqb_refl in Hf.
  - intros Hk%K1. destruct Hk as [_ Hk]. apply Hk. by apply elem_of_dom_2 in HB.
  - intros Hk%K3. destruct Hk as [_ Hk]. apply Hk. by apply elem_of_dom_2 in HA.
  - rewrite H4, H4'.
    rewrite <- (map_to_list_delete A k v1 HA).
    rewrite filter_cons, decide_True; [cbn [length]; lia|].
    unfold sameIn. cbn [fst snd]. rewrite HB, Hhash. apply String.eqb_refl.
  - reflexivity.
Qed.

End Diffs.

(** ** Timelines and past states *)

Section Timelines.
Import Compare Client Timeline Spec.
Context {sorter : SliceSorter}.

Lemma collect_history_fold relPath history acc :
  fold_left (λ allChanges v,
      if 1 <? Version v
      then allChanges ++ [mkChangeEvent relPath (Version v) (CreatedTime v)]
      else allChanges) history acc
  = acc ++ ((λ v, mkChangeEvent relPath (Version v) (CreatedTime v))
              <$> filter (λ v, 1 < Version v) history).
Proof.
  revert acc. induction history as [|v history IH]; intros acc.
  - simpl. by rewrite app_nil_r.
  - cbn [fold_left]. rewrite IH, filter_cons.
    destruct (1 <? Version v) eqn:E.
    + apply Z.ltb_lt in E. rewrite decide_True by done.
      by rewrite <- app_assoc.
    + apply Z.ltb_ge in E. rewrite decide_False by lia. done.
Qed.

Lemma collectChanges_step c dir acc cur relPath :
  (let fullPath := dir +:+ "/" +:+ relPath in
   match GetVersionHistory c fullPath with
   | Err _ => (acc, cur)
   | Ok [] => (acc, cur)
   | Ok ((h0 :: _) as history) =>
       (fold_left (λ allChanges v,
          if 1 <? Version v
          then allChanges ++ [mkChangeEvent relPath (Version v) (CreatedTime v)]
          else allChanges) history acc,
        <[relPath := Version h0]> cur)
   end)
  = (acc ++ ((λ v, mkChangeEvent relPath (Version v) (CreatedTime v))
               <$> filter (λ v, 1 < Version v) (historyOf c dir relPath)),
     recordCurrent c dir cur relPath).
Proof.
  unfold recordCurrent, historyOf. cbv zeta.
  destruct (GetVersionHistory c (dir +:+ "/" +:+ relPath)) as [[|h0 history]|e].
  - by rewrite app_nil_r.
  - by rewrite collect_history_fold.
  - by rewrite app_nil_r.
Qed.

Lemma collectChanges_fold c dir paths acc cur :
  fold_left (λ '(allChanges, secretCurrentVersions) relPath,
    let fullPath := dir +:+ "/" +:+ relPath in
    match GetVersionHistory c fullPath with
    | Err _ => (allChanges, secretCurrentVersions)
    | Ok [] => (allChanges, secretCurrentVersions)
    | Ok ((h0 :: _) as history) =>
        (fold_left (λ allChanges v,
           if 1 <? Version v
           then allChanges ++ [mkChangeEvent relPath (Version v) (CreatedTime v)]
           else allChanges) history allChanges,
         <[relPath := Version h0]> secretCurrentVersions)
    end) paths (acc, cur)
  = (acc ++ (paths ≫= λ key,
       (λ v, mkChangeEvent key (Version v) (CreatedTime v))
         <$> filter (λ v, 1 < Version v) (historyOf c dir key)),
     foldl (recordCurrent c dir) cur paths).
Proof.
  revert acc cur. induction paths as [|p paths IH]; intros acc cur.
  - simpl. by rewrite app_nil_r.
  - cbn [fold_left foldl]. rewrite bind_cons, app_assoc, <- IH.
    f_equal. apply collectChanges_step.
Qed.

Lemma lookup_recordCurrent c dir paths cur k :
  foldl (recordCurrent c dir) cur paths !! k =
    match (if decide (k ∈ paths) then head (historyOf c dir k) else None) with
    | Some v => Some (Version v)
    | None => cur !! k
    end.
Proof.
  revert cur. induction paths as [|p paths IH]; intros cur; [done|].
  cbn [foldl]. rewrite IH. clear IH.
  destruct (decide (k ∈ paths)) as [Hin|Hin].
  - rewrite decide_True by (by right).
    destruct (head (historyOf c dir k)) as [v|] eqn:E; [done|].
    unfold recordCurrent. destruct (head (historyOf c dir p)) as [v|] eqn:E'; [|done].
    destruct (decide (p = k)) as [->|Hne]; [congruence|].
    by rewrite lookup_insert_ne.
  - destruct (decide (p = k)) as [->|Hne].
    + rewrite decide_True by (by left). unfold recordCurrent.
      destruct (head (historyOf c dir k)) as [v|]; [|done].
      by rewrite lookup_insert_eq.
    + rewrite decide_False by (intros [?|?]%elem_of_cons; done).
      unfold recordCurrent. destruct (head (historyOf c dir p)); [|done].
      by rewrite lookup_insert_ne.
Qed.

Lemma lookup_currentVersions c dir k :
  currentVersions c dir !! k =
    (if decide (k ∈ keysOf c dir) then Version <$> head (historyOf c dir k)
     else None).
Proof.
  unfold currentVersions. induction (keysOf c dir) as [|p paths IH]; [done|].
  rewrite omap_cons.
  destruct (head (historyOf c dir p)) as [v|] eqn:E; cbn [fmap option_fmap option_map].
  - cbn [list_to_map foldr fst snd uncurry]. 
    destruct (decide (p = k)) as [->|Hne].
    + rewrite lookup_insert_eq, decide_True by (by left). by rewrite E.
    + rewrite lookup_insert_ne by done. rewrite IH.
      destruct (decide (k ∈ paths)).
      * by rewrite decide_True by (by right).
      * by rewrite decide_False by (intros [?|?]%elem_of_cons; done).
  - rewrite IH. destruct (decide (k ∈ paths)).
    + by rewrite decide_True by (by right).
    + destruct (decide (p = k)) as [->|Hne].
      * rewrite decide_True by (by left). by rewrite E.
      * by rewrite decide_False by (intros [?|?]%elem_of_cons; done).
Qed.

Lemma recordCurrent_currentVersions c dir :
  foldl (recordCurrent c dir) ∅ (keysOf c dir) = currentVersions c dir.
Proof.
  apply map_eq. intros k.
  rewrite lookup_recordCurrent, lookup_currentVersions, lookup_empty.
  destruct (decide (k ∈ keysOf c dir)); [|done].
  by destruct (head (historyOf c dir k)).
Qed.

(** Copying a map entry by entry gives the map back. *)
Lemma map_copy (m : gmap string Z) :
  map_fold (λ path ver m', <[path := ver]> m') ∅ m = m.
Proof.
  apply (map_fold_weak_ind (λ r m, r = m)); [done|].
  intros i x m' r _ ->. done.
Qed.

(** The index loop undoes the first [changesAgo - i] of the events left. *)
Lemma undoChanges_foldl changesAgo i rest pointer :
  undoChanges changesAgo i rest pointer =
    foldl undo pointer (take (Z.to_nat (changesAgo - i)) rest).
Proof.
  revert i pointer. induction rest as [|ev rest IH]; intros i pointer.
  - by rewrite take_nil.
  - cbn [undoChanges]. destruct (i <? changesAgo) eqn:E.
    + apply Z.ltb_lt in E. rewrite IH.
      replace (Z.to_nat (changesAgo - i))
        with (S (Z.to_nat (changesAgo - (i + 1)))) by lia.
      cbn [take foldl]. f_equal. unfold undo.
      destruct (pointer !! secretPath ev) as [p|]; [|done].
      destruct (p =? version ev) eqn:Ep.
      * apply Z.eqb_eq in Ep. rewrite decide_True by done. by subst.
      * apply Z.eqb_neq in Ep. by rewrite decide_False.
    + apply Z.ltb_ge in E.
      replace (Z.to_nat (changesAgo - i)) with 0%nat by lia. done.
Qed.

Lemma readAtVersions_stateAt c dir pointer :
  readAtVersions c dir pointer = stateAt c dir pointer.
Proof.
  unfold readAtVersions, stateAt. rewrite !map_fold_foldr.
  induction (map_to_list pointer) as [|[k p] l IH]; [done|].
  cbn [foldr uncurry fst snd]. rewrite IH.
  destruct (p <? 1) eqn:E.
  - apply Z.ltb_lt in E. by rewrite decide_False by lia.
  - apply Z.ltb_ge in E. rewrite decide_True by done.
    by destruct (ReadSecretVersion c (dir +:+ "/" +:+ k) p) as [[?|]|?].
Qed.

(** [GetStateAtChangesAgo] in the terms of the specification. *)
Lemma GetStateAtChangesAgo_unfold c dir N :
  GetStateAtChangesAgo c dir N =
    match ListSecretPaths c dir with
    | Err e => Err (ErrListSecrets dir e)
    | Ok [] => Err (ErrNoSecretsFound dir)
    | Ok _ =>
        if decide (totalChanges c dir = 0) then Err (ErrNoChanges dir)
        else if decide (totalChanges c dir < N) then
          Err (ErrOnlyNChanges (totalChanges c dir) dir N)
        else if decide (stateAt c dir (pointersAt c dir N) = ∅) then
          Err (ErrNoSecretsAtChangesAgo N)
        else Ok (stateAt c dir (pointersAt c dir N))
    end.
Proof.
  unfold GetStateAtChangesAgo, collectChanges.
  unfold totalChanges, pointersAt, eventStream.
  pose proof (recordCurrent_currentVersions c dir) as Hcur.
  unfold changesOf in *. unfold keysOf in *.
  destruct (ListSecretPaths c dir) as [paths|e]; [|done].
  destruct paths as [|p paths]; [done|].
  change (Z.of_nat (length (p :: paths)) =? 0) with false. cbv iota.
  rewrite collectChanges_fold, app_nil_l. rewrite Hcur.
  set (changes := (p :: paths) ≫= _).
  destruct (Z.of_nat (length changes) =? 0) eqn:E0.
  { apply Z.eqb_eq in E0. by rewrite decide_True. }
  apply Z.eqb_neq in E0. rewrite decide_False by done.
  rewrite (Permutation_length (sortSlice_perm _ changes)).
  destruct (Z.of_nat (length changes) <? N) eqn:EN.
  { apply Z.ltb_lt in EN. by rewrite decide_True. }
  apply Z.ltb_ge in EN. rewrite decide_False by lia.
  rewrite map_copy, undoChanges_foldl, Z.sub_0_r, readAtVersions_stateAt.
  set (state := stateAt _ _ _).
  destruct (Z.of_nat (size state) =? 0) eqn:Es.
  - apply Z.eqb_eq in Es. rewrite decide_True; [done|].
    apply map_size_empty_iff. lia.
  - apply Z.eqb_neq in Es. rewrite decide_False; [done|].
    intros ->. by rewrite map_size_empty in Es.
Qed.

Lemma timeline_history_fold (secretPath fullPath : string) versions acc :
  fold_left (λ timeline v,
      timeline ++
        [mkTimelineEntry (CreatedTime v) secretPath fullPath
           (Version v) (Version v =? 1)]) versions acc
  = acc ++ ((λ v, mkTimelineEntry (CreatedTime v) secretPath fullPath
                    (Version v) (Version v =? 1)) <$> versions).
Proof.
  revert acc. induction versions as [|v versions IH]; intros acc.
  - simpl. by rewrite app_nil_r.
  - cbn [fold_left]. rewrite IH, fmap_cons. by rewrite <- app_assoc.
Qed.

(** The entries [GetTimeline] makes for one key. *)
Lemma timeline_fold c dir paths acc :
  fold_left (λ timeline secretPath,
      let fullPath := dir +:+ "/" +:+ secretPath in
      match GetVersionHistory c fullPath with
      | Err _ => timeline
      | Ok versions =>
          fold_left (λ timeline v,
            timeline ++
              [mkTimelineEntry (CreatedTime v) secretPath fullPath
                 (Version v) (Version v =? 1)])
            versions timeline
      end) paths acc
  = acc ++ (paths ≫= λ key,
      (λ v, mkTimelineEntry (CreatedTime v) key (dir +:+ "/" +:+ key)
              (Version v) (Version v =? 1)) <$> historyOf c dir key).
Proof.
  revert acc. induction paths as [|p paths IH]; intros acc.
  - simpl. by rewrite app_nil_r.
  - cbn [fold_left]. rewrite bind_cons, app_assoc, IH. do 2 f_equal.
    unfold historyOf.
    destruct (GetVersionHistory c (dir +:+ "/" +:+ p)) as [versions|e].
    + by rewrite timeline_history_fold.
    + by rewrite app_nil_r.
Qed.

Lemma length_bind_const {A B} (f : A → list B) (l : list A) n :
  (∀ x, x ∈ l → length (f x) = n) → length (l ≫= f) = (length l * n)%nat.
Proof.
  induction l as [|x l IH]; intros H; [done|].
  rewrite bind_cons, length_app, IH, H.
  - simpl. lia.
  - by left.
  - intros y Hy. apply H. by right.
Qed.

Lemma byTime_StrictWeak :
  StrictWeak (λ a b : changeEvent, createdTime b <? createdTime a).
Proof.
  split.
  - intros a b H%Z.ltb_lt. apply Z.ltb_ge. lia.
  - intros a b c H1%Z.ltb_ge H2%Z.ltb_ge. apply Z.ltb_ge. lia.
Qed.

(** The event stream holds the recorded changes, latest first. *)
Lemma eventStream_descending c dir :
  eventStream c dir ≡ₚ changesOf c dir ∧
  StronglySorted (λ a b, createdTime b ≤ createdTime a) (eventStream c dir).
Proof.
  split; [apply sortSlice_perm|].
  pose proof (sortSlice_sorted (λ a b : changeEvent, createdTime b <? createdTime a)
                (changesOf c dir) byTime_StrictWeak) as H.
  unfold eventStream. induction H as [|a l Hl IH Ha]; constructor; [done|].
  eapply Forall_impl; [exact Ha|]. intros b Hb%Z.ltb_ge. done.
Qed.

(** [GetTimeline] in the terms of the specification. *)
Lemma GetTimeline_unfold c dir :
  GetTimeline c dir =
    match ListSecretPaths c dir with
    | Err e => Err (ErrListSecrets dir e)
    | Ok [] => Err (ErrNoSecretsFound dir)
    | Ok keys =>
        match keys ≫= λ key,
                (λ v, mkTimelineEntry (CreatedTime v) key (dir +:+ "/" +:+ key)
                        (Version v) (Version v =? 1)) <$> historyOf c dir key
        with
        | [] => Err (ErrNoVersionHistory dir)
        | timeline => Ok (sortSlice (λ a b, Time b <? Time a) timeline)
        end
    end.
Proof.
  unfold GetTimeline.
  destruct (ListSecretPaths c dir) as [[|p paths]|e]; [done| |done].
  change (Z.of_nat (length (p :: paths)) =? 0) with false. cbv iota.
  rewrite timeline_fold, app_nil_l.
  by destruct (_ ≫= _).
Qed.

(** C2, as amended: [GetTimeline] fails with NotFound when the
    directory has no keys, and with NoHistory when it has keys but none
    of them has a retained version.  When every key has exactly one
    retained version it does not fail: it returns one entry for each
    key. *)
Theorem GetTimeline_failures (c : Client) (dir : string) :
  (ListSecretPaths c dir = Ok [] →
   ∃ e, GetTimeline c dir = Err e ∧ kindOf e = NotFound) ∧
  (keysOf c dir ≠ [] →
   (∀ key, key ∈ keysOf c dir → historyOf c dir key = []) →
   ∃ e, GetTimeline c dir = Err e ∧ kindOf e = NoHistory) ∧
  (everyKeyHasOneVersion c dir →
   ∃ timeline, GetTimeline c dir = Ok timeline ∧
     length timeline = length (keysOf c dir)).
Proof.
  rewrite GetTimeline_unfold. unfold everyKeyHasOneVersion, keysOf. split_and!.
  - intros ->. by exists (ErrNoSecretsFound dir).
  - destruct (ListSecretPaths c dir) as [[|p paths]|e]; [done| |done].
    intros _ Hnone. exists (ErrNoVersionHistory dir). split; [|done].
    assert (((p :: paths) ≫= λ key,
      (λ v, mkTimelineEntry (CreatedTime v) key (dir +:+ "/" +:+ key)
              (Version v) (Version v =? 1)) <$> historyOf c dir key) = []) as ->;
      [|done].
    apply length_zero_iff_nil.
    rewrite (length_bind_const _ _ 0); [lia|].
    intros key Hkey. by rewrite (Hnone key Hkey).
  - destruct (ListSecretPaths c dir) as [[|p paths]|e]; [by intros []| |by intros []].
    intros [_ Hone].
    set (timeline := _ ≫= _).
    assert (Hlen : length timeline = length (p :: paths)).
    { unfold timeline. rewrite (length_bind_const _ _ 1); [lia|].
      intros key Hkey. rewrite length_fmap. by apply Hone. }
    destruct timeline as [|entry timeline]; [done|].
    eexists. split; [done|].
    by rewrite (Permutation_length (sortSlice_perm _ _)).
Qed.

(** C3, as amended: in a directory with at least one recorded change,
    [GetStateAtChangesAgo] fails with InvalidDepth exactly when N exceeds
    the number of recorded changes; N equal to that number is accepted
    and one more is rejected. *)
Theorem GetStateAtChangesAgo_invalid_depth (c : Client) (dir : string) :
  1 ≤ totalChanges c dir →
  (∀ N, invalidDepthExactly c dir N) ∧
  ¬ failsInvalidDepth c dir (totalChanges c dir) ∧
  failsInvalidDepth c dir (totalChanges c dir + 1).
Proof.
  intros Htotal.
  assert (Hall : ∀ N, invalidDepthExactly c dir N).
  { intros N. unfold invalidDepthExactly, failsInvalidDepth.
    rewrite GetStateAtChangesAgo_unfold.
    assert (Hkeys : keysOf c dir ≠ []).
    { intros Hnil. unfold totalChanges, changesOf in Htotal.
      rewrite Hnil in Htotal. simpl in Htotal. lia. }
    unfold keysOf in Hkeys.
    destruct (ListSecretPaths c dir) as [[|p paths]|e]; [done| |done].
    rewrite decide_False by lia.
    destruct (decide (totalChanges c dir < N)) as [Hlt|Hge].
    - split; [done|]. intros _. by eexists.
    - split; [|done]. intros (e & He & Hkind).
      destruct (decide (stateAt c dir (pointersAt c dir N) = ∅));
        by simplify_eq. }
  split_and!; [done| |].
  - intros H%Hall. lia.
  - apply Hall. lia.
Qed.

(** C4, as amended: in a directory with at least one recorded change,
    [GetStateAtChangesAgo] at depth 0 returns the live current state,
    made of each key's value read at its current version; it fails with
    NotFound when that state has no entry. *)
Theorem GetStateAtChangesAgo_zero_is_live (c : Client) (dir : string) :
  1 ≤ totalChanges c dir →
  GetStateAtChangesAgo c dir 0 =
    if decide (liveState c dir = ∅) then Err (ErrNoSecretsAtChangesAgo 0)
    else Ok (liveState c dir).
Proof.
  intros Htotal. rewrite GetStateAtChangesAgo_unfold.
  assert (Hkeys : keysOf c dir ≠ []).
  { intros Hnil. unfold totalChanges, changesOf in Htotal.
    rewrite Hnil in Htotal. simpl in Htotal. lia. }
  unfold keysOf in Hkeys.
  destruct (ListSecretPaths c dir) as [[|p paths]|e]; [done| |done].
  rewrite !decide_False by lia. done.
Qed.

(** C1, as amended: for N from 1 to the number of recorded changes,
    [GetStateAtChangesAgo] returns the state the pointer walk computes:
    the pointers start at the current versions, each of the first N
    events of the stream (the recorded changes, latest first) lowers the
    pointer of its key by one iff the pointer equals the event's
    version, and every key whose pointer is at least 1 brings its value
    read at that version.  A key whose read gives nothing is left out,
    and the call fails with NotFound when nothing is left. *)
Theorem GetStateAtChangesAgo_pointer_walk (c : Client) (dir : string) (N : Z) :
  1 ≤ N ≤ totalChanges c dir →
  GetStateAtChangesAgo c dir N =
    (if decide (stateAt c dir (pointersAt c dir N) = ∅)
     then Err (ErrNoSecretsAtChangesAgo N)
     else Ok (stateAt c dir (pointersAt c dir N))) ∧
  eventStream c dir ≡ₚ changesOf c dir ∧
  StronglySorted (λ a b, createdTime b ≤ createdTime a) (eventStream c dir).
Proof.
  intros HN. split; [|apply eventStream_descending].
  rewrite GetStateAtChangesAgo_unfold.
  assert (Hkeys : keysOf c dir ≠ []).
  { intros Hnil. unfold totalChanges, changesOf in HN.
    rewrite Hnil in HN. simpl in HN. lia. }
  unfold keysOf in Hkeys.
  destruct (ListSecretPaths c dir) as [[|p paths]|e]; [done| |done].
  rewrite !decide_False by lia. done.
Qed.

End Timelines.

(** ** The claims on the example directories *)

Section OnExamples.
Import Compare Client Timeline Spec Examples.

(** C1 as stated fails on [firstDestroyed]: two changes are recorded
    and walking both leaves the pointer of [k] at 1, yet the call returns
    no map, because version 1 cannot be read. *)
Lemma pointer_walk_counterexample :
  ¬ @returnsWalkedState goInsertionSort firstDestroyed "d" 2.
Proof.
  unfold returnsWalkedState. intros H.
  assert (Hcode : @GetStateAtChangesAgo goInsertionSort firstDestroyed "d" 2
                  = Err (ErrNoSecretsAtChangesAgo 2)) by (vm_compute; reflexivity).
  rewrite Hcode in H.
  assert (Htotal : @totalChanges goInsertionSort firstDestroyed "d" = 2)
    by (vm_compute; reflexivity).
  rewrite Htotal in H. by specialize (H ltac:(lia)).
Qed.

Lemma pointer_walk_witness :
  1 ≤ 1 ≤ @totalChanges goInsertionSort twoKeys "d" ∧
  (@GetStateAtChangesAgo goInsertionSort twoKeys "d" 1 =
     (if decide (@stateAt twoKeys "d" (@pointersAt goInsertionSort twoKeys "d" 1) = ∅)
      then Err (ErrNoSecretsAtChangesAgo 1)
      else Ok (@stateAt twoKeys "d" (@pointersAt goInsertionSort twoKeys "d" 1))) ∧
   @eventStream goInsertionSort twoKeys "d" ≡ₚ @changesOf goInsertionSort twoKeys "d" ∧
   StronglySorted (λ a b, createdTime b ≤ createdTime a)
     (@eventStream goInsertionSort twoKeys "d")).
Proof.
  assert (H : 1 ≤ 1 ≤ @totalChanges goInsertionSort twoKeys "d")
    by (vm_compute; split; discriminate).
  split; [exact H|].
  exact (@GetStateAtChangesAgo_pointer_walk goInsertionSort twoKeys "d" 1 H).
Defined.

(** C2 as stated fails on [writtenOnce]: its only key has exactly one
    retained version, and [GetTimeline] returns the creation entry. *)
Lemma timeline_counterexample :
  ¬ @timelineFailures goInsertionSort writtenOnce "d".
Proof.
  intros [_ H]. destruct H as (e & He & _).
  - split; [done|]. intros key Hkey.
    apply list_elem_of_singleton in Hkey as ->. reflexivity.
  - vm_compute in He. discriminate He.
Qed.

Lemma timeline_witness :
  @everyKeyHasOneVersion goInsertionSort writtenOnce "d" ∧
  ∃ timeline, @GetTimeline goInsertionSort writtenOnce "d" = Ok timeline ∧
    length timeline = length (keysOf writtenOnce "d").
Proof.
  assert (H : @everyKeyHasOneVersion goInsertionSort writtenOnce "d").
  { split; [done|]. intros key Hkey.
    apply list_elem_of_singleton in Hkey as ->. reflexivity. }
  split; [exact H|].
  exact (proj2 (proj2 (@GetTimeline_failures goInsertionSort writtenOnce "d")) H).
Defined.

(** C3 as stated fails on [writtenOnce]: no change is recorded, so a
    depth of 1 exceeds the total, and the call fails with NoHistory. *)
Lemma invalid_depth_counterexample :
  ¬ @invalidDepthExactly goInsertionSort writtenOnce "d" 1.
Proof.
  unfold invalidDepthExactly, failsInvalidDepth. intros [_ H].
  destruct H as (e & He & Hkind).
  - vm_compute. reflexivity.
  - vm_compute in He. injection He as <-. discriminate Hkind.
Qed.

Lemma invalid_depth_witness :
  1 ≤ @totalChanges goInsertionSort twoKeys "d" ∧
  ((∀ N, @invalidDepthExactly goInsertionSort twoKeys "d" N) ∧
   ¬ @failsInvalidDepth goInsertionSort twoKeys "d"
       (@totalChanges goInsertionSort twoKeys "d") ∧
   @failsInvalidDepth goInsertionSort twoKeys "d"
     (@totalChanges goInsertionSort twoKeys "d" + 1)).
Proof.
  assert (H : 1 ≤ @totalChanges goInsertionSort twoKeys "d")
    by (vm_compute; discriminate).
  split; [exact H|].
  exact (@GetStateAtChangesAgo_invalid_depth goInsertionSort twoKeys "d" H).
Defined.

(** C4 as stated fails on [writtenOnce]: its live state holds the value
    of [a], and the call at depth 0 fails with NoHistory. *)
Lemma zero_changes_counterexample :
  ¬ @zeroChangesAgoIsLive goInsertionSort writtenOnce "d".
Proof.
  unfold zeroChangesAgoIsLive. intros H. vm_compute in H. discriminate H.
Qed.

Lemma zero_changes_witness :
  1 ≤ @totalChanges goInsertionSort twoKeys "d" ∧
  @GetStateAtChangesAgo goInsertionSort twoKeys "d" 0 =
    (if decide (@liveState goInsertionSort twoKeys "d" = ∅)
     then Err (ErrNoSecretsAtChangesAgo 0)
     else Ok (@liveState goInsertionSort twoKeys "d")).
Proof.
  assert (H : 1 ≤ @totalChanges goInsertionSort twoKeys "d")
    by (vm_compute; discriminate).
  split; [exact H|].
  exact (@GetStateAtChangesAgo_zero_is_live goInsertionSort twoKeys "d" H).
Defined.

End OnExamples.

(** ** Restoring a snapshot *)

Section Restoring.
Import Client Snapshot.

Lemma append_assoc (a b c : string) : (a +:+ b) +:+ c = a +:+ (b +:+ c).
Proof.
  induction a as [|x a IH]; [done|].
  rewrite !append_String. by rewrite IH.
Qed.

Lemma append_inj_r (a b c : string) : a +:+ b = a +:+ c → b = c.
Proof.
  induction a as [|x a IH]; [done|].
  rewrite !append_String. intros [= H]. by apply IH.
Qed.

Lemma fullPathOf_inj target k1 k2 :
  fullPathOf target k1 = fullPathOf target k2 → k1 = k2.
Proof.
  unfold fullPathOf. intros H%append_inj_r. by apply append_inj_r in H.
Qed.

Lemma prefix_app pre s :
  String.prefix pre s = true → ∃ r, s = pre +:+ r.
Proof.
  revert s. induction pre as [|x pre IH]; intros s.
  - intros _. by exists s.
  - destruct s as [|y s]; [done|]. cbn [String.prefix].
    destruct (Ascii.ascii_dec x y) as [->|]; [|done].
    intros [r ->]%IH. exists r. by rewrite append_String.
Qed.

Lemma prefix_app_true pre r : String.prefix pre (pre +:+ r) = true.
Proof.
  induction pre as [|x pre IH].
  - by destruct r.
  - rewrite append_String. cbn [String.prefix].
    by destruct (Ascii.ascii_dec x x).
Qed.

Lemma substring_drop pre r :
  String.substring (String.length pre) (String.length r) (pre +:+ r) = r.
Proof.
  induction pre as [|x pre IH].
  - rewrite append_empty. apply substring_whole.
  - rewrite append_String. simpl. apply IH.
Qed.

Lemma sliceFrom_app pre r : sliceFrom (pre +:+ r) (len pre) = r.
Proof.
  unfold sliceFrom, slice, len. rewrite length_append, Nat2Z.id.
  replace (Z.to_nat _) with (String.length r) by lia.
  apply substring_drop.
Qed.

Lemma stripPrefix_Some pre s r : stripPrefix pre s = Some r ↔ s = pre +:+ r.
Proof.
  unfold stripPrefix, HasPrefix. split.
  - destruct (String.prefix pre s) eqn:E; [|done].
    apply prefix_app in E as [r' ->]. rewrite sliceFrom_app. by intros [= ->].
  - intros ->. by rewrite prefix_app_true, sliceFrom_app.
Qed.

(** The listing of a directory holds the paths stored below it. *)
Lemma elem_of_listed (s : gmap string entry) target rel :
  rel ∈ listed s target ↔ is_Some (s !! fullPathOf target rel).
Proof.
  unfold listed, fullPathOf. rewrite list_elem_of_omap. split.
  - intros (path & Hpath & Hstrip). apply stripPrefix_Some in Hstrip as ->.
    rewrite append_assoc in Hpath.
    apply list_elem_of_fmap in Hpath as ([path e] & -> & He).
    apply elem_of_map_to_list in He. by exists e.
  - intros [e He]. exists ((target +:+ "/") +:+ rel). split.
    + rewrite append_assoc. apply list_elem_of_fmap.
      exists (target +:+ "/" +:+ rel, e). by rewrite elem_of_map_to_list.
    + by apply stripPrefix_Some.
Qed.

(** One iteration of the loop over the snapshot, on the store kept in
    memory. *)
Lemma restoreSecret_mem opts target st k secret :
  (k ∈ currentSet st ↔ is_Some (store st !! fullPathOf target k)) →
  restoreSecret memStore opts target st (k, secret) =
    Continue
      (mkRestoreState
         (if negb (DryRun opts)
             && isWritten (classify (Verify opts) (store st) target (k, secret))
          then writeTo target (store st) (k, secret) else store st)
         (currentSet st ∖ {[k]})
         (recordClass (classify (Verify opts) (store st) target (k, secret)) k
            (result st))).
Proof.
  intros Hexists.
  unfold restoreSecret, classify, writeSnapshotSecret, writeTo, snapshotValueOf,
    dataOf.
  cbn [fst snd store currentSet result memStore ReadSecretRaw GetMetadata WriteSecret].
  fold (fullPathOf target k).
  destruct (store st !! fullPathOf target k) as [e|] eqn:He.
  - rewrite bool_decide_eq_true_2 by (apply Hexists; eauto).
    rewrite andb_true_r. cbn [fmap option_fmap option_map CurrentVersion default].
    destruct (Verify opts); cbn [andb].
    + destruct (entryVersion e =? Version secret); cbn [negb].
      * destruct (String.eqb _ _); [by rewrite andb_false_r|].
        rewrite andb_true_r. by destruct (DryRun opts), (Value secret).
      * by rewrite andb_false_r.
    + destruct (String.eqb _ _); [by rewrite andb_false_r|].
      rewrite andb_true_r. by destruct (DryRun opts), (Value secret).
  - rewrite bool_decide_eq_false_2.
    2:{ intros Hin%Hexists. by destruct Hin. }
    rewrite andb_false_r, andb_true_r.
    by destruct (DryRun opts), (Value secret).
Qed.

Lemma classify_lookup verify (s1 s2 : gmap string entry) target kv :
  s1 !! fullPathOf target kv.1 = s2 !! fullPathOf target kv.1 →
  classify verify s1 target kv = classify verify s2 target kv.
Proof. unfold classify. by intros ->. Qed.

Lemma lookup_writeTo_ne target (s : gmap string entry) kv q :
  fullPathOf target kv.1 ≠ q → writeTo target s kv !! q = s !! q.
Proof. intros Hne. unfold writeTo. by rewrite lookup_insert_ne. Qed.

(** The loop over the snapshot, on the store kept in memory: [s0] is
    the store when the run starts. *)
Lemma restore_loop opts target (s0 : gmap string entry) entries st :
  NoDup entries.*1 →
  (∀ k, k ∈ entries.*1 →
     store st !! fullPathOf target k = s0 !! fullPathOf target k ∧
     (k ∈ currentSet st ↔ is_Some (s0 !! fullPathOf target k))) →
  rangeOver (restoreSecret memStore opts target) entries st =
    Continue
      (mkRestoreState
         (if DryRun opts then store st
          else foldl (writeTo target) (store st)
                 (writtenEntries (Verify opts) s0 target entries))
         (currentSet st ∖ list_to_set entries.*1)
         (recordEntries (Verify opts) s0 target entries (result st))).
Proof.
  revert st. induction entries as [|[k secret] entries IH]; intros st Hnodup Hpre.
  - unfold writtenEntries, recordEntries. rewrite filter_nil.
    cbn [rangeOver fmap list_fmap list_to_set foldl].
    rewrite difference_empty_L. destruct st, (DryRun opts); done.
  - rewrite fmap_cons in Hnodup. apply NoDup_cons in Hnodup as [Hk Hnodup].
    destruct (Hpre k) as [Hstore Hexists]; [by left|].
    cbn [rangeOver]. rewrite restoreSecret_mem by (by rewrite Hstore).
    rewrite (classify_lookup _ _ s0) by done.
    rewrite IH; [|done|].
    + cbn [store currentSet result]. f_equal. f_equal.
      * unfold writtenEntries. rewrite filter_cons.
        destruct (DryRun opts); [done|]. cbn [negb andb].
        destruct (isWritten (classify (Verify opts) s0 target (k, secret)));
          [by rewrite decide_True|by rewrite decide_False].
      * rewrite fmap_cons. cbn [list_to_set fst].
        apply set_eq. intros x. rewrite !elem_of_difference, elem_of_union,
          elem_of_singleton. tauto.
    + intros k' Hk'. cbn [store currentSet].
      assert (k ≠ k') by (by intros ->).
      destruct (Hpre k') as [Hstore' Hexists']; [by right|].
      split.
      * destruct (negb (DryRun opts) && isWritten _); [|done].
        rewrite lookup_writeTo_ne; [done|].
        intros Heq%fullPathOf_inj. done.
      * rewrite <- Hexists', elem_of_difference, elem_of_singleton.
        split; [tauto|]. intros ?. split; [done|]. by intros ->.
Qed.

(** The loop over the extra paths, on the store kept in memory. *)
Lemma delete_loop opts target relPaths st :
  rangeOver (deleteExtra memStore opts target) relPaths st =
    Continue
      (mkRestoreState
         (if DryRun opts then store st
          else foldl (deleteAt target) (store st) relPaths)
         (currentSet st)
         (recordDeleted relPaths (result st))).
Proof.
  revert st. induction relPaths as [|relPath relPaths IH]; intros st.
  - cbn [rangeOver foldl]. unfold recordDeleted. rewrite app_nil_r.
    destruct st as [? ? []], (DryRun opts); done.
  - cbn [rangeOver]. unfold deleteExtra at 1.
    cbn [store currentSet result memStore DeleteSecret].
    destruct (DryRun opts) eqn:Hdry; cbn [negb].
    + rewrite IH. cbn [store currentSet result]. f_equal. f_equal.
      unfold recordDeleted. cbn [Added Updated Deleted Unchanged Skipped].
      by rewrite <- app_assoc.
    + rewrite IH. cbn [store currentSet result foldl]. f_equal. f_equal.
      unfold recordDeleted. cbn [Added Updated Deleted Unchanged Skipped].
      by rewrite <- app_assoc.
Qed.

(** [RestoreSnapshot] on the store kept in memory never fails; its
    result and the store it leaves are these. *)
Lemma RestoreSnapshot_mem (s : gmap string entry) snapshot target opts :
  RestoreSnapshot memStore s snapshot target opts =
    let entries := map_to_list (Secrets snapshot) in
    let written :=
      if DryRun opts then s
      else foldl (writeTo target) s (writtenEntries (Verify opts) s target entries) in
    let recorded :=
      recordEntries (Verify opts) s target entries (mkRestoreResult [] [] [] [] []) in
    if DeleteExtra opts then
      (if DryRun opts then written
       else foldl (deleteAt target) written (extraPaths s target entries),
       Ok (recordDeleted (extraPaths s target entries) recorded))
    else (written, Ok recorded).
Proof.
  unfold RestoreSnapshot. cbn [memStore ListSecretPaths].
  fold (listed s target).
  rewrite (restore_loop opts target s).
  - cbn [store currentSet result]. destruct (DeleteExtra opts); [|done].
    rewrite delete_loop. cbn [store currentSet result].
    by destruct (DryRun opts).
  - apply NoDup_fst_map_to_list.
  - intros k _. cbn [store currentSet]. split; [done|].
    by rewrite elem_of_list_to_set, elem_of_listed.
Qed.

Lemma filter_none {A} (P : A → Prop) `{!∀ x, Decision (P x)} (l : list A) :
  (∀ x, x ∈ l → ¬ P x) → filter P l = [].
Proof.
  induction l as [|x l IH]; intros Hno; [done|].
  rewrite filter_cons_False by (apply Hno; by left).
  apply IH. intros y Hy. apply Hno. by right.
Qed.

Lemma recordEntries_lists verify (s : gmap string entry) target entries r :
  let r' := recordEntries verify s target entries r in
  Added r' = Added r ++ keysOfClass CAdded verify s target entries ∧
  Updated r' = Updated r ++ keysOfClass CUpdated verify s target entries ∧
  Deleted r' = Deleted r ∧
  Unchanged r' = Unchanged r ++ keysOfClass CUnchanged verify s target entries ∧
  Skipped r' = Skipped r ++ keysOfClass CSkipped verify s target entries.
Proof.
  cbv zeta. unfold recordEntries, keysOfClass.
  revert r. induction entries as [|[k secret] entries IH]; intros r.
  - rewrite !filter_nil. cbn [foldl fmap list_fmap]. by rewrite !app_nil_r.
  - cbn [foldl fst]. destruct (IH (recordClass (classify verify s target (k, secret)) k r))
      as (-> & -> & -> & -> & ->).
    rewrite !filter_cons.
    destruct (classify verify s target (k, secret)) eqn:E;
      repeat (rewrite decide_True by done || rewrite decide_False by done);
      cbn [recordClass Added Updated Deleted Unchanged Skipped fmap list_fmap fst];
      by rewrite <- ?app_assoc.
Qed.

Lemma lookup_writes_other target (s : gmap string entry) W q :
  (∀ kv, kv ∈ W → fullPathOf target kv.1 ≠ q) →
  foldl (writeTo target) s W !! q = s !! q.
Proof.
  revert s. induction W as [|kv W IH]; intros s H; [done|].
  cbn [foldl]. rewrite IH by (intros ??; apply H; by right).
  apply lookup_writeTo_ne, H. by left.
Qed.

Lemma lookup_writes_in target (s : gmap string entry) W k secret :
  NoDup W.*1 → (k, secret) ∈ W →
  ∃ ver, foldl (writeTo target) s W !! fullPathOf target k
         = Some (mkEntry ver (dataOf secret)).
Proof.
  revert s. induction W as [|[k' secret'] W IH]; intros s Hnodup Hin.
  - by apply elem_of_nil in Hin.
  - rewrite fmap_cons in Hnodup. apply NoDup_cons in Hnodup as [Hk' Hnodup].
    cbn [foldl]. apply elem_of_cons in Hin as [[= <- <-]|Hin]; [|by apply IH].
    rewrite lookup_writes_other.
    + unfold writeTo. cbn [fst snd]. rewrite lookup_insert_eq. by eexists.
    + intros [k2 s2] Hin2 Heq%fullPathOf_inj. cbn [fst] in *. subst k2.
      apply Hk'. apply list_elem_of_fmap. by exists (k, s2).
Qed.

Lemma lookup_deletes_other target (s : gmap string entry) E q :
  (∀ r, r ∈ E → fullPathOf target r ≠ q) →
  foldl (deleteAt target) s E !! q = s !! q.
Proof.
  revert s. induction E as [|r E IH]; intros s H; [done|].
  cbn [foldl]. rewrite IH by (intros ??; apply H; by right).
  unfold deleteAt. apply lookup_delete_ne, H. by left.
Qed.

Lemma lookup_deletes_None target (s : gmap string entry) E q :
  s !! q = None → foldl (deleteAt target) s E !! q = None.
Proof.
  revert s. induction E as [|r E IH]; intros s H; [done|].
  cbn [foldl]. apply IH. unfold deleteAt.
  rewrite lookup_delete. by case_decide.
Qed.

Lemma lookup_deletes_in target (s : gmap string entry) E r :
  r ∈ E → foldl (deleteAt target) s E !! fullPathOf target r = None.
Proof.
  revert s. induction E as [|r' E IH]; intros s Hin.
  - by apply elem_of_nil in Hin.
  - cbn [foldl]. apply elem_of_cons in Hin as [->|Hin]; [|by apply IH].
    apply lookup_deletes_None. unfold deleteAt. apply lookup_delete_eq.
Qed.

Lemma elem_of_extraPaths (s : gmap string entry) target entries r :
  r ∈ extraPaths s target entries ↔
    is_Some (s !! fullPathOf target r) ∧ r ∉ entries.*1.
Proof.
  unfold extraPaths.
  by rewrite elem_of_elements, elem_of_difference, !elem_of_list_to_set,
    elem_of_listed.
Qed.

(** A written value compares equal to the snapshot value it came from. *)
Lemma unwrapValue_dataOf secret :
  unwrapValue (dataOf secret) = snapshotValueOf secret.
Proof.
  unfold dataOf, snapshotValueOf.
  destruct (Value secret); try done;
    unfold unwrapValue; by rewrite lookup_singleton_eq, map_size_singleton.
Qed.

Lemma elem_of_keysOfClass snapshot cl verify (s : gmap string entry) target k :
  k ∈ keysOfClass cl verify s target (map_to_list (Secrets snapshot)) ↔
    ∃ secret, Secrets snapshot !! k = Some secret ∧
      classify verify s target (k, secret) = cl.
Proof.
  unfold keysOfClass. rewrite list_elem_of_fmap. split.
  - intros ([k' secret] & -> & [Hcl Hin%elem_of_map_to_list]%list_elem_of_filter).
    by exists secret.
  - intros (secret & Hin & Hcl). exists (k, secret). split; [done|].
    apply list_elem_of_filter. by rewrite elem_of_map_to_list.
Qed.

Lemma elem_of_snapshot_keys snapshot k :
  k ∈ (map_to_list (Secrets snapshot)).*1 ↔ is_Some (Secrets snapshot !! k).
Proof.
  rewrite list_elem_of_fmap. split.
  - intros ([k' secret] & -> & Hin%elem_of_map_to_list). by exists secret.
  - intros [secret Hin]. exists (k, secret). by rewrite elem_of_map_to_list.
Qed.

(** What a run that writes and deletes leaves at the path of a snapshot
    key: the data of the snapshot if the key was written, what was there
    otherwise. *)
Lemma lookup_after_run snapshot verify (s : gmap string entry) target k secret :
  Secrets snapshot !! k = Some secret →
  let entries := map_to_list (Secrets snapshot) in
  let s1 := foldl (deleteAt target)
              (foldl (writeTo target) s (writtenEntries verify s target entries))
              (extraPaths s target entries) in
  if isWritten (classify verify s target (k, secret))
  then ∃ ver, s1 !! fullPathOf target k = Some (mkEntry ver (dataOf secret))
  else s1 !! fullPathOf target k = s !! fullPathOf target k.
Proof.
  intros Hk. cbv zeta.
  rewrite lookup_deletes_other.
  2:{ intros r [_ Hr]%elem_of_extraPaths Heq%fullPathOf_inj. subst r.
      apply Hr, elem_of_snapshot_keys. eauto. }
  destruct (isWritten (classify verify s target (k, secret))) eqn:Hw.
  - apply lookup_writes_in.
    + eapply sublist_NoDup; [apply (NoDup_fst_map_to_list (Secrets snapshot))|].
      apply fmap_sublist, sublist_filter.
    + apply list_elem_of_filter. by rewrite elem_of_map_to_list.
  - apply lookup_writes_other.
    intros [k' secret'] [Hw' Hin%elem_of_map_to_list]%list_elem_of_filter
      Heq%fullPathOf_inj.
    cbn [fst] in *. subst k'. rewrite Hk in Hin. injection Hin as <-.
    congruence.
Qed.

(** After such a run no snapshot key is written again. *)
Lemma settled_after_run snapshot verify (s : gmap string entry) target k secret :
  Secrets snapshot !! k = Some secret →
  let entries := map_to_list (Secrets snapshot) in
  let s1 := foldl (deleteAt target)
              (foldl (writeTo target) s (writtenEntries verify s target entries))
              (extraPaths s target entries) in
  isWritten (classify verify s1 target (k, secret)) = false.
Proof.
  intros Hk. pose proof (lookup_after_run snapshot verify s target k secret Hk) as H.
  cbv zeta in *.
  destruct (isWritten (classify verify s target (k, secret))) eqn:Hw.
  - destruct H as [ver H]. unfold classify. cbn [fst snd]. rewrite H.
    cbn [entryVersion entryData]. rewrite unwrapValue_dataOf, String.eqb_refl.
    by destruct (verify && _).
  - by rewrite (classify_lookup verify _ s).
Qed.

Lemma extraPaths_nil (s : gmap string entry) target entries :
  (∀ r, is_Some (s !! fullPathOf target r) → r ∈ entries.*1) →
  extraPaths s target entries = [].
Proof.
  intros H. unfold extraPaths.
  match goal with
  | |- elements ?X = [] => assert (X = ∅) as ->; [|apply elements_empty]
  end.
  apply elem_of_equiv_empty_L. intros r.
  rewrite elem_of_difference, !elem_of_list_to_set, elem_of_listed.
  intros [Hr Hnot]. by apply Hnot, H.
Qed.

(** After such a run the store holds no path outside the snapshot. *)
Lemma no_extra_after_run snapshot verify (s : gmap string entry) target :
  let entries := map_to_list (Secrets snapshot) in
  let s1 := foldl (deleteAt target)
              (foldl (writeTo target) s (writtenEntries verify s target entries))
              (extraPaths s target entries) in
  extraPaths s1 target entries = [].
Proof.
  cbv zeta. apply extraPaths_nil. intros r [e He].
  destruct (decide (r ∈ (map_to_list (Secrets snapshot)).*1)) as [|Hr]; [done|].
  exfalso.
  destruct (s !! fullPathOf target r) as [e0|] eqn:Hs.
  - rewrite lookup_deletes_in in He; [done|].
    apply elem_of_extraPaths. split; [by rewrite Hs|done].
  - rewrite lookup_deletes_None in He; [done|].
    rewrite lookup_writes_other; [done|].
    intros [k' secret'] [_ Hin]%list_elem_of_filter Heq%fullPathOf_inj.
    cbn [fst] in *. subst k'. apply Hr. apply list_elem_of_fmap.
    by exists (r, secret').
Qed.

(** On any store: an iteration that finds the key listed and reads a
    version other than the snapshot's records the key as skipped and
    goes on without a write, the store untouched. *)
Lemma restoreSecret_skips {S} (c : Store S) opts target st relPath secret metadata :
  Verify opts = true →
  relPath ∈ currentSet st →
  GetMetadata c (store st) (target +:+ "/" +:+ relPath) = Ok (Some metadata) →
  CurrentVersion metadata ≠ Version secret →
  restoreSecret c opts target st (relPath, secret) =
    Continue
      (mkRestoreState (store st) (currentSet st ∖ {[relPath]})
         (recordClass CSkipped relPath (result st))).
Proof.
  intros Hverify Hin Hmeta Hversion. unfold restoreSecret.
  cbn [fst snd store currentSet result].
  rewrite Hverify, bool_decide_eq_true_2 by done. cbn [andb].
  rewrite Hmeta. apply Z.eqb_neq in Hversion. by rewrite Hversion.
Qed.

(** C6: with [verify] set, a snapshot key that is live at a version
    other than the one the snapshot recorded is classified [Skipped], is
    in no other list, and the store holds at its path what it held
    before the run. *)
Theorem RestoreSnapshot_verify_skips
    (s : gmap string entry) (snapshot : Snapshot) (target : string)
    (opts : RestoreOptions) (relPath : string) (secret : SnapshotSecret)
    (live : entry) :
  Verify opts = true →
  Secrets snapshot !! relPath = Some secret →
  s !! fullPathOf target relPath = Some live →
  entryVersion live ≠ Version secret →
  ∃ s' plan,
    RestoreSnapshot memStore s snapshot target opts = (s', Ok plan) ∧
    relPath ∈ Skipped plan ∧
    (relPath ∉ Added plan) ∧ (relPath ∉ Updated plan) ∧
    (relPath ∉ Deleted plan) ∧ (relPath ∉ Unchanged plan) ∧
    s' !! fullPathOf target relPath = Some live.
Proof.
  intros Hverify Hsecret Hlive Hversion.
  assert (Hclass : classify (Verify opts) s target (relPath, secret) = CSkipped).
  { unfold classify. cbn [fst snd]. rewrite Hlive, Hverify.
    apply Z.eqb_neq in Hversion. by rewrite Hversion. }
  assert (Hother : ∀ cl, cl ≠ CSkipped →
    relPath ∉ keysOfClass cl (Verify opts) s target (map_to_list (Secrets snapshot))).
  { intros cl Hcl (secret' & Hs' & Hcl')%elem_of_keysOfClass. congruence. }
  assert (Hextra : relPath ∉ extraPaths s target (map_to_list (Secrets snapshot))).
  { intros [_ Hr]%elem_of_extraPaths. apply Hr, elem_of_snapshot_keys. eauto. }
  pose proof (recordEntries_lists (Verify opts) s target
    (map_to_list (Secrets snapshot)) (mkRestoreResult [] [] [] [] []))
    as (HA & HU & HD & HN & HS).
  cbn [Added Updated Deleted Unchanged Skipped app] in *.
  assert (Hwritten : (if DryRun opts then s
      else foldl (writeTo target) s
             (writtenEntries (Verify opts) s target (map_to_list (Secrets snapshot))))
      !! fullPathOf target relPath = Some live).
  { destruct (DryRun opts); [done|]. rewrite lookup_writes_other; [done|].
    intros [k' secret'] [Hw Hin%elem_of_map_to_list]%list_elem_of_filter
      Heq%fullPathOf_inj.
    cbn [fst] in *. subst k'. rewrite Hsecret in Hin. injection Hin as <-.
    by rewrite Hclass in Hw. }
  rewrite RestoreSnapshot_mem. cbv zeta.
  destruct (DeleteExtra opts); eexists _, _; (split; [reflexivity|]).
  - unfold recordDeleted. cbn [Added Updated Deleted Unchanged Skipped].
    rewrite HA, HU, HD, HN, HS. split_and!.
    + apply elem_of_keysOfClass. eauto.
    + by apply Hother.
    + by apply Hother.
    + done.
    + by apply Hother.
    + destruct (DryRun opts); [done|].
      rewrite lookup_deletes_other; [done|].
      intros r Hr Heq%fullPathOf_inj. by subst r.
  - rewrite HA, HU, HD, HN, HS. split_and!.
    + apply elem_of_keysOfClass. eauto.
    + by apply Hother.
    + by apply Hother.
    + apply not_elem_of_nil.
    + by apply Hother.
    + done.
Qed.

(** C5: a run with [deleteExtra] that applies its plan is idempotent:
    run again on the store it left, with nothing written in between, it
    adds, updates and deletes nothing and leaves the store as it is. *)
Theorem RestoreSnapshot_idempotent
    (s : gmap string entry) (snapshot : Snapshot) (target : string)
    (verify : bool) :
  let opts := mkRestoreOptions false verify true in
  ∃ s1 plan1 plan2,
    RestoreSnapshot memStore s snapshot target opts = (s1, Ok plan1) ∧
    RestoreSnapshot memStore s1 snapshot target opts = (s1, Ok plan2) ∧
    Added plan2 = [] ∧ Updated plan2 = [] ∧ Deleted plan2 = [] ∧
    HasChanges plan2 = false ∧ TotalChanges plan2 = 0.
Proof.
  cbv zeta. rewrite RestoreSnapshot_mem. cbv zeta.
  cbn [DryRun Verify DeleteExtra].
  set (entries := map_to_list (Secrets snapshot)).
  set (s1 := foldl (deleteAt target) _ _).
  eexists s1, _, _. split; [reflexivity|].
  rewrite RestoreSnapshot_mem. cbv zeta. cbn [DryRun Verify DeleteExtra].
  fold entries.
  assert (Hsettled : ∀ kv, kv ∈ entries →
    isWritten (classify verify s1 target kv) = false).
  { intros [k secret] Hin%elem_of_map_to_list.
    by apply (settled_after_run snapshot verify s target k secret). }
  assert (Hextra : extraPaths s1 target entries = []).
  { apply (no_extra_after_run snapshot verify s target). }
  assert (Hwritten : writtenEntries verify s1 target entries = []).
  { apply filter_none. intros kv Hin. by rewrite Hsettled. }
  rewrite Hextra, Hwritten. cbn [foldl].
  split; [reflexivity|].
  pose proof (recordEntries_lists verify s1 target entries
    (mkRestoreResult [] [] [] [] [])) as (HA & HU & HD & _ & _).
  cbn [Added Updated Deleted app] in *.
  assert (HA' : keysOfClass CAdded verify s1 target entries = []).
  { unfold keysOfClass. rewrite filter_none; [done|].
    intros kv Hin Hcl. apply Hsettled in Hin. by rewrite Hcl in Hin. }
  assert (HU' : keysOfClass CUpdated verify s1 target entries = []).
  { unfold keysOfClass. rewrite filter_none; [done|].
    intros kv Hin Hcl. apply Hsettled in Hin. by rewrite Hcl in Hin. }
  unfold HasChanges, TotalChanges, recordDeleted.
  cbn [Added Updated Deleted].
  rewrite HA, HU, HD, HA', HU'. done.
Qed.

(** C7: the scenario of the specification.  Restoring the snapshot
    {a:"1", b:"2"} over the live state {a:"1", c:"3"} with [deleteExtra]
    gives the plan added=[b], updated=[], deleted=[c], unchanged=[a],
    with nothing skipped, whether or not the run is dry and whether or
    not it verifies versions; a run that is not dry leaves exactly [a]
    and [b] in the store. *)
Theorem RestoreSnapshot_scenario (dryRun verify : bool) :
  (RestoreSnapshot memStore Examples.liveAC Examples.snapshotAB "t"
     (mkRestoreOptions dryRun verify true)).2
  = Ok (mkRestoreResult ["b"] [] ["c"] ["a"] []) ∧
  (RestoreSnapshot memStore Examples.liveAC Examples.snapshotAB "t"
     (mkRestoreOptions dryRun verify true)).1
  = if dryRun then Examples.liveAC
    else <["t/a" := mkEntry 1 {["value" := VString "1"]}]>
           (<["t/b" := mkEntry 1 {["value" := VString "2"]}]> ∅).
Proof. destruct dryRun, verify; split; vm_compute; reflexivity. Qed.

End Restoring.

(** ** The claims on concrete inputs *)

Section OnInputs.
Import Compare Spec Snapshot Examples.

(** C8, as amended: [ParseVersionedPath] splits at the last [@] and
    maps the suffix as follows.  A positive integer n that [int] holds
    gives [Exact n]; a negative integer -n, with n such a number, gives
    [ChangesAgo n]; [prev] and [previous] give [Previous]; any other
    suffix, the literal 0 and an integer outside [int] included, gives
    no selector and leaves the whole string, with its [@], as the path.
    On every path whose suffix is not an integer outside [int], or the
    least [int], the parser returns what the resolver of the
    specification returns.  The five examples of the specification
    hold. *)
Theorem ParseVersionedPath_resolves :
  (∀ base n, 0 < n ≤ maxInt →
     ParseVersionedPath (base +:+ "@" +:+ Itoa n) = (base, selExact n)) ∧
  (∀ base n, 0 < n ≤ maxInt →
     ParseVersionedPath (base +:+ "@" +:+ Itoa (- n)) = (base, selChangesAgo n)) ∧
  (∀ base,
     ParseVersionedPath (base +:+ "@" +:+ "prev") = (base, selPrevious) ∧
     ParseVersionedPath (base +:+ "@" +:+ "previous") = (base, selPrevious)) ∧
  (∀ path, splitLast "@" path = None →
     ParseVersionedPath path = (path, selNone)) ∧
  (∀ path base suffix,
     splitLast "@" path = Some (base, suffix) →
     suffix ≠ "prev" → suffix ≠ "previous" →
     intLiteral suffix = None ∨ intLiteral suffix = Some 0 ∨
       (∃ n, intLiteral suffix = Some n ∧ (n < minInt ∨ maxInt < n)) →
     ParseVersionedPath path = (path, selNone)) ∧
  (∀ path, suffixFitsInt path → ParseVersionedPath path = Resolve path) ∧
  ParseVersionedPath "p@3" = ("p", selExact 3) ∧
  ParseVersionedPath "p@prev" = ("p", selPrevious) ∧
  ParseVersionedPath "p@-2" = ("p", selChangesAgo 2) ∧
  ParseVersionedPath "p@0" = ("p@0", selNone) ∧
  ParseVersionedPath "user@example.com" = ("user@example.com", selNone).
Proof.
  split_and!.
  - intros base n Hn. rewrite ParseVersionedPath_Itoa by lia.
    destruct (0 <? n) eqn:E; [done|]. apply Z.ltb_ge in E. lia.
  - intros base n Hn. rewrite ParseVersionedPath_Itoa by lia.
    destruct (0 <? - n) eqn:E; [apply Z.ltb_lt in E; lia|].
    destruct (- n <? 0) eqn:E'; [|apply Z.ltb_ge in E'; lia].
    by rewrite Z.opp_involutive.
  - intros base. split.
    + rewrite ParseVersionedPath_Resolve.
      * unfold Resolve. by rewrite splitLast_at.
      * unfold suffixFitsInt. by rewrite splitLast_at.
    + rewrite ParseVersionedPath_Resolve.
      * unfold Resolve. by rewrite splitLast_at.
      * unfold suffixFitsInt. by rewrite splitLast_at.
  - intros path Hsplit. rewrite ParseVersionedPath_Resolve.
    + unfold Resolve. by rewrite Hsplit.
    + unfold suffixFitsInt. by rewrite Hsplit.
  - intros path base suffix Hsplit Hprev Hprevious [Hlit|[Hlit|(n & Hlit & Hn)]].
    + rewrite ParseVersionedPath_Resolve.
      * unfold Resolve. rewrite Hsplit, Hlit.
        apply String.eqb_neq in Hprev, Hprevious. by rewrite Hprev, Hprevious.
      * unfold suffixFitsInt. by rewrite Hsplit, Hlit.
    + rewrite ParseVersionedPath_Resolve.
      * unfold Resolve. rewrite Hsplit, Hlit.
        apply String.eqb_neq in Hprev, Hprevious. by rewrite Hprev, Hprevious.
      * unfold suffixFitsInt. rewrite Hsplit, Hlit. unfold maxInt. lia.
    + by eapply ParseVersionedPath_out_of_range.
  - apply ParseVersionedPath_Resolve.
  - vm_compute. reflexivity.
  - vm_compute. reflexivity.
  - vm_compute. reflexivity.
  - vm_compute. reflexivity.
  - vm_compute. reflexivity.
Qed.

(** C8 as stated fails on a positive integer that [int] does not hold:
    the specification resolves [p@9223372036854775808] to [p] at that
    exact version, the parser returns the whole string and no selector. *)
Lemma resolve_counterexample :
  Resolve "p@9223372036854775808" = ("p", selExact 9223372036854775808) ∧
  ParseVersionedPath "p@9223372036854775808"
    = ("p@9223372036854775808", selNone) ∧
  ParseVersionedPath "p@9223372036854775808" ≠ Resolve "p@9223372036854775808".
Proof.
  split_and!.
  - vm_compute. reflexivity.
  - vm_compute. reflexivity.
  - vm_compute. discriminate.
Qed.

Lemma resolve_witness :
  0 < 3 ≤ maxInt ∧
  ParseVersionedPath ("secret/myapp/config" +:+ "@" +:+ Itoa 3)
    = ("secret/myapp/config", selExact 3).
Proof.
  assert (H : 0 < 3 ≤ maxInt) by (vm_compute; split; [reflexivity|discriminate]).
  split; [exact H|].
  exact (proj1 ParseVersionedPath_resolves "secret/myapp/config" 3 H).
Defined.

Lemma verify_skips_witness :
  ∃ s' plan,
    RestoreSnapshot memStore liveAC_rewritten snapshotAB "t"
      (mkRestoreOptions false true true) = (s', Ok plan) ∧
    "a" ∈ Skipped plan ∧
    ("a" ∉ Added plan) ∧ ("a" ∉ Updated plan) ∧
    ("a" ∉ Deleted plan) ∧ ("a" ∉ Unchanged plan) ∧
    s' !! fullPathOf "t" "a" = Some (mkEntry 2 {["value" := VString "9"]}).
Proof.
  apply (RestoreSnapshot_verify_skips liveAC_rewritten snapshotAB "t"
           (mkRestoreOptions false true true) "a"
           (mkSnapshotSecret (VString "1") 1 0)
           (mkEntry 2 {["value" := VString "9"]})).
  - reflexivity.
  - vm_compute. reflexivity.
  - vm_compute. reflexivity.
  - vm_compute. discriminate.
Defined.

Lemma same_rendering_witness :
  let A : gmap string Any := {["port" := VInt 1]} in
  let B : gmap string Any := {["port" := VString "1"]} in
  let r := @CompareSecrets goInsertionSort A B in
  ("port" ∉ ChangedKey <$> Changed r) ∧
  ("port" ∉ Key <$> OnlyInFirst r) ∧
  ("port" ∉ Key <$> OnlyInSecond r) ∧
  Compare.Unchanged r
    = Compare.Unchanged (@CompareSecrets goInsertionSort (delete "port" A) B) + 1 ∧
  Sprintv (VInt 1) = Sprintv (VString "1").
Proof.
  apply (@CompareSecrets_same_rendering_unchanged goInsertionSort
           {["port" := VInt 1]} {["port" := VString "1"]} "port"
           (VInt 1) (VString "1")).
  - vm_compute. reflexivity.
  - vm_compute. reflexivity.
  - vm_compute. reflexivity.
Defined.

End OnInputs.

(** * Further properties *)

(** ** More on the diff of two flat maps *)

Section MoreDiffs.
Import Compare.
Context {sorter : SliceSorter}.

Lemma ascii_compare_lt_trans (a b c : ascii) :
  Ascii.compare a b = Lt → Ascii.compare b c = Lt → Ascii.compare a c = Lt.
Proof.
  unfold Ascii.compare. rewrite !N.compare_lt_iff. lia.
Qed.

Lemma string_compare_lt_trans (s1 s2 s3 : string) :
  String.compare s1 s2 = Lt → String.compare s2 s3 = Lt →
  String.compare s1 s3 = Lt.
Proof.
  revert s2 s3. induction s1 as [|c1 s1 IH]; intros [|c2 s2] [|c3 s3];
    cbn [String.compare]; try done.
  destruct (Ascii.compare c1 c2) eqn:E12; try done.
  - apply Ascii.compare_eq_iff in E12 as ->.
    destruct (Ascii.compare c2 c3); try done. apply IH.
  - intros _. destruct (Ascii.compare c2 c3) eqn:E23; try done.
    + apply Ascii.compare_eq_iff in E23 as <-. by rewrite E12.
    + by rewrite (ascii_compare_lt_trans _ _ _ E12 E23).
Qed.

Lemma string_ltb_asym (s1 s2 : string) :
  String.ltb s1 s2 = true → String.ltb s2 s1 = false.
Proof.
  unfold String.ltb. rewrite (String.compare_antisym s1 s2).
  by destruct (String.compare s2 s1).
Qed.

Lemma string_ltb_total (s1 s2 : string) :
  String.ltb s2 s1 = false → s1 ≠ s2 → String.ltb s1 s2 = true.
Proof.
  unfold String.ltb. intros H Hne. rewrite (String.compare_antisym s1 s2).
  destruct (String.compare s2 s1) eqn:E; try done.
  by apply String.compare_eq_iff in E.
Qed.

Lemma string_ltb_trans (s1 s2 s3 : string) :
  String.ltb s1 s2 = true → String.ltb s2 s3 = true → String.ltb s1 s3 = true.
Proof.
  unfold String.ltb. intros H1 H2.
  destruct (String.compare s1 s2) eqn:E1; try done.
  destruct (String.compare s2 s3) eqn:E2; try done.
  by rewrite (string_compare_lt_trans _ _ _ E1 E2).
Qed.

(** Comparing by a string key is a strict weak order. *)
Lemma byKey_StrictWeak {A} (key : A → string) :
  StrictWeak (λ a b, String.ltb (key a) (key b)).
Proof.
  split.
  - intros a b. apply string_ltb_asym.
  - intros a b c Hba Hcb.
    destruct (String.ltb (key c) (key a)) eqn:Hca; [|done].
    destruct (decide (key a = key b)) as [Heq|Hne].
    + rewrite Heq in Hca. congruence.
    + pose proof (string_ltb_total _ _ Hba Hne) as Hab.
      pose proof (string_ltb_trans _ _ _ Hca Hab). congruence.
Qed.

(** A slice sorted by a key that no two elements share is in strictly
    ascending order of the key. *)
Lemma sortSlice_strict {A} (key : A → string) (l : list A) :
  NoDup (key <$> l) →
  StronglySorted (λ a b, String.ltb (key a) (key b) = true)
    (sortSlice (λ a b, String.ltb (key a) (key b)) l).
Proof.
  intros Hnodup.
  pose proof (sortSlice_sorted (λ a b, String.ltb (key a) (key b)) l
                (byKey_StrictWeak key)) as Hsorted.
  pose proof (sortSlice_perm (λ a b, String.ltb (key a) (key b)) l) as Hperm.
  rewrite <- Hperm in Hnodup. clear Hperm.
  induction Hsorted as [|a l' Hl' IH Ha]; [constructor|].
  rewrite fmap_cons in Hnodup. apply NoDup_cons in Hnodup as [Hnotin Hnodup].
  constructor; [by apply IH|].
  rewrite Forall_forall in Ha. apply Forall_forall. intros b Hb.
  apply string_ltb_total; [by apply Ha|].
  intros Heq. apply Hnotin. rewrite Heq. by apply list_elem_of_fmap_2.
Qed.

Lemma omap_nil_iff {A B} (f : A → option B) (l : list A) :
  omap f l = [] ↔ ∀ x, x ∈ l → f x = None.
Proof.
  induction l as [|x l IH]; [by split; [intros _ ? ?%elem_of_nil|]|].
  rewrite omap_cons. split.
  - destruct (f x) eqn:E; [done|]. intros H y [->|Hy]%elem_of_cons; [done|].
    by apply (proj1 IH H).
  - intros H. rewrite (H x) by (by left). apply IH. intros y Hy. apply H. by right.
Qed.

Lemma filter_all {A} (P : A → Prop) `{!∀ x, Decision (P x)} (l : list A) :
  (∀ x, x ∈ l → P x) → filter P l = l.
Proof.
  induction l as [|x l IH]; [done|]. intros Hall.
  rewrite filter_cons, decide_True by (apply Hall; by left).
  f_equal. apply IH. intros y Hy. apply Hall. by right.
Qed.

Lemma eqb_false_iff (s1 s2 : string) : String.eqb s1 s2 = false ↔ s1 ≠ s2.
Proof.
  destruct (String.eqb_spec s1 s2); split; congruence.
Qed.

(** The entries the loops of [CompareSecrets] produce, read off the two
    maps. *)
Lemma elem_of_firstOnly A B e :
  e ∈ omap (firstOnly B) (map_to_list A) ↔
  ∃ k v, A !! k = Some v ∧ B !! k = None ∧ e = mkDiffEntry k (Sprintv v).
Proof.
  rewrite list_elem_of_omap. split.
  - intros [[k v] [Hkv He]]. apply elem_of_map_to_list in Hkv.
    exists k, v. unfold firstOnly in He. cbn [fst snd] in He.
    destruct (B !! k); [done|]. by injection He as <-.
  - intros (k & v & HA & HB & ->). exists (k, v).
    rewrite elem_of_map_to_list. split; [done|].
    unfold firstOnly. cbn [fst snd]. by rewrite HB.
Qed.

Lemma elem_of_secondOnly A B e :
  e ∈ omap (secondOnly A) (map_to_list B) ↔
  ∃ k v, B !! k = Some v ∧ A !! k = None ∧ e = mkDiffEntry k (Sprintv v).
Proof. apply (elem_of_firstOnly B A). Qed.

Lemma elem_of_changedIn A B e :
  e ∈ omap (changedIn B) (map_to_list A) ↔
  ∃ k v1 v2, A !! k = Some v1 ∧ B !! k = Some v2 ∧
    hashValue v1 ≠ hashValue v2 ∧
    e = mkChangedEntry k (len (Sprintv v1)) (len (Sprintv v2))
          (Sprintv v1) (Sprintv v2).
Proof.
  rewrite list_elem_of_omap. split.
  - intros [[k v1] [Hkv He]]. apply elem_of_map_to_list in Hkv.
    unfold changedIn in He. cbn [fst snd] in He.
    destruct (B !! k) as [v2|] eqn:HB; [|done].
    destruct (String.eqb _ _) eqn:Hh; [done|].
    apply eqb_false_iff in Hh. exists k, v1, v2. by injection He as <-.
  - intros (k & v1 & v2 & HA & HB & Hh & ->). exists (k, v1).
    rewrite elem_of_map_to_list. split; [done|].
    unfold changedIn. cbn [fst snd]. rewrite HB.
    apply eqb_false_iff in Hh. by rewrite Hh.
Qed.

Lemma elem_of_sameIn A B kv :
  kv ∈ filter (λ kv, sameIn B kv = true) (map_to_list A) ↔
  A !! kv.1 = Some kv.2 ∧
  ∃ v2, B !! kv.1 = Some v2 ∧ hashValue kv.2 = hashValue v2.
Proof.
  rewrite list_elem_of_filter. destruct kv as [k v]. cbn [fst snd].
  rewrite elem_of_map_to_list. unfold sameIn. cbn [fst snd]. split.
  - intros [Hs HA]. split; [done|]. destruct (B !! k) as [v2|]; [|done].
    exists v2. split; [done|]. by apply String.eqb_eq.
  - intros [HA (v2 & -> & Hh)]. split; [|done]. by apply String.eqb_eq.
Qed.

(** The three lists of a diff are in strictly ascending order of the
    key. *)
Lemma CompareSecrets_sorted A B :
  let r := CompareSecrets A B in
  StronglySorted (λ a b, String.ltb (Key a) (Key b) = true) (OnlyInFirst r) ∧
  StronglySorted (λ a b, String.ltb (Key a) (Key b) = true) (OnlyInSecond r) ∧
  StronglySorted (λ a b, String.ltb (ChangedKey a) (ChangedKey b) = true)
    (Changed r).
Proof.
  cbv zeta. unfold CompareSecrets. cbn [OnlyInFirst OnlyInSecond Changed].
  rewrite compareSecond_fold, compareFirst_fold.
  cbn [OnlyInFirst OnlyInSecond Changed app].
  split_and!; apply sortSlice_strict.
  - eapply sublist_NoDup; [|apply firstOnly_keys_sublist].
    apply NoDup_fst_map_to_list.
  - rewrite secondOnly_keys. apply NoDup_filter, NoDup_fst_map_to_list.
  - eapply sublist_NoDup; [|apply changedIn_keys_sublist].
    apply NoDup_fst_map_to_list.
Qed.

(** Two lists in strictly ascending order of a key with the same
    elements are the same list. *)
Lemma strictly_sorted_unique {A} (key : A → string) (l1 l2 : list A) :
  StronglySorted (λ a b, String.ltb (key a) (key b) = true) l1 →
  StronglySorted (λ a b, String.ltb (key a) (key b) = true) l2 →
  l1 ≡ₚ l2 → l1 = l2.
Proof.
  apply StronglySorted_unique_strong.
  intros x1 x2 _ _ H12 H21. apply string_ltb_asym in H12. congruence.
Qed.

Lemma strictly_sorted_NoDup {A} (key : A → string) (l : list A) :
  StronglySorted (λ a b, String.ltb (key a) (key b) = true) l → NoDup l.
Proof.
  induction 1 as [|a l Hl IH Ha]; constructor; [|done].
  intros Hin. rewrite Forall_forall in Ha. specialize (Ha a Hin).
  pose proof (string_ltb_asym _ _ Ha). congruence.
Qed.

(** X1: comparing a map with itself reports no difference and counts
    every key of the map as unchanged. *)
Theorem CompareSecrets_self (A : gmap string Any) :
  CompareSecrets A A = mkDiffResult [] [] [] (Z.of_nat (size A)) ∧
  HasDifferences (CompareSecrets A A) = false.
Proof.
  destruct (CompareSecrets_spec A A) as (H1 & H2 & H3 & H4).
  assert (omap (firstOnly A) (map_to_list A) = []) as E1.
  { apply omap_nil_iff. intros [k v] Hkv%elem_of_map_to_list.
    unfold firstOnly. cbn [fst]. by rewrite Hkv. }
  assert (omap (changedIn A) (map_to_list A) = []) as E3.
  { apply omap_nil_iff. intros [k v] Hkv%elem_of_map_to_list.
    unfold changedIn. cbn [fst snd]. by rewrite Hkv, String.eqb_refl. }
  assert (filter (λ kv, sameIn A kv = true) (map_to_list A) = map_to_list A)
    as E4.
  { apply filter_all. intros [k v] Hkv%elem_of_map_to_list.
    unfold sameIn. cbn [fst snd]. by rewrite Hkv, String.eqb_refl. }
  unfold secondOnly in H2. fold (firstOnly A) in H2.
  rewrite E1 in H1, H2. rewrite E3 in H3. rewrite E4, length_map_to_list in H4.
  apply Permutation_nil_r in H1, H2, H3.
  unfold HasDifferences.
  destruct (CompareSecrets A A) as [l1 l2 l3 n]. cbn in *. by subst.
Qed.

(** X2: swapping the two maps swaps the two "only in" lists and keeps
    the keys of the changed entries and the number of unchanged keys. *)
Theorem CompareSecrets_swap (A B : gmap string Any) :
  OnlyInFirst (CompareSecrets A B) = OnlyInSecond (CompareSecrets B A) ∧
  OnlyInSecond (CompareSecrets A B) = OnlyInFirst (CompareSecrets B A) ∧
  ChangedKey <$> Changed (CompareSecrets A B)
    = ChangedKey <$> Changed (CompareSecrets B A) ∧
  Unchanged (CompareSecrets A B) = Unchanged (CompareSecrets B A).
Proof.
  destruct (CompareSecrets_spec A B) as (H1 & H2 & H3 & H4).
  destruct (CompareSecrets_spec B A) as (G1 & G2 & G3 & G4).
  destruct (CompareSecrets_sorted A B) as (S1 & S2 & S3).
  destruct (CompareSecrets_sorted B A) as (T1 & T2 & T3).
  split_and!.
  - apply (strictly_sorted_unique Key); [done..|]. by rewrite H1, G2.
  - apply (strictly_sorted_unique Key); [done..|]. by rewrite H2, G1.
  - apply (strictly_sorted_unique id).
    + by apply (StronglySorted_fmap ChangedKey _ _ _ (λ x y H, H) S3).
    + by apply (StronglySorted_fmap ChangedKey _ _ _ (λ x y H, H) T3).
    + rewrite H3, G3. apply NoDup_Permutation.
      * eapply sublist_NoDup; [|apply changedIn_keys_sublist].
        apply NoDup_fst_map_to_list.
      * eapply sublist_NoDup; [|apply changedIn_keys_sublist].
        apply NoDup_fst_map_to_list.
      * intros k. rewrite !list_elem_of_fmap.
        setoid_rewrite elem_of_changedIn. split.
        -- intros (e & -> & k' & v1 & v2 & HA & HB & Hh & ->).
           exists (mkChangedEntry k' (len (Sprintv v2)) (len (Sprintv v1))
                     (Sprintv v2) (Sprintv v1)).
           split; [done|]. exists k', v2, v1.
           split_and!; [done|done|congruence|done].
        -- intros (e & -> & k' & v1 & v2 & HA & HB & Hh & ->).
           exists (mkChangedEntry k' (len (Sprintv v2)) (len (Sprintv v1))
                     (Sprintv v2) (Sprintv v1)).
           split; [done|]. exists k', v2, v1.
           split_and!; [done|done|congruence|done].
  - rewrite H4, G4. f_equal.
    rewrite <- (length_fmap fst (filter _ (map_to_list A))).
    rewrite <- (length_fmap fst (filter _ (map_to_list B))).
    apply Permutation_length, NoDup_Permutation.
    + eapply sublist_NoDup; [apply (NoDup_fst_map_to_list A)|].
      apply fmap_sublist, sublist_filter.
    + eapply sublist_NoDup; [apply (NoDup_fst_map_to_list B)|].
      apply fmap_sublist, sublist_filter.
    + intros k. rewrite !list_elem_of_fmap.
      setoid_rewrite elem_of_sameIn. split.
      * intros ([k' v] & -> & HA & v2 & HB & Hh). cbn [fst snd] in *.
        exists (k', v2). cbn [fst snd]. split_and!; [done..|]. by exists v.
      * intros ([k' v] & -> & HA & v2 & HB & Hh). cbn [fst snd] in *.
        exists (k', v2). cbn [fst snd]. split_and!; [done..|]. by exists v.
Qed.

(** X3: the lists of a diff are in strictly ascending order of the key,
    so no key is listed twice and the result does not depend on the order
    in which the maps were walked. *)
Theorem CompareSecrets_strictly_sorted (A B : gmap string Any) :
  let r := CompareSecrets A B in
  StronglySorted (λ a b, String.ltb (Key a) (Key b) = true) (OnlyInFirst r) ∧
  StronglySorted (λ a b, String.ltb (Key a) (Key b) = true) (OnlyInSecond r) ∧
  StronglySorted (λ a b, String.ltb (ChangedKey a) (ChangedKey b) = true)
    (Changed r) ∧
  NoDup (OnlyInFirst r) ∧ NoDup (OnlyInSecond r) ∧ NoDup (Changed r).
Proof.
  destruct (CompareSecrets_sorted A B) as (S1 & S2 & S3). cbv zeta.
  split_and!; try done.
  - by apply (strictly_sorted_NoDup Key).
  - by apply (strictly_sorted_NoDup Key).
  - by apply (strictly_sorted_NoDup ChangedKey).
Qed.

(** X4: the entries of a diff carry the renderings of the values: a key
    of the first map alone with its rendering, a key of the second map
    alone with its rendering, and a key of both maps whose values hash
    differently with both renderings and their lengths; the renderings of
    a changed entry differ. *)
Theorem CompareSecrets_entries (A B : gmap string Any) :
  let r := CompareSecrets A B in
  (∀ e, e ∈ OnlyInFirst r ↔
     ∃ k v, A !! k = Some v ∧ B !! k = None ∧ e = mkDiffEntry k (Sprintv v)) ∧
  (∀ e, e ∈ OnlyInSecond r ↔
     ∃ k v, B !! k = Some v ∧ A !! k = None ∧ e = mkDiffEntry k (Sprintv v)) ∧
  (∀ e, e ∈ Changed r ↔
     ∃ k v1 v2, A !! k = Some v1 ∧ B !! k = Some v2 ∧
       hashValue v1 ≠ hashValue v2 ∧
       e = mkChangedEntry k (len (Sprintv v1)) (len (Sprintv v2))
             (Sprintv v1) (Sprintv v2)) ∧
  (∀ e, e ∈ Changed r → FirstValue e ≠ SecondValue e).
Proof.
  destruct (CompareSecrets_spec A B) as (H1 & H2 & H3 & _). cbv zeta.
  split_and!.
  - intros e. rewrite H1. apply elem_of_firstOnly.
  - intros e. rewrite H2. apply elem_of_secondOnly.
  - intros e. rewrite H3. apply elem_of_changedIn.
  - intros e. rewrite H3, elem_of_changedIn.
    intros (k & v1 & v2 & _ & _ & Hh & ->). cbn [FirstValue SecondValue].
    intros Heq. apply Hh. unfold hashValue. by rewrite Heq.
Qed.

(** X5: a diff reports no difference exactly when the two maps have the
    same keys and the values of every key hash alike. *)
Theorem HasDifferences_false_iff (A B : gmap string Any) :
  HasDifferences (CompareSecrets A B) = false ↔
  dom A = dom B ∧
  ∀ k v1 v2, A !! k = Some v1 → B !! k = Some v2 →
    hashValue v1 = hashValue v2.
Proof.
  destruct (CompareSecrets_spec A B) as (H1 & H2 & H3 & _).
  assert (HasDifferences (CompareSecrets A B) = false ↔
          omap (firstOnly B) (map_to_list A) = [] ∧
          omap (secondOnly A) (map_to_list B) = [] ∧
          omap (changedIn B) (map_to_list A) = []) as ->.
  { rewrite <- !Permutation_nil_r, <- H1, <- H2, <- H3, !Permutation_nil_r.
    unfold HasDifferences.
    destruct (OnlyInFirst _), (OnlyInSecond _), (Changed _); cbn;
      split; try done; intros (? & ? & ?); done. }
  rewrite !omap_nil_iff. split.
  - intros (E1 & E2 & E3). split.
    + apply set_eq. intros k. rewrite !elem_of_dom. split.
      * intros [v Hv]. specialize (E1 (k, v)).
        rewrite elem_of_map_to_list in E1. specialize (E1 Hv).
        unfold firstOnly in E1. cbn [fst] in E1.
        destruct (B !! k); [by eexists|done].
      * intros [v Hv]. specialize (E2 (k, v)).
        rewrite elem_of_map_to_list in E2. specialize (E2 Hv).
        unfold secondOnly in E2. cbn [fst] in E2.
        destruct (A !! k); [by eexists|done].
    + intros k v1 v2 HA HB. specialize (E3 (k, v1)).
      rewrite elem_of_map_to_list in E3. specialize (E3 HA).
      unfold changedIn in E3. cbn [fst snd] in E3. rewrite HB in E3.
      destruct (String.eqb _ _) eqn:Hh; [|done]. by apply String.eqb_eq.
  - intros [Hdom Hh]. split_and!.
    + intros [k v] Hkv%elem_of_map_to_list. unfold firstOnly. cbn [fst].
      assert (k ∈ dom B) as [v2 ->]%elem_of_dom; [|done].
      rewrite <- Hdom. apply elem_of_dom. by eexists.
    + intros [k v] Hkv%elem_of_map_to_list. unfold secondOnly. cbn [fst].
      assert (k ∈ dom A) as [v2 ->]%elem_of_dom; [|done].
      rewrite Hdom. apply elem_of_dom. by eexists.
    + intros [k v] Hkv%elem_of_map_to_list. unfold changedIn. cbn [fst snd].
      destruct (B !! k) as [v2|] eqn:HB; [|done].
      rewrite (Hh _ _ _ Hkv HB). by rewrite String.eqb_refl.
Qed.

End MoreDiffs.

(** ** More on version references *)

Section MoreVersionReferences.
Import Go Compare Spec.

Lemma splitLast_suffix c s base suffix :
  splitLast c s = Some (base, suffix) → splitLast c suffix = None.
Proof.
  revert base. induction s as [|a s IH]; intros base; cbn [splitLast]; [done|].
  destruct (splitLast c s) as [[b suf]|] eqn:Hs.
  - intros [= _ <-]. by eapply IH.
  - destruct (Ascii.eqb a c); [|done]. by intros [= _ <-].
Qed.

(** The parser, by the text on each side of the last [@]. *)
Lemma ParseVersionedPath_cases path :
  ParseVersionedPath path =
    match splitLast "@" path with
    | None => (path, noSpec)
    | Some (base, suffix) =>
        if String.eqb suffix "prev" || String.eqb suffix "previous"
        then (base, mkSpec 0 0 true false)
        else match Atoi suffix with
             | Some version =>
                 if version <? 0
                 then (base, mkSpec 0 (wrapInt (- version)) false true)
                 else if 0 <? version then (base, mkSpec version 0 false false)
                 else (path, noSpec)
             | None => (path, noSpec)
             end
    end.
Proof.
  unfold ParseVersionedPath, LastIndex.
  rewrite lastIndexFrom_splitLast by done.
  destruct (splitLast "@" path) as [[base suffix]|] eqn:Hsplit; [|done].
  apply splitLast_app in Hsplit as ->.
  pose proof (len_nonneg base).
  rewrite Z.add_0_l.
  destruct (len base =? -1) eqn:E; [apply Z.eqb_eq in E; lia|].
  simpl negb. cbv iota.
  by rewrite sliceFrom_suffix, slice_base.
Qed.

Lemma Atoi_range s n : Atoi s = Some n → minInt ≤ n ≤ maxInt.
Proof.
  unfold Atoi. destruct (intLiteral s) as [m|]; [|done].
  destruct (_ && _) eqn:Hr; [|done]. intros [= <-].
  apply andb_true_iff in Hr as [H1 H2]. apply Z.leb_le in H1, H2. lia.
Qed.

Lemma wrapInt_opp n :
  minInt ≤ n < 0 →
  (minInt < n ∧ wrapInt (- n) = - n) ∨ (n = minInt ∧ wrapInt (- n) = minInt).
Proof.
  intros Hn. destruct (decide (n = minInt)) as [->|Hne].
  - right. split; [done|]. vm_compute. reflexivity.
  - left. split; [lia|]. apply wrapInt_small. unfold minInt, maxInt in *. lia.
Qed.

(** X6: what [ParseVersionedPath] returns.  Without a selector
    ([HasVersion] is false) the path is returned whole and the
    [VersionSpec] is the zero value.  With a selector the input is the
    returned path, an [@] and a suffix without [@], and the
    [VersionSpec] has exactly one of its three selectors set: [IsPrev]
    for [prev] and [previous], a [Version] between 1 and the largest
    [int], or [IsChangesAgo] with a positive [ChangesAgo] - except for
    the suffix that reads as the least [int], whose negation wraps
    around and leaves [ChangesAgo] negative. *)
Theorem ParseVersionedPath_selector (path : string) :
  let r := ParseVersionedPath path in
  (HasVersion r.2 = false ↔ r = (path, noSpec)) ∧
  (HasVersion r.2 = true →
     ∃ suffix, path = r.1 +:+ "@" +:+ suffix ∧ LastIndex suffix "@" = -1 ∧
       ((r.2 = mkSpec 0 0 true false ∧ (suffix = "prev" ∨ suffix = "previous")) ∨
        (∃ n, Atoi suffix = Some n ∧ 0 < n ≤ maxInt ∧
              r.2 = mkSpec n 0 false false) ∨
        (∃ n, Atoi suffix = Some n ∧ minInt < n < 0 ∧
              r.2 = mkSpec 0 (- n) false true) ∨
        (Atoi suffix = Some minInt ∧ r.2 = mkSpec 0 minInt false true))).
Proof.
  cbv zeta. rewrite ParseVersionedPath_cases.
  destruct (splitLast "@" path) as [[base suffix]|] eqn:Hsplit.
  2: { split; [done|]. cbn. done. }
  pose proof (splitLast_suffix _ _ _ _ Hsplit) as Hsuf.
  assert (LastIndex suffix "@" = -1) as Hidx.
  { unfold LastIndex. rewrite lastIndexFrom_splitLast by done. by rewrite Hsuf. }
  apply splitLast_app in Hsplit as Hpath.
  destruct (String.eqb suffix "prev" || String.eqb suffix "previous") eqn:Hprev.
  { split; [split; [done|]; by intros [= _ ?]|]. intros _. exists suffix.
    split_and!; [done..|]. left. split; [done|].
    apply orb_true_iff in Hprev as [?%String.eqb_eq|?%String.eqb_eq]; auto. }
  destruct (Atoi suffix) as [n|] eqn:Hatoi.
  2: { split; [done|]. cbn. done. }
  pose proof (Atoi_range _ _ Hatoi) as Hrange.
  destruct (n <? 0) eqn:Hneg.
  { apply Z.ltb_lt in Hneg. split; [split; [done|]; by intros [= _ ?]|].
    intros _. exists suffix. split_and!; [done..|]. right. right.
    destruct (wrapInt_opp n) as [[Hn ->]|[-> ->]]; [lia|..].
    - left. exists n. split_and!; [done|lia|lia|done].
    - by right. }
  apply Z.ltb_ge in Hneg.
  destruct (0 <? n) eqn:Hpos.
  { apply Z.ltb_lt in Hpos. split.
    - unfold HasVersion. cbn [snd Version IsPrev IsChangesAgo].
      rewrite (proj2 (Z.ltb_lt 0 n) Hpos). split; [done|].
      intros [= _ ->]. lia.
    - intros _. exists suffix. split_and!; [done..|]. right. left.
      exists n. split_and!; [done|lia|lia|done]. }
  split; [done|]. cbn. done.
Qed.

End MoreVersionReferences.

(** ** More on timelines and past states *)

Section MoreTimelines.
Import Compare Client Timeline Spec Histories.
Context {sorter : SliceSorter}.

Lemma byVersion_StrictWeak :
  StrictWeak (λ a b : VersionInfo, Client.Version b <? Client.Version a).
Proof.
  split.
  - intros a b H%Z.ltb_lt. apply Z.ltb_ge. lia.
  - intros a b c H1%Z.ltb_ge H2%Z.ltb_ge. apply Z.ltb_ge. lia.
Qed.

Lemma byEntryTime_StrictWeak :
  StrictWeak (λ a b : TimelineEntry, Time b <? Time a).
Proof.
  split.
  - intros a b H%Z.ltb_lt. apply Z.ltb_ge. lia.
  - intros a b c H1%Z.ltb_ge H2%Z.ltb_ge. apply Z.ltb_ge. lia.
Qed.

Lemma StronglySorted_impl {A} (R1 R2 : A → A → Prop) (l : list A) :
  (∀ a b, R1 a b → R2 a b) → StronglySorted R1 l → StronglySorted R2 l.
Proof.
  intros HR. induction 1 as [|a l Hl IH Ha]; constructor; [done|].
  eapply Forall_impl; [exact Ha|]. intros b. apply HR.
Qed.

Lemma retained_fold versions acc :
  fold_left (λ result info,
    if negb (Destroyed info) && negb (Deleted info)
    then result ++ [info] else result) versions acc
  = acc ++ filter (λ v, Destroyed v = false ∧ Deleted v = false) versions.
Proof.
  revert acc. induction versions as [|v versions IH]; intros acc.
  - simpl. by rewrite app_nil_r.
  - cbn [fold_left]. rewrite IH, filter_cons.
    destruct (Destroyed v), (Deleted v); cbn [negb andb].
    + by rewrite decide_False by (by intros [? ?]).
    + by rewrite decide_False by (by intros [? ?]).
    + by rewrite decide_False by (by intros [? ?]).
    + rewrite decide_True by done. by rewrite <- app_assoc.
Qed.

(** X7: [GetVersionHistory] returns exactly the versions that are
    neither destroyed nor deleted, the highest version first; a failed
    metadata read is its only error, and a secret without metadata has
    an empty history. *)
Theorem GetVersionHistory_retained (c : Client) (path : string) :
  match metadataVersions c path with
  | Err e => GetVersionHistory c path = Err (ErrReadMetadata path e)
  | Ok None => GetVersionHistory c path = Ok []
  | Ok (Some versions) =>
      ∃ history, GetVersionHistory c path = Ok history ∧
        history ≡ₚ filter (λ v, Destroyed v = false ∧ Deleted v = false) versions ∧
        StronglySorted (λ a b, Client.Version b ≤ Client.Version a) history ∧
        (∀ v, v ∈ history ↔
              v ∈ versions ∧ Destroyed v = false ∧ Deleted v = false)
  end.
Proof.
  unfold GetVersionHistory.
  destruct (metadataVersions c path) as [[versions|]|e]; [|done..].
  rewrite retained_fold, app_nil_l.
  set (kept := filter _ versions).
  pose proof (sortSlice_perm (λ a b : VersionInfo,
                Client.Version b <? Client.Version a) kept) as Hperm.
  eexists. split; [done|]. split_and!; [done| |].
  - eapply StronglySorted_impl;
      [|apply (sortSlice_sorted _ kept byVersion_StrictWeak)].
    intros a b Hb%Z.ltb_ge. done.
  - intros v. rewrite Hperm. unfold kept. rewrite list_elem_of_filter. tauto.
Qed.

(** X8: a timeline that [GetTimeline] returns is not empty, runs from
    the latest entry to the earliest, and holds one entry for each
    retained version of each listed key: the entry carries the key, the
    full path under the directory, the version and its time, and is
    marked as a creation exactly when the version is 1. *)
Theorem GetTimeline_entries (c : Client) (dir : string)
    (timeline : list TimelineEntry) :
  GetTimeline c dir = Ok timeline →
  timeline ≠ [] ∧
  StronglySorted (λ a b, Time b ≤ Time a) timeline ∧
  timeline ≡ₚ
    (keysOf c dir ≫= λ key,
       (λ v, mkTimelineEntry (CreatedTime v) key (dir +:+ "/" +:+ key)
               (Client.Version v) (Client.Version v =? 1))
         <$> historyOf c dir key) ∧
  (∀ e, e ∈ timeline →
     SecretPath e ∈ keysOf c dir ∧
     FullPath e = dir +:+ "/" +:+ SecretPath e ∧
     (IsCreation e = true ↔ EntryVersion e = 1) ∧
     ∃ v, v ∈ historyOf c dir (SecretPath e) ∧
          Client.Version v = EntryVersion e ∧ CreatedTime v = Time e).
Proof.
  rewrite GetTimeline_unfold. unfold keysOf.
  destruct (ListSecretPaths c dir) as [keys|e]; [|done].
  destruct keys as [|key keys]; [done|].
  set (entries := (key :: keys) ≫= _).
  destruct entries as [|e0 entries'] eqn:Hentries; [done|].
  intros [= <-].
  pose proof (sortSlice_perm (λ a b : TimelineEntry, Time b <? Time a)
                (e0 :: entries')) as Hperm.
  split_and!.
  - intros Hnil. rewrite Hnil in Hperm. by apply Permutation_nil_cons in Hperm.
  - eapply StronglySorted_impl;
      [|apply (sortSlice_sorted _ (e0 :: entries') byEntryTime_StrictWeak)].
    intros a b Hb%Z.ltb_ge. done.
  - done.
  - intros e. rewrite Hperm, <- Hentries. unfold entries.
    rewrite list_elem_of_bind. intros (k & He & Hk).
    apply list_elem_of_fmap in He as (v & -> & Hv).
    cbn [SecretPath FullPath IsCreation EntryVersion Time].
    split_and!; [done|done|apply Z.eqb_eq|by exists v].
Qed.

(** *** The walk over the events *)

Lemma changesOf_versions c dir ev :
  ev ∈ changesOf c dir → 1 < version ev ∧ secretPath ev ∈ keysOf c dir.
Proof.
  unfold changesOf. rewrite list_elem_of_bind. intros (k & He & Hk).
  apply list_elem_of_fmap in He as (v & -> & Hv).
  apply list_elem_of_filter in Hv as [Hv _]. done.
Qed.

Lemma lookup_undo pointer ev k :
  undo pointer ev !! k =
    if decide (secretPath ev = k ∧ pointer !! k = Some (version ev))
    then Some (version ev - 1) else pointer !! k.
Proof.
  unfold undo. destruct (decide (secretPath ev = k)) as [<-|Hne].
  - destruct (pointer !! secretPath ev) as [p|] eqn:Hp.
    + destruct (decide (p = version ev)) as [->|Hpv].
      * rewrite decide_True by done. by rewrite lookup_insert_eq.
      * rewrite decide_False by (intros [_ [= ?]]; done). done.
    + rewrite decide_False by (by intros [_ ?]). done.
  - rewrite decide_False by (by intros [? _]).
    destruct (pointer !! secretPath ev) as [p|]; [|done].
    destruct (decide (p = version ev)); [|done].
    by rewrite lookup_insert_ne.
Qed.

(** The walk keeps the keys of the table, never raises a version, never
    takes a version that was at least 1 below 1, and lowers a key by at
    most the number of its events. *)
Lemma undo_bounds l pointer k :
  (∀ ev, ev ∈ l → 1 < version ev) →
  match pointer !! k with
  | None => foldl undo pointer l !! k = None
  | Some p0 =>
      ∃ p, foldl undo pointer l !! k = Some p ∧ p ≤ p0 ∧ (1 ≤ p0 → 1 ≤ p) ∧
        p0 - p ≤ Z.of_nat (length (filter (λ ev, secretPath ev = k) l))
  end.
Proof.
  revert pointer. induction l as [|ev l IH]; intros pointer Hl.
  - cbn [foldl]. destruct (pointer !! k) as [p0|]; [|done].
    exists p0. split_and!; [done|lia|done|simpl; lia].
  - cbn [foldl].
    assert (1 < version ev) as Hev by (apply Hl; by left).
    assert (∀ ev', ev' ∈ l → 1 < version ev') as Hl'
      by (intros ev' H'; apply Hl; by right).
    specialize (IH (undo pointer ev) Hl'). rewrite lookup_undo in IH.
    rewrite filter_cons.
    destruct (decide (secretPath ev = k ∧ pointer !! k = Some (version ev)))
      as [[Hk Hp]|Hno].
    + rewrite Hp. destruct IH as (p & Hfold & Hle & Hone & Hcount).
      exists p. rewrite decide_True by done. cbn [length].
      split_and!; [done|lia|intros _; apply Hone; lia|lia].
    + destruct (pointer !! k) as [p0|]; [|done].
      destruct IH as (p & Hfold & Hle & Hone & Hcount).
      exists p. split_and!; [done..|].
      destruct (decide (secretPath ev = k)); cbn [length]; lia.
Qed.

(** X9: the versions [GetStateAtChangesAgo] reads.  The events it
    collects all have a version above 1 and a listed key.  Walking them
    keeps the keys of the table of current versions; the version it
    reaches for a key is not above the current one, is at least 1 when
    the current one is, and is below the current one by at most the
    depth asked for. *)
Theorem undoChanges_bounds (c : Client) (basePath : string)
    (secretPaths : list string) (changesAgo : Z) (k : string) :
  let changes :=
    sortSlice (λ a b, createdTime b <? createdTime a)
      (collectChanges c basePath secretPaths).1 in
  let current := (collectChanges c basePath secretPaths).2 in
  let reached :=
    undoChanges changesAgo 0 changes
      (map_fold (λ path ver m, <[path := ver]> m) ∅ current) in
  (∀ ev, ev ∈ changes → 1 < version ev ∧ secretPath ev ∈ secretPaths) ∧
  match current !! k with
  | None => reached !! k = None
  | Some p0 =>
      ∃ p, reached !! k = Some p ∧ p ≤ p0 ∧ (1 ≤ p0 → 1 ≤ p) ∧
        p0 - p ≤ Z.max 0 changesAgo
  end.
Proof.
  cbv zeta. unfold collectChanges. rewrite collectChanges_fold, app_nil_l.
  cbn [fst snd]. set (changes := secretPaths ≫= _).
  assert (∀ ev, ev ∈ sortSlice (λ a b, createdTime b <? createdTime a) changes →
            1 < version ev ∧ secretPath ev ∈ secretPaths) as Hev.
  { intros ev. rewrite sortSlice_perm. unfold changes.
    rewrite list_elem_of_bind. intros (key & He & Hkey).
    apply list_elem_of_fmap in He as (v & -> & Hv).
    apply list_elem_of_filter in Hv as [Hv _]. done. }
  split; [done|].
  rewrite map_copy, undoChanges_foldl, Z.sub_0_r.
  set (walked := take _ _).
  assert (∀ ev, ev ∈ walked → 1 < version ev) as Hwalked.
  { intros ev Hin. apply Hev. by eapply subseteq_take. }
  pose proof (undo_bounds walked (foldl (recordCurrent c basePath) ∅ secretPaths)
                k Hwalked) as H.
  destruct (foldl (recordCurrent c basePath) ∅ secretPaths !! k) as [p0|]; [|done].
  destruct H as (p & Hp & Hle & Hone & Hcount).
  exists p. split_and!; [done..|].
  pose proof (length_filter (λ ev, secretPath ev = k) walked) as Hf.
  assert (length walked ≤ Z.to_nat changesAgo)%nat as Hlen.
  { unfold walked. rewrite length_take. lia. }
  lia.
Qed.

(** X10: a depth that is not positive is read as depth 0: the index loop
    of [GetStateAtChangesAgo] does not start, so the call gives what
    depth 0 gives, with the depth asked for in the message of the last
    error.  The reference [@-9223372036854775808] asks for such a depth:
    the negation of the least [int] wraps around to itself. *)
Theorem GetStateAtChangesAgo_nonpositive_depth (c : Client) (dir : string) :
  (∀ N, N ≤ 0 →
     GetStateAtChangesAgo c dir N =
       match GetStateAtChangesAgo c dir 0 with
       | Err (ErrNoSecretsAtChangesAgo _) => Err (ErrNoSecretsAtChangesAgo N)
       | r => r
       end) ∧
  ParseVersionedPath (dir +:+ "@" +:+ "-9223372036854775808")
    = (dir, mkSpec 0 Go.minInt false true) ∧
  Go.minInt ≤ 0.
Proof.
  split_and!.
  - intros N HN. rewrite !GetStateAtChangesAgo_unfold.
    destruct (ListSecretPaths c dir) as [[|key keys]|e]; [done| |done].
    destruct (decide (totalChanges c dir = 0)); [done|].
    assert (0 ≤ totalChanges c dir) by (unfold totalChanges; lia).
    rewrite !(decide_False (P := totalChanges c dir < _)) by lia.
    unfold pointersAt. replace (Z.to_nat N) with (Z.to_nat 0) by lia.
    by destruct (decide _).
  - rewrite ParseVersionedPath_cases.
    rewrite (splitLast_at dir "-9223372036854775808" eq_refl).
    vm_compute. reflexivity.
  - vm_compute. discriminate.
Qed.

(** *** Regular histories *)

Lemma GetStateAtChangesAgo_within c dir N :
  1 ≤ totalChanges c dir → N ≤ totalChanges c dir →
  GetStateAtChangesAgo c dir N =
    if decide (stateAt c dir (pointersAt c dir N) = ∅)
    then Err (ErrNoSecretsAtChangesAgo N)
    else Ok (stateAt c dir (pointersAt c dir N)).
Proof.
  intros Htotal HN. rewrite GetStateAtChangesAgo_unfold.
  destruct (ListSecretPaths c dir) as [[|key keys]|e] eqn:Hlist.
  - unfold totalChanges, changesOf, keysOf in Htotal.
    rewrite Hlist in Htotal. cbn in Htotal. lia.
  - rewrite decide_False by lia. rewrite decide_False by lia. done.
  - unfold totalChanges, changesOf, keysOf in Htotal.
    rewrite Hlist in Htotal. cbn in Htotal. lia.
Qed.

Lemma StronglySorted_filter {A} (R : A → A → Prop) (P : A → Prop)
    `{!∀ x, Decision (P x)} (l : list A) :
  StronglySorted R l → StronglySorted R (filter P l).
Proof.
  induction 1 as [|a l Hl IH Ha]; [constructor|].
  rewrite filter_cons. destruct (decide (P a)); [|done].
  constructor; [done|]. rewrite Forall_forall in Ha. apply Forall_forall.
  intros b Hb%list_elem_of_filter. apply Ha, Hb.
Qed.

Lemma strictly_later_unique {A} (t : A → Z) (l : list A) x y :
  StronglySorted (λ a b, t b < t a) l → x ∈ l → y ∈ l → t x = t y → x = y.
Proof.
  induction 1 as [|a l Hl IH Ha]; [by intros ?%elem_of_nil|].
  rewrite Forall_forall in Ha.
  intros [->|Hx]%elem_of_cons [->|Hy]%elem_of_cons Heq; [done| | |by apply IH].
  - specialize (Ha y Hy). lia.
  - specialize (Ha x Hx). lia.
Qed.

Lemma later_first_unique {A} (t : A → Z) (l1 l2 : list A) :
  StronglySorted (λ a b, t b ≤ t a) l1 →
  StronglySorted (λ a b, t b < t a) l2 →
  l1 ≡ₚ l2 → l1 = l2.
Proof.
  intros H1 H2 Hperm.
  apply (StronglySorted_unique_strong (λ a b, t b ≤ t a)); [|done| |done].
  - intros x1 x2 Hx1 Hx2 Ha Hb. rewrite Hperm in Hx1.
    apply (strictly_later_unique t l2); [done..|lia].
  - eapply StronglySorted_impl; [|exact H2]. intros a b. cbn. lia.
Qed.

Lemma filter_bind_key (keys : list string) (f : string → list changeEvent) k :
  NoDup keys →
  (∀ key ev, ev ∈ f key → secretPath ev = key) →
  filter (λ ev, secretPath ev = k) (keys ≫= f)
  = if decide (k ∈ keys) then f k else [].
Proof.
  intros Hnodup Hf. induction keys as [|key keys IH]; [done|].
  apply NoDup_cons in Hnodup as [Hnotin Hnodup].
  rewrite bind_cons, filter_app, IH by done.
  destruct (decide (key = k)) as [->|Hne].
  - rewrite (decide_False (P := k ∈ keys)) by done.
    rewrite (decide_True (P := k ∈ k :: keys)) by (by left).
    rewrite app_nil_r. apply filter_all. intros ev. apply Hf.
  - rewrite filter_none.
    + destruct (decide (k ∈ keys)).
      * by rewrite decide_True by (by right).
      * by rewrite decide_False by (intros [?|?]%elem_of_cons; done).
    + intros ev Hev Hk. apply Hf in Hev. congruence.
Qed.

Lemma length_countDown hi n : length (countDown hi n) = n.
Proof. revert hi. induction n as [|n IH]; intros hi; simpl; [done|by rewrite IH]. Qed.

Lemma take_countDown j hi m :
  take j (countDown hi m) = countDown hi (j `min` m).
Proof.
  revert hi m. induction j as [|j IH]; intros hi [|m]; simpl; try done.
  by rewrite IH.
Qed.

(** The changes of a contiguous history: its versions above 1. *)
Lemma changes_countDown (history : list VersionInfo) hi n :
  Client.Version <$> history = countDown hi n →
  Client.Version <$> filter (λ v, 1 < Client.Version v) history
  = countDown hi (n `min` Z.to_nat (hi - 1)).
Proof.
  revert hi n. induction history as [|v history IH]; intros hi [|n]; try done.
  rewrite fmap_cons. cbn [countDown]. intros [= Hv Hrest].
  rewrite filter_cons. specialize (IH _ _ Hrest).
  destruct (decide (1 < Client.Version v)) as [Hlt|Hge].
  - rewrite fmap_cons, IH, Hv.
    replace (S n `min` Z.to_nat (hi - 1))%nat
      with (S (n `min` Z.to_nat (hi - 1 - 1))) by lia.
    done.
  - rewrite IH.
    replace (n `min` Z.to_nat (hi - 1 - 1))%nat with 0%nat by lia.
    replace (S n `min` Z.to_nat (hi - 1))%nat with 0%nat by lia.
    done.
Qed.

(** In a regular directory the events of a key come in the stream in
    the order of their versions, the highest first. *)
Lemma events_of_key c dir k newest rest :
  regular c dir → k ∈ keysOf c dir →
  historyOf c dir k = newest :: rest →
  version <$> filter (λ ev, secretPath ev = k) (eventStream c dir)
  = countDown (Client.Version newest)
      (length (newest :: rest) `min` Z.to_nat (Client.Version newest - 1)).
Proof.
  intros [Hnodup Hreg] Hk Hhist.
  destruct (Hreg k Hk) as [Hcont Hlater]. rewrite Hhist in Hcont, Hlater.
  set (events := (λ v, mkChangeEvent k (Client.Version v) (CreatedTime v))
                   <$> filter (λ v, 1 < Client.Version v) (newest :: rest)).
  assert (filter (λ ev, secretPath ev = k) (eventStream c dir) = events) as ->.
  { apply (later_first_unique createdTime).
    - apply StronglySorted_filter, eventStream_descending.
    - unfold events.
      apply (StronglySorted_fmap _ (λ a b, CreatedTime b < CreatedTime a));
        [done|]. by apply StronglySorted_filter.
    - rewrite (proj1 (eventStream_descending c dir)). unfold changesOf.
      rewrite filter_bind_key; [|done|].
      + rewrite decide_True by done. by rewrite Hhist.
      + intros key ev (v & -> & _)%list_elem_of_fmap. done. }
  unfold events. rewrite <- list_fmap_compose.
  by apply (changes_countDown (newest :: rest)).
Qed.

(** A walk over events among which those of [k] count down from the
    version [k] is at lowers [k] once for each of them. *)
Lemma walk_key l pointer k p m :
  pointer !! k = Some p →
  version <$> filter (λ ev, secretPath ev = k) l = countDown p m →
  foldl undo pointer l !! k = Some (p - Z.of_nat m).
Proof.
  revert pointer p m. induction l as [|ev l IH]; intros pointer p m Hp.
  - destruct m; [|done]. intros _. cbn [foldl]. rewrite Hp. f_equal. lia.
  - rewrite filter_cons. cbn [foldl].
    destruct (decide (secretPath ev = k)) as [Hk|Hk].
    + destruct m as [|m]; [done|]. rewrite fmap_cons. cbn [countDown].
      intros [= Hv Hrest].
      rewrite (IH (undo pointer ev) (p - 1) m); [f_equal; lia| |done].
      rewrite lookup_undo, decide_True; [by rewrite Hv|].
      split; [done|]. by rewrite Hv.
    + intros Hrest. apply IH; [|done].
      rewrite lookup_undo, decide_False; [done|]. by intros [? _].
Qed.

Lemma filter_take_prefix {A} (P : A → Prop) `{!∀ x, Decision (P x)}
    (n : nat) (l : list A) :
  filter P (take n l) = take (length (filter P (take n l))) (filter P l).
Proof.
  rewrite <- (take_drop n l) at 3. rewrite filter_app.
  by rewrite take_app_length.
Qed.

Lemma current_newest c dir k cur :
  currentVersions c dir !! k = Some cur →
  k ∈ keysOf c dir ∧
  ∃ newest rest, historyOf c dir k = newest :: rest ∧
    cur = Client.Version newest.
Proof.
  rewrite lookup_currentVersions.
  destruct (decide (k ∈ keysOf c dir)); [|done].
  destruct (historyOf c dir k) as [|newest rest]; [done|].
  intros [= <-]. split; [done|]. by exists newest, rest.
Qed.

(** X11: in a directory whose histories are regular (no key is listed
    twice, the retained versions of a key are consecutive, and a higher
    version was written later), the version the walk reaches for a key
    after [N] events is its current version less the number of its own
    events among those [N]; [GetStateAtChangesAgo] reads the keys at
    these versions. *)
Theorem pointer_walk_counts (c : Client) (dir : string) (N : Z) :
  regular c dir →
  (∀ k cur, currentVersions c dir !! k = Some cur →
     pointersAt c dir N !! k
     = Some (cur - Z.of_nat (length (eventsOf c dir k N)))) ∧
  (1 ≤ N ≤ totalChanges c dir →
   GetStateAtChangesAgo c dir N =
     if decide (stateAt c dir (pointersAt c dir N) = ∅)
     then Err (ErrNoSecretsAtChangesAgo N)
     else Ok (stateAt c dir (pointersAt c dir N))).
Proof.
  intros Hreg. split.
  - intros k cur Hcur.
    destruct (current_newest _ _ _ _ Hcur) as (Hk & newest & rest & Hhist & ->).
    unfold pointersAt, eventsOf. apply walk_key; [done|].
    rewrite filter_take_prefix, fmap_take.
    rewrite (events_of_key c dir k newest rest Hreg Hk Hhist).
    rewrite take_countDown. f_equal.
    rewrite length_take, <- (length_fmap version (filter _ (eventStream c dir))).
    rewrite (events_of_key c dir k newest rest Hreg Hk Hhist).
    by rewrite length_countDown.
  - intros HN. apply GetStateAtChangesAgo_within; lia.
Qed.

(** X12: in a regular directory whose histories go down to version 1,
    going back by all the recorded changes reaches version 1 of every
    key that has a history, and [GetStateAtChangesAgo] at that depth
    reads every such key at version 1. *)
Theorem pointer_walk_reaches_first (c : Client) (dir : string) :
  regular c dir →
  (∀ key, key ∈ keysOf c dir → reachesFirst (historyOf c dir key)) →
  pointersAt c dir (totalChanges c dir) = (λ _, 1) <$> currentVersions c dir ∧
  (1 ≤ totalChanges c dir →
   GetStateAtChangesAgo c dir (totalChanges c dir) =
     let first := (λ _, 1) <$> currentVersions c dir in
     if decide (stateAt c dir first = ∅)
     then Err (ErrNoSecretsAtChangesAgo (totalChanges c dir))
     else Ok (stateAt c dir first)).
Proof.
  intros Hreg Hfirst.
  assert (pointersAt c dir (totalChanges c dir)
          = (λ _, 1) <$> currentVersions c dir) as Hall.
  { apply map_eq. intros k. rewrite lookup_fmap.
    destruct (currentVersions c dir !! k) as [cur|] eqn:Hcur.
    - destruct (current_newest _ _ _ _ Hcur)
        as (Hk & newest & rest & Hhist & ->).
      unfold pointersAt.
      rewrite take_ge.
      2: { unfold totalChanges.
           rewrite (Permutation_length (proj1 (eventStream_descending c dir))).
           lia. }
      rewrite (walk_key _ _ k (Client.Version newest)
                 (length (newest :: rest)
                    `min` Z.to_nat (Client.Version newest - 1)) Hcur).
      + specialize (Hfirst k Hk). rewrite Hhist in Hfirst.
        unfold reachesFirst in Hfirst. cbn [fmap option_fmap option_map].
        f_equal. cbn [length] in *. lia.
      + by apply events_of_key.
    - pose proof (undo_bounds
                    (take (Z.to_nat (totalChanges c dir)) (eventStream c dir))
                    (currentVersions c dir) k) as H.
      rewrite Hcur in H. apply H. intros ev Hev%subseteq_take.
      rewrite (proj1 (eventStream_descending c dir)) in Hev.
      apply changesOf_versions in Hev. apply Hev. }
  split; [done|]. intros Htotal. cbv zeta. rewrite <- Hall.
  apply GetStateAtChangesAgo_within; lia.
Qed.

End MoreTimelines.

(** ** More on snapshots and their restore *)

Section MoreRestoring.
Import Compare Client Snapshot Backups.

(** *** A dry run *)

Lemma writeSnapshotSecret_dry {S} (c : Store S) opts fullPath relPath secret st :
  DryRun opts = true →
  writeSnapshotSecret c opts fullPath relPath secret st = Continue st.
Proof. unfold writeSnapshotSecret. by intros ->. Qed.

Lemma restoreSecret_dry {S} (c : Store S) opts target st entry :
  DryRun opts = true →
  storeAfter c (restoreSecret c opts target st entry) = store st.
Proof.
  intros Hdry. unfold restoreSecret.
  rewrite !writeSnapshotSecret_dry by done.
  cbn [store currentSet result].
  destruct (Verify opts && _);
    [destruct (GetMetadata c (store st) _) as [[metadata|]|e];
       [destruct (negb _)|..]|];
    try done;
    destruct (bool_decide _); try done;
    destruct (ReadSecretRaw c (store st) _) as [currentData|e'];
    try done; by destruct (String.eqb _ _).
Qed.

Lemma deleteExtra_dry {S} (c : Store S) opts target st relPath :
  DryRun opts = true →
  storeAfter c (deleteExtra c opts target st relPath) = store st.
Proof. intros Hdry. unfold deleteExtra. by rewrite Hdry. Qed.

Lemma rangeOver_dry {S A} (c : Store S) (body : restoreState → A → step) l st :
  (∀ st x, storeAfter c (body st x) = store st) →
  storeAfter c (rangeOver body l st) = store st.
Proof.
  intros Hbody. revert st. induction l as [|x l IH]; intros st; [done|].
  cbn [rangeOver]. specialize (Hbody st x).
  destruct (body st x) as [st'|s' e]; [|done].
  rewrite IH. done.
Qed.

(** X13: a dry run writes and deletes nothing, whatever the store
    answers and whether or not the run fails; on the store kept in
    memory it reports the plan the real run reports. *)
Theorem RestoreSnapshot_dry_run :
  (∀ (S : Type) (c : Store S) (s : S) snapshot target opts,
     DryRun opts = true →
     (RestoreSnapshot c s snapshot target opts).1 = s) ∧
  (∀ (s : gmap string entry) snapshot target verify deleteExtra,
     (RestoreSnapshot memStore s snapshot target
        (mkRestoreOptions true verify deleteExtra)).2
     = (RestoreSnapshot memStore s snapshot target
          (mkRestoreOptions false verify deleteExtra)).2).
Proof.
  split.
  - intros S c s snapshot target opts Hdry. unfold RestoreSnapshot.
    set (st0 := mkRestoreState s _ _).
    pose proof (rangeOver_dry c (restoreSecret c opts target)
                  (map_to_list (Secrets snapshot)) st0
                  (λ st x, restoreSecret_dry c opts target st x Hdry)) as H1.
    destruct (rangeOver (restoreSecret c opts target) _ st0) as [st1|s1 e1];
      [|done].
    cbn [storeAfter store] in H1. subst st0. cbn [store] in H1.
    destruct (DeleteExtra opts); [|done].
    pose proof (rangeOver_dry c (deleteExtra c opts target)
                  (elements (currentSet st1)) st1
                  (λ st x, deleteExtra_dry c opts target st x Hdry)) as H2.
    destruct (rangeOver (deleteExtra c opts target) _ st1) as [st2|s2 e2];
      cbn [storeAfter fst] in *; congruence.
  - intros s snapshot target verify deleteExtra.
    rewrite !RestoreSnapshot_mem. cbv zeta.
    cbn [DryRun Verify DeleteExtra]. by destruct deleteExtra.
Qed.

(** *** The plan and the store after a run *)

Lemma classes_partition verify (s : gmap string entry) target entries :
  keysOfClass CAdded verify s target entries
  ++ keysOfClass CUpdated verify s target entries
  ++ keysOfClass CUnchanged verify s target entries
  ++ keysOfClass CSkipped verify s target entries ≡ₚ entries.*1.
Proof.
  unfold keysOfClass. induction entries as [|kv entries IH]; [done|].
  rewrite !filter_cons, fmap_cons.
  set (A := (filter (λ kv, classify verify s target kv = CAdded) entries).*1) in *.
  set (U := (filter (λ kv, classify verify s target kv = CUpdated) entries).*1) in *.
  set (N := (filter (λ kv, classify verify s target kv = CUnchanged) entries).*1) in *.
  set (K := (filter (λ kv, classify verify s target kv = CSkipped) entries).*1) in *.
  rewrite <- IH.
  destruct (classify verify s target kv) eqn:Hclass;
    repeat case_decide; try done;
    rewrite ?fmap_cons; fold A U N K; cbn [app].
  - by rewrite <- Permutation_middle.
  - by rewrite (app_assoc A U), <- Permutation_middle, <- app_assoc.
  - rewrite (app_assoc U N), (app_assoc A), <- Permutation_middle.
    by rewrite <- !app_assoc.
Qed.

Lemma classify_no_verify (s : gmap string entry) target kv :
  classify false s target kv ≠ CSkipped.
Proof.
  unfold classify. destruct (s !! _); [|done]. cbn [andb].
  by destruct (String.eqb _ _).
Qed.

Lemma classify_added verify (s : gmap string entry) target kv :
  classify verify s target kv = CAdded ↔ s !! fullPathOf target kv.1 = None.
Proof.
  unfold classify. destruct (s !! _) as [e|]; [|done].
  destruct (verify && _); [done|]. by destruct (String.eqb _ _).
Qed.

(** X14: the plan of a run on the store kept in memory.  Every key of
    the snapshot is in exactly one of [Added], [Updated], [Unchanged]
    and [Skipped]; [Added] holds the keys the target does not have;
    without [Verify] nothing is skipped; [Deleted] holds the paths of
    the target that the snapshot does not have when [DeleteExtra] is
    set and is empty otherwise; [TotalChanges] counts the three lists
    of changes and [HasChanges] tells whether it is positive. *)
Theorem RestoreSnapshot_plan (s : gmap string entry) (snapshot : Snapshot)
    (target : string) (opts : RestoreOptions) :
  ∃ s' plan,
    RestoreSnapshot memStore s snapshot target opts = (s', Ok plan) ∧
    Added plan ++ Updated plan ++ Unchanged plan ++ Skipped plan
      ≡ₚ (map_to_list (Secrets snapshot)).*1 ∧
    NoDup (Added plan ++ Updated plan ++ Unchanged plan ++ Skipped plan
           ++ Deleted plan) ∧
    (∀ k, k ∈ Added plan ↔
          is_Some (Secrets snapshot !! k) ∧ s !! fullPathOf target k = None) ∧
    (Verify opts = false → Skipped plan = []) ∧
    (∀ k, k ∈ Deleted plan ↔
          DeleteExtra opts = true ∧ is_Some (s !! fullPathOf target k) ∧
          Secrets snapshot !! k = None) ∧
    TotalChanges plan
      = Z.of_nat (length (Added plan ++ Updated plan ++ Deleted plan)) ∧
    (HasChanges plan = true ↔ 0 < TotalChanges plan).
Proof.
  rewrite RestoreSnapshot_mem. cbv zeta.
  set (entries := map_to_list (Secrets snapshot)).
  pose proof (recordEntries_lists (Verify opts) s target entries
                (mkRestoreResult [] [] [] [] [])) as Hlists.
  cbv zeta in Hlists. cbn [Added Updated Deleted Unchanged Skipped app] in Hlists.
  destruct Hlists as (HA & HU & HD & HN & HS).
  set (recorded := recordEntries _ _ _ _ _) in *.
  set (extra := extraPaths s target entries).
  set (plan := if DeleteExtra opts then recordDeleted extra recorded else recorded).
  assert (Added plan = Added recorded ∧ Updated plan = Updated recorded ∧
          Unchanged plan = Unchanged recorded ∧ Skipped plan = Skipped recorded ∧
          Deleted plan = if DeleteExtra opts then extra else [])
    as (PA & PU & PN & PS & PD).
  { unfold plan. destruct (DeleteExtra opts); [|done].
    unfold recordDeleted. cbn [Added Updated Deleted Unchanged Skipped].
    by rewrite HD. }
  assert (Added plan ++ Updated plan ++ Unchanged plan ++ Skipped plan
          ≡ₚ entries.*1) as Hpart.
  { rewrite PA, PU, PN, PS, HA, HU, HN, HS. apply classes_partition. }
  assert (∀ k, k ∈ Deleted plan ↔
            DeleteExtra opts = true ∧ is_Some (s !! fullPathOf target k) ∧
            Secrets snapshot !! k = None) as Hdel.
  { intros k. rewrite PD. destruct (DeleteExtra opts).
    - unfold extra. rewrite elem_of_extraPaths. unfold entries.
      rewrite elem_of_snapshot_keys, <- eq_None_not_Some. tauto.
    - split; [by intros ?%elem_of_nil|by intros [? _]]. }
  exists (if DeleteExtra opts
          then (if DryRun opts
                then (if DryRun opts then s
                      else foldl (writeTo target) s
                             (writtenEntries (Verify opts) s target entries))
                else foldl (deleteAt target)
                       (if DryRun opts then s
                        else foldl (writeTo target) s
                               (writtenEntries (Verify opts) s target entries))
                       extra)
          else (if DryRun opts then s
                else foldl (writeTo target) s
                       (writtenEntries (Verify opts) s target entries))), plan.
  split_and!.
  - unfold plan. by destruct (DeleteExtra opts).
  - done.
  - rewrite !app_assoc. apply NoDup_app. split_and!.
    + rewrite <- !app_assoc, Hpart. apply NoDup_fst_map_to_list.
    + intros k Hk. rewrite <- !app_assoc, Hpart in Hk.
      rewrite Hdel. unfold entries in Hk. apply elem_of_snapshot_keys in Hk.
      intros (_ & _ & Hnone). rewrite Hnone in Hk. by destruct Hk.
    + rewrite PD. destruct (DeleteExtra opts); [|constructor].
      apply NoDup_elements.
  - intros k. rewrite PA, HA. unfold entries.
    rewrite elem_of_keysOfClass. split.
    + intros (secret & Hk & Hclass). apply classify_added in Hclass.
      split; [by eexists|done].
    + intros [[secret Hk] Hnone]. exists secret. split; [done|].
      by apply classify_added.
  - intros Hverify. rewrite PS, HS, Hverify. unfold keysOfClass.
    rewrite filter_none; [done|]. intros kv _. apply classify_no_verify.
  - done.
  - unfold TotalChanges. rewrite !length_app. lia.
  - unfold HasChanges, TotalChanges.
    destruct (Added plan), (Updated plan), (Deleted plan); cbn; split;
      try done; lia.
Qed.

Lemma writes_keep target (s : gmap string entry) W q :
  is_Some (s !! q) → is_Some (foldl (writeTo target) s W !! q).
Proof.
  revert s. induction W as [|kv W IH]; intros s Hs; [done|].
  cbn [foldl]. apply IH. unfold writeTo.
  destruct (decide (fullPathOf target kv.1 = q)) as [<-|Hne].
  - rewrite lookup_insert_eq. by eexists.
  - by rewrite lookup_insert_ne.
Qed.

(** X15: a run on the store kept in memory touches nothing outside
    the target directory, and without [DeleteExtra] it removes nothing:
    every path the store held is still there, and a path of the target
    that the snapshot does not have keeps its entry. *)
Theorem RestoreSnapshot_stays_in_target (s : gmap string entry)
    (snapshot : Snapshot) (target : string) (opts : RestoreOptions) :
  let s' := (RestoreSnapshot memStore s snapshot target opts).1 in
  (∀ q, (∀ rel, q ≠ fullPathOf target rel) → s' !! q = s !! q) ∧
  (DeleteExtra opts = false →
   (∀ q, is_Some (s !! q) → is_Some (s' !! q)) ∧
   (∀ rel, Secrets snapshot !! rel = None →
      s' !! fullPathOf target rel = s !! fullPathOf target rel)).
Proof.
  cbv zeta. rewrite RestoreSnapshot_mem. cbv zeta.
  set (entries := map_to_list (Secrets snapshot)).
  set (W := writtenEntries (Verify opts) s target entries).
  split.
  - intros q Hq.
    assert (foldl (writeTo target) s W !! q = s !! q) as HW.
    { apply lookup_writes_other. intros kv _ Heq. by apply (Hq kv.1). }
    destruct (DeleteExtra opts), (DryRun opts); cbn [fst]; try done.
    rewrite lookup_deletes_other; [done|]. intros r _ Heq. by apply (Hq r).
  - intros ->. cbn [fst]. split.
    + intros q Hq. destruct (DryRun opts); [done|]. by apply writes_keep.
    + intros rel Hrel. destruct (DryRun opts); [done|].
      apply lookup_writes_other. intros kv Hkv Heq%fullPathOf_inj.
      unfold W, writtenEntries in Hkv. apply list_elem_of_filter in Hkv as [_ Hkv].
      destruct kv as [k secret]. apply elem_of_map_to_list in Hkv.
      cbn [fst] in Heq. subst k. congruence.
Qed.

(** X16: a run with [DeleteExtra], without [Verify] and not dry makes
    the target directory mirror the snapshot: a key of the snapshot is
    in the target with a value that prints as the value of the snapshot
    does, and a path the snapshot does not have is not in the target. *)
Theorem RestoreSnapshot_mirrors (s : gmap string entry) (snapshot : Snapshot)
    (target : string) (rel : string) :
  let s' := (RestoreSnapshot memStore s snapshot target
               (mkRestoreOptions false false true)).1 in
  match Secrets snapshot !! rel with
  | Some secret =>
      ∃ e, s' !! fullPathOf target rel = Some e ∧
        Sprintv (unwrapValue (entryData e)) = Sprintv (snapshotValueOf secret)
  | None => s' !! fullPathOf target rel = None
  end.
Proof.
  cbv zeta. rewrite RestoreSnapshot_mem. cbv zeta.
  cbn [DryRun Verify DeleteExtra fst].
  set (entries := map_to_list (Secrets snapshot)).
  destruct (Secrets snapshot !! rel) as [secret|] eqn:Hrel.
  - pose proof (lookup_after_run snapshot false s target rel secret Hrel) as H.
    cbv zeta in H. fold entries in H.
    destruct (classify false s target (rel, secret)) eqn:Hclass;
      cbn [isWritten] in H.
    + destruct H as [ver H]. eexists. split; [exact H|].
      cbn [entryData]. by rewrite unwrapValue_dataOf.
    + destruct H as [ver H]. eexists. split; [exact H|].
      cbn [entryData]. by rewrite unwrapValue_dataOf.
    + rewrite H. unfold classify in Hclass. cbn [fst snd andb] in Hclass.
      destruct (s !! fullPathOf target rel) as [e|]; [|done].
      exists e. split; [done|].
      destruct (String.eqb _ _) eqn:Heq; [|done]. by apply String.eqb_eq.
    + by apply classify_no_verify in Hclass.
  - destruct (s !! fullPathOf target rel) as [e|] eqn:Hs.
    + apply lookup_deletes_in, elem_of_extraPaths. split; [by eexists|].
      unfold entries. rewrite elem_of_snapshot_keys, Hrel. by intros [? ?].
    + apply lookup_deletes_None. rewrite lookup_writes_other; [done|].
      intros kv Hkv Heq%fullPathOf_inj.
      apply list_elem_of_filter in Hkv as [_ Hkv].
      destruct kv as [k secret]. apply elem_of_map_to_list in Hkv.
      cbn [fst] in Heq. subst k. congruence.
Qed.

(** *** Taking a snapshot *)

Lemma readSecrets_mem (s : gmap string entry) path secretPaths secrets :
  (∀ rel, rel ∈ secretPaths → is_Some (s !! fullPathOf path rel)) →
  ∃ secrets',
    readSecrets memStore s path secretPaths secrets = Ok secrets' ∧
    ∀ k, secrets' !! k =
      if decide (k ∈ secretPaths) then secretOf <$> s !! fullPathOf path k
      else secrets !! k.
Proof.
  revert secrets. induction secretPaths as [|rel secretPaths IH];
    intros secrets Hin.
  - exists secrets. split; [done|]. intros k. by rewrite decide_False by apply not_elem_of_nil.
  - cbn [readSecrets memStore ReadSecretRaw GetMetadata].
    destruct (Hin rel) as [e He]; [by left|].
    unfold fullPathOf in He. rewrite He. cbn [fmap option_fmap option_map default].
    cbn [CurrentVersion UpdatedTime].
    destruct (IH (<[rel := mkSnapshotSecret (unwrapValue (entryData e))
                             (entryVersion e) 0]> secrets))
      as (secrets' & Hread & Hlookup).
    { intros r Hr. apply Hin. by right. }
    exists secrets'. split; [done|]. intros k. rewrite Hlookup.
    destruct (decide (k ∈ secretPaths)) as [Hk|Hk].
    + by rewrite decide_True by (by right).
    + destruct (decide (k = rel)) as [->|Hne].
      * rewrite decide_True by (by left). rewrite lookup_insert_eq.
        unfold fullPathOf. by rewrite He.
      * rewrite decide_False by (intros [?|?]%elem_of_cons; done).
        by rewrite lookup_insert_ne.
Qed.

Lemma CreateSnapshot_lookup (s : gmap string entry) (path : string) (now : Z) :
  (listed s path = [] →
   CreateSnapshot memStore s path now = Err (ErrNoSecretsAt path)) ∧
  (listed s path ≠ [] →
   ∃ secrets,
     CreateSnapshot memStore s path now = Ok (mkSnapshot path now secrets) ∧
     ∀ k, secrets !! k = secretOf <$> s !! fullPathOf path k).
Proof.
  unfold CreateSnapshot. cbn [memStore ListSecretPaths]. fold (listed s path).
  split.
  - by intros ->.
  - intros Hne.
    destruct (Z.of_nat (length (listed s path)) =? 0) eqn:E.
    { apply Z.eqb_eq in E. destruct (listed s path); [done|]. cbn in E. lia. }
    destruct (readSecrets_mem s path (listed s path) ∅)
      as (secrets & Hread & Hlookup).
    { intros rel. by rewrite elem_of_listed. }
    change (mkStore _ _ _ _ _ _) with memStore. rewrite Hread.
    exists secrets. split; [done|]. intros k. rewrite Hlookup.
    destruct (decide (k ∈ listed s path)) as [Hk|Hk]; [done|].
    rewrite lookup_empty. rewrite elem_of_listed in Hk.
    apply eq_None_not_Some in Hk. by rewrite Hk.
Qed.

(** X17: [CreateSnapshot] on the store kept in memory.  It fails when
    nothing is listed under the path; otherwise the snapshot carries
    the path and the time, and holds exactly the listed secrets, each
    with its unwrapped value and its current version. *)
Theorem CreateSnapshot_holds_listed (s : gmap string entry) (path : string)
    (now : Z) :
  (listed s path = [] →
   CreateSnapshot memStore s path now = Err (ErrNoSecretsAt path)) ∧
  (listed s path ≠ [] →
   ∃ secrets,
     CreateSnapshot memStore s path now = Ok (mkSnapshot path now secrets) ∧
     (∀ k, secrets !! k = secretOf <$> s !! fullPathOf path k) ∧
     (∀ k, k ∈ dom secrets ↔ k ∈ listed s path)).
Proof.
  destruct (CreateSnapshot_lookup s path now) as [Hnone Hsome].
  split; [done|]. intros Hne.
  destruct (Hsome Hne) as (secrets & Hcreate & Hlookup).
  exists secrets. split_and!; [done..|].
  intros k. rewrite elem_of_dom, Hlookup, elem_of_listed.
  by rewrite fmap_is_Some.
Qed.

Lemma CreateSnapshot_inv (s : gmap string entry) path now snap :
  CreateSnapshot memStore s path now = Ok snap →
  ∀ k, Secrets snap !! k = secretOf <$> s !! fullPathOf path k.
Proof.
  intros Hcreate. destruct (CreateSnapshot_lookup s path now) as [Hnone Hsome].
  destruct (decide (listed s path = [])) as [Hnil|Hne].
  - rewrite (Hnone Hnil) in Hcreate. done.
  - destruct (Hsome Hne) as (secrets & Hcreate' & Hlookup).
    rewrite Hcreate' in Hcreate. by injection Hcreate as <-.
Qed.

Lemma singleton_of_size (m : gmap string Any) i x :
  m !! i = Some x → size m = 1%nat → m = {[i := x]}.
Proof.
  intros Hi Hsize. rewrite <- (insert_delete_id m i x Hi).
  assert (delete i m = ∅) as ->; [|done].
  apply map_size_empty_iff. rewrite map_size_delete_Some by (by eexists). lia.
Qed.

Lemma unwrapValue_singleton v : unwrapValue {["value" := v]} = v.
Proof.
  unfold unwrapValue. rewrite lookup_singleton_eq, map_size_singleton. done.
Qed.

Lemma unwrapValue_cases d :
  (∃ v, d = {["value" := v]} ∧ unwrapValue d = v) ∨
  (unwrapValue d = VMap d ∧ ∀ v, d ≠ {["value" := v]}).
Proof.
  unfold unwrapValue. destruct (d !! "value") as [v|] eqn:Hv.
  - destruct (Z.of_nat (size d) =? 1) eqn:Hsize.
    + left. exists v. split; [|done]. apply singleton_of_size; [done|].
      apply Z.eqb_eq in Hsize. lia.
    + right. split; [done|]. intros v' ->.
      rewrite map_size_singleton in Hsize. done.
  - right. split; [done|]. intros v' ->.
    by rewrite lookup_singleton_eq in Hv.
Qed.

Lemma snapshotValueOf_secretOf (e : entry) :
  ¬ doublyWrapped (entryData e) →
  snapshotValueOf (secretOf e) = unwrapValue (entryData e).
Proof.
  intros Hnot. unfold snapshotValueOf, secretOf. cbn [Snapshot.Value].
  destruct (unwrapValue_cases (entryData e)) as [(v & Hd & ->)|[-> Hno]].
  - destruct v as [| | | | |sv]; try done.
    destruct (unwrapValue_cases sv) as [(w & Hsv & _)|[-> _]]; [|done].
    exfalso. apply Hnot. by exists sv, w.
  - destruct (unwrapValue_cases (entryData e)) as [(v & Hd & _)|[-> _]]; [|done].
    by apply Hno in Hd.
Qed.

Lemma classify_secretOf verify (s : gmap string entry) path k e :
  s !! fullPathOf path k = Some e →
  ¬ doublyWrapped (entryData e) →
  classify verify s path (k, secretOf e) = CUnchanged.
Proof.
  intros He Hnot. unfold classify. cbn [fst snd]. rewrite He.
  cbn [secretOf Snapshot.Version]. rewrite Z.eqb_refl, andb_false_r.
  by rewrite snapshotValueOf_secretOf, String.eqb_refl.
Qed.

(** X18: restoring a snapshot into the directory it was just taken
    from changes nothing, whatever the options: provided no secret of
    the directory is a single [value] holding a map that is itself a
    single [value], every secret is reported as unchanged and the store
    is left as it was. *)
Theorem CreateSnapshot_restore_noop (s : gmap string entry) (path : string)
    (now : Z) (snap : Snapshot) (opts : RestoreOptions) :
  CreateSnapshot memStore s path now = Ok snap →
  (∀ k e, s !! fullPathOf path k = Some e → ¬ doublyWrapped (entryData e)) →
  ∃ plan,
    RestoreSnapshot memStore s snap path opts = (s, Ok plan) ∧
    Added plan = [] ∧ Updated plan = [] ∧ Deleted plan = [] ∧
    Skipped plan = [] ∧
    Snapshot.Unchanged plan = (map_to_list (Secrets snap)).*1 ∧
    (∀ k, k ∈ Snapshot.Unchanged plan ↔ k ∈ listed s path) ∧
    HasChanges plan = false.
Proof.
  intros Hcreate Hplain.
  pose proof (CreateSnapshot_inv s path now snap Hcreate) as Hlookup.
  rewrite RestoreSnapshot_mem. cbv zeta.
  set (entries := map_to_list (Secrets snap)).
  assert (∀ kv, kv ∈ entries →
            classify (Verify opts) s path kv = CUnchanged) as Hclass.
  { intros [k secret] Hkv%elem_of_map_to_list. rewrite Hlookup in Hkv.
    destruct (s !! fullPathOf path k) as [e|] eqn:He; [|done].
    injection Hkv as <-. apply classify_secretOf; [done|]. by eapply Hplain. }
  assert (writtenEntries (Verify opts) s path entries = []) as ->.
  { apply filter_none. intros kv Hkv. by rewrite (Hclass kv Hkv). }
  assert (extraPaths s path entries = []) as ->.
  { apply extraPaths_nil. intros r Hr. unfold entries.
    rewrite elem_of_snapshot_keys, Hlookup. by rewrite fmap_is_Some. }
  pose proof (recordEntries_lists (Verify opts) s path entries
                (mkRestoreResult [] [] [] [] [])) as Hlists.
  cbv zeta in Hlists. cbn [Added Updated Deleted Snapshot.Unchanged Skipped app]
    in Hlists.
  destruct Hlists as (HA & HU & HD & HN & HS).
  set (recorded := recordEntries _ _ _ _ _) in *.
  unfold keysOfClass in *.
  rewrite filter_none in HA by (intros kv Hkv; by rewrite (Hclass kv Hkv)).
  rewrite filter_none in HU by (intros kv Hkv; by rewrite (Hclass kv Hkv)).
  rewrite filter_none in HS by (intros kv Hkv; by rewrite (Hclass kv Hkv)).
  rewrite filter_all in HN by done.
  exists recorded. cbn [foldl].
  split_and!; [|done..| |].
  - unfold recordDeleted. rewrite app_nil_r.
    destruct recorded; by destruct (DeleteExtra opts), (DryRun opts).
  - intros k. rewrite HN. unfold entries.
    rewrite elem_of_snapshot_keys, Hlookup, elem_of_listed.
    by rewrite fmap_is_Some.
  - unfold HasChanges. by rewrite HA, HU, HD.
Qed.

Lemma Sprintv_wrapped w :
  Sprintv (VMap {["value" := w]}) = "map[value:" +:+ Sprintv w +:+ "]".
Proof.
  cbn [Sprintv]. rewrite map_fold_singleton. reflexivity.
Qed.

Lemma Sprintv_wrapped_ne w : Sprintv (VMap {["value" := w]}) ≠ Sprintv w.
Proof.
  rewrite Sprintv_wrapped. intros Heq.
  apply (f_equal String.length) in Heq.
  rewrite !length_append in Heq. cbn in Heq. lia.
Qed.

(** X19: the one case in which a snapshot does not restore onto itself:
    a secret that is a single [value] holding a map that is itself a
    single [value].  The snapshot keeps the inner map, the restore
    unwraps it once more, reports the secret as updated and, unless the
    run is dry, writes the inner map in place of the secret. *)
Theorem CreateSnapshot_restore_unwraps (s : gmap string entry) (path : string)
    (now : Z) (snap : Snapshot) (opts : RestoreOptions)
    (k : string) (ver : Z) (w : Any) :
  CreateSnapshot memStore s path now = Ok snap →
  s !! fullPathOf path k
    = Some (mkEntry ver {["value" := VMap {["value" := w]}]}) →
  ∃ s' plan,
    RestoreSnapshot memStore s snap path opts = (s', Ok plan) ∧
    k ∈ Updated plan ∧
    (DryRun opts = true → s' = s) ∧
    (DryRun opts = false →
     ∃ ver', s' !! fullPathOf path k = Some (mkEntry ver' {["value" := w]})).
Proof.
  intros Hcreate Hk.
  pose proof (CreateSnapshot_inv s path now snap Hcreate) as Hlookup.
  pose proof (Hlookup k) as Hsecret. rewrite Hk in Hsecret.
  cbn [fmap option_fmap option_map] in Hsecret. unfold secretOf in Hsecret.
  cbn [entryData entryVersion] in Hsecret.
  rewrite unwrapValue_singleton in Hsecret.
  set (secret := mkSnapshotSecret (VMap {["value" := w]}) ver 0) in *.
  assert (classify (Verify opts) s path (k, secret) = CUpdated) as Hclass.
  { unfold classify. cbn [fst snd]. rewrite Hk.
    cbn [entryVersion entryData secret Snapshot.Version].
    rewrite Z.eqb_refl, andb_false_r.
    unfold snapshotValueOf. cbn [Snapshot.Value].
    rewrite !unwrapValue_singleton.
    destruct (String.eqb _ _) eqn:Heq; [|done].
    apply String.eqb_eq in Heq. by apply Sprintv_wrapped_ne in Heq. }
  rewrite RestoreSnapshot_mem. cbv zeta.
  set (entries := map_to_list (Secrets snap)).
  set (W := writtenEntries (Verify opts) s path entries).
  set (extra := extraPaths s path entries).
  pose proof (recordEntries_lists (Verify opts) s path entries
                (mkRestoreResult [] [] [] [] [])) as Hlists.
  cbv zeta in Hlists. cbn [Added Updated Deleted Snapshot.Unchanged Skipped app]
    in Hlists.
  destruct Hlists as (_ & HU & _).
  set (recorded := recordEntries _ _ _ _ _) in *.
  assert (k ∈ Updated recorded) as Hupdated.
  { rewrite HU. unfold entries. apply elem_of_keysOfClass. by exists secret. }
  assert (∃ ver', foldl (writeTo path) s W !! fullPathOf path k
                  = Some (mkEntry ver' {["value" := w]})) as [ver' Hwritten].
  { apply (lookup_writes_in path s W k secret).
    - eapply sublist_NoDup; [apply (NoDup_fst_map_to_list (Secrets snap))|].
      apply fmap_sublist, sublist_filter.
    - apply list_elem_of_filter. split; [by rewrite Hclass|].
      by apply elem_of_map_to_list. }
  assert (foldl (deleteAt path) (foldl (writeTo path) s W) extra
            !! fullPathOf path k = Some (mkEntry ver' {["value" := w]}))
    as Hkept.
  { rewrite lookup_deletes_other; [done|].
    intros r Hr Heq%fullPathOf_inj. subst r.
    apply elem_of_extraPaths in Hr as [_ Hr]. apply Hr.
    unfold entries. rewrite elem_of_snapshot_keys. by eexists. }
  destruct (DeleteExtra opts), (DryRun opts); eexists _, _;
    (split; [reflexivity|]); split_and!; try done; intros _; by exists ver'.
Qed.

End MoreRestoring.

(** ** Flattening *)

Section Flattening.
Import Compare Timeline Shapes.

Lemma depth_lookup (m : gmap string Any) i x :
  m !! i = Some x → (depth x < depth (VMap m))%nat.
Proof.
  cbn [depth]. intros Hi. apply Nat.lt_succ_r. revert i x Hi.
  apply (map_fold_weak_ind
           (λ r m', ∀ i x, m' !! i = Some x → (depth x ≤ r)%nat)).
  - intros i x. by rewrite lookup_empty.
  - intros j y m' r Hj IH i x Hi.
    apply lookup_insert_Some in Hi as [[_ <-]|[_ Hi]]; [lia|].
    specialize (IH i x Hi). lia.
Qed.

Lemma flattenValue_notMap v fullKey result :
  notMap v → flattenValue v fullKey result = <[fullKey := v]> result.
Proof. by destruct v. Qed.

(** Flattening a value into a flat map leaves a flat map. *)
Lemma flattenValue_flat n v fullKey result :
  (depth v < n)%nat → flatMap result → flatMap (flattenValue v fullKey result).
Proof.
  revert v fullKey result. induction n as [|n IH]; intros v fullKey result Hn Hflat;
    [lia|].
  destruct v as [| | | | |m];
    try (by apply map_Forall_insert_2).
  cbn [flattenValue].
  assert (∀ i x, m !! i = Some x → (depth x < n)%nat) as Hm.
  { intros i x Hi. apply depth_lookup in Hi. lia. }
  revert Hm.
  apply (map_fold_weak_ind
           (λ r m', (∀ i x, m' !! i = Some x → (depth x < n)%nat) → flatMap r)).
  - done.
  - intros j y m' r Hj IHm Hm. apply IH.
    + apply (Hm j). by rewrite lookup_insert_eq.
    + apply IHm. intros i x Hi. apply (Hm i).
      rewrite lookup_insert_ne; [done|]. intros ->. congruence.
Qed.

Lemma flattenRecursive_value data prefix result :
  flattenRecursive data prefix result = flattenValue (VMap data) prefix result.
Proof. reflexivity. Qed.

Lemma Flatten_flat_id (m : gmap string Any) : flatMap m → Flatten m = m.
Proof.
  unfold Flatten, flattenRecursive.
  apply (map_fold_weak_ind (λ r m', flatMap m' → r = m')).
  - done.
  - intros i x m' r Hi IH Hflat.
    apply map_Forall_insert in Hflat as [Hx Hflat]; [|done].
    cbn [String.eqb negb]. rewrite flattenValue_notMap by done.
    by rewrite IH.
Qed.

(** X20: the map [Flatten] returns holds no map as a value, however
    deep the input is nested; a map that holds no map as a value is
    returned as it is, so flattening twice is flattening once. *)
Theorem Flatten_flat (data : gmap string Any) :
  flatMap (Flatten data) ∧
  (flatMap data → Flatten data = data) ∧
  Flatten (Flatten data) = Flatten data.
Proof.
  assert (flatMap (Flatten data)) as Hflat.
  { unfold Flatten. rewrite flattenRecursive_value.
    apply (flattenValue_flat (S (depth (VMap data)))); [lia|].
    apply map_Forall_empty. }
  split_and!; [done|apply Flatten_flat_id|by apply Flatten_flat_id].
Qed.

Lemma fieldKey_inj relPath k1 k2 :
  fieldKey relPath k1 = fieldKey relPath k2 → k1 = k2.
Proof.
  unfold fieldKey.
  destruct (String.eqb_spec k1 "") as [->|H1], (String.eqb_spec k2 "") as [->|H2];
    try done.
  - intros Heq. apply (f_equal String.length) in Heq.
    rewrite !length_append in Heq. cbn in Heq. lia.
  - intros Heq. apply (f_equal String.length) in Heq.
    rewrite !length_append in Heq. cbn in Heq. lia.
  - intros Heq. by apply append_inj_r, append_inj_r in Heq.
Qed.

(** The fields [mergeFlattened] writes: each field of the secret under
    its own key, and nothing else. *)
Lemma mergeFlattened_fields relPath (flattened result : gmap string Any) :
  (∀ k v, flattened !! k = Some v →
     mergeFlattened relPath flattened result !! fieldKey relPath k = Some v) ∧
  (∀ key, (∀ k, is_Some (flattened !! k) → fieldKey relPath k ≠ key) →
     mergeFlattened relPath flattened result !! key = result !! key).
Proof.
  unfold mergeFlattened.
  apply (map_fold_weak_ind
           (λ r m',
              (∀ k v, m' !! k = Some v → r !! fieldKey relPath k = Some v) ∧
              (∀ key, (∀ k, is_Some (m' !! k) → fieldKey relPath k ≠ key) →
                      r !! key = result !! key))).
  - split; [intros k v; by rewrite lookup_empty|done].
  - intros i x m' r Hi [IH1 IH2].
    assert ((if String.eqb i "" then <[relPath := x]> r
             else <[relPath +:+ "." +:+ i := x]> r)
            = <[fieldKey relPath i := x]> r) as ->.
    { unfold fieldKey. by destruct (String.eqb i ""). }
    split.
    + intros k v Hk. apply lookup_insert_Some in Hk as [[-> ->]|[Hne Hk]].
      * by rewrite lookup_insert_eq.
      * rewrite lookup_insert_ne; [by apply IH1|].
        intros Heq%fieldKey_inj. done.
    + intros key Hkey. rewrite lookup_insert_ne.
      * apply IH2. intros k Hk. apply Hkey.
        rewrite lookup_insert_ne; [done|]. intros ->.
        rewrite Hi in Hk. by destruct Hk.
      * apply Hkey. rewrite lookup_insert_eq. by eexists.
Qed.

Lemma FlattenAndExtractValues_single v forDirectory :
  notMap v →
  FlattenAndExtractValues {["value" := v]} forDirectory
  = {[(if forDirectory then "" else "value") := v]}.
Proof.
  intros Hv. unfold FlattenAndExtractValues.
  rewrite Flatten_flat_id.
  - rewrite map_fold_singleton. by destruct forDirectory.
  - by apply map_Forall_singleton.
Qed.

(** X21: how a secret enters the state of a directory.  A secret that
    is a single [value] which is not a map is extracted under the empty
    key in a directory and under [value] on its own; merged into the
    state of a directory it is the one entry at the path of the secret.
    In general each extracted field of a secret is merged at the path
    of the secret, a dot and the field (at the path itself for the empty
    field), and no other entry of the state is touched. *)
Theorem mergeFlattened_secret (relPath : string) (result : gmap string Any) :
  (∀ v, notMap v →
     FlattenAndExtractValues {["value" := v]} true = {["" := v]} ∧
     FlattenAndExtractValues {["value" := v]} false = {["value" := v]} ∧
     mergeFlattened relPath (FlattenAndExtractValues {["value" := v]} true) result
     = <[relPath := v]> result) ∧
  (∀ flattened k v, flattened !! k = Some v →
     mergeFlattened relPath flattened result !! fieldKey relPath k = Some v) ∧
  (∀ flattened key,
     (∀ k, is_Some (flattened !! k) → fieldKey relPath k ≠ key) →
     mergeFlattened relPath flattened result !! key = result !! key).
Proof.
  split_and!.
  - intros v Hv. rewrite !FlattenAndExtractValues_single by done.
    split_and!; [done..|].
    unfold mergeFlattened. by rewrite map_fold_singleton.
  - intros flattened. apply mergeFlattened_fields.
  - intros flattened. apply mergeFlattened_fields.
Qed.

End Flattening.

(** ** Single secrets: add, update, copy and move *)

Section MoreOperations.
Import Client Snapshot Operations.

Lemma size_zero_iff (m : gmap string Any) :
  (Z.of_nat (size m) =? 0) = true ↔ m = ∅.
Proof.
  rewrite Z.eqb_eq, <- map_size_empty_iff. lia.
Qed.

Lemma readAndValidateSource_mem locked (s : gmap string entry) src :
  readAndValidateSource (lockedOps locked) s src =
    match s !! src with
    | Some e =>
        if decide (entryData e = ∅) then Err (ErrSourceMissing src)
        else Ok (entryData e)
    | None => Err (ErrSourceMissing src)
    end.
Proof.
  unfold readAndValidateSource. cbn [lockedOps calls ReadSecretRaw memStore].
  destruct (s !! src) as [e|]; cbn [fmap option_fmap option_map default id].
  - destruct (decide (entryData e = ∅)) as [Hd|Hd].
    + by rewrite (proj2 (size_zero_iff _) Hd).
    + destruct (Z.of_nat (size (entryData e)) =? 0) eqn:E; [|done].
      by apply size_zero_iff in E.
  - by rewrite (proj2 (size_zero_iff ∅) eq_refl).
Qed.

Lemma checkDestinationNotExists_mem locked (s : gmap string entry) dst :
  checkDestinationNotExists (lockedOps locked) s dst =
    match s !! dst with
    | Some _ => Some (ErrDestinationExists dst)
    | None => None
    end.
Proof.
  unfold checkDestinationNotExists. cbn [lockedOps SecretExists].
  destruct (s !! dst) as [e|] eqn:E.
  - by rewrite bool_decide_eq_true_2 by (by eexists).
  - by rewrite bool_decide_eq_false_2 by (by intros [? ?]).
Qed.

Lemma memOps_locked : memOps = lockedOps ∅.
Proof. reflexivity. Qed.

(** X22: [Add] never overwrites and [Update] never creates.  On any
    store, [Add] leaves the store alone unless [SecretExists] says the
    path is free.  On the store kept in memory exactly one of the two
    succeeds at a path: [Add] when nothing is there, making version 1,
    [Update] when something is, making the next version; the one that
    fails changes nothing, the one that succeeds changes that path
    only, and [GetValue] then reads the value back. *)
Theorem Add_Update_exclusive :
  (∀ (S : Type) (c : OpStore S) (s : S) path value,
     SecretExists c s path ≠ Ok false →
     (Add c s path value).1 = s ∧ (Add c s path value).2 ≠ Ok tt) ∧
  (∀ (s : gmap string entry) path value,
     let a := Add memOps s path value in
     let u := Update memOps s path value in
     (a.2 = Ok tt ↔ s !! path = None) ∧
     (u.2 = Ok tt ↔ is_Some (s !! path)) ∧
     (a.2 ≠ Ok tt → a = (s, Err (ErrAlreadyExists path))) ∧
     (u.2 ≠ Ok tt → u = (s, Err (ErrSecretNotFound path))) ∧
     (a.2 = Ok tt →
      a.1 !! path = Some (mkEntry 1 {["value" := VString value]}) ∧
      GetValue memOps a.1 path "value" = Ok (VString value)) ∧
     (∀ e, s !! path = Some e →
      u.1 !! path
        = Some (mkEntry (entryVersion e + 1) {["value" := VString value]}) ∧
      GetValue memOps u.1 path "value" = Ok (VString value)) ∧
     (∀ q, q ≠ path → a.1 !! q = s !! q ∧ u.1 !! q = s !! q)).
Proof.
  split.
  - intros S c s path value Hexists. unfold Add.
    destruct (SecretExists c s path) as [[|]|e]; done.
  - intros s path value. cbv zeta. unfold Add, Update, GetValue.
    cbn [memOps SecretExists calls memStore WriteSecret ReadSecretRaw].
    destruct (s !! path) as [e|] eqn:Hpath.
    + rewrite bool_decide_eq_true_2 by (by eexists). cbn [negb fst snd].
      rewrite lookup_insert_eq. cbn [fmap option_fmap option_map entryData].
      rewrite lookup_singleton_eq.
      split_and!; try done.
      * intros e' [= <-]. done.
      * intros q Hq. by rewrite lookup_insert_ne.
    + rewrite bool_decide_eq_false_2 by (by intros [? ?]). cbn [negb fst snd].
      rewrite lookup_insert_eq. cbn [fmap option_fmap option_map entryData].
      rewrite lookup_singleton_eq.
      split_and!; try done.
      intros q Hq. by rewrite lookup_insert_ne.
Qed.

Lemma Copy_mem (s : gmap string entry) src dst :
  Copy memOps s src dst =
    match s !! src with
    | Some e =>
        if decide (entryData e = ∅) then (s, Err (ErrSourceMissing src))
        else match s !! dst with
             | Some _ => (s, Err (ErrDestinationExists dst))
             | None => (<[dst := mkEntry 1 (entryData e)]> s, Ok tt)
             end
    | None => (s, Err (ErrSourceMissing src))
    end.
Proof.
  unfold Copy. rewrite memOps_locked.
  rewrite readAndValidateSource_mem, checkDestinationNotExists_mem.
  destruct (s !! src) as [e|]; [|done].
  destruct (decide (entryData e = ∅)); [done|].
  cbn [lockedOps calls WriteSecret memStore].
  by destruct (s !! dst).
Qed.

(** X23: [Copy] on the store kept in memory succeeds exactly when the
    source holds data and the destination is free; it then makes the
    destination version 1 with the data of the source and changes
    nothing else; when it fails the store is as it was. *)
Theorem Copy_copies (s : gmap string entry) (src dst : string) :
  let r := Copy memOps s src dst in
  (r.2 = Ok tt ↔
   (∃ e, s !! src = Some e ∧ entryData e ≠ ∅) ∧ s !! dst = None) ∧
  (r.2 = Ok tt →
   ∃ e, s !! src = Some e ∧ r.1 = <[dst := mkEntry 1 (entryData e)]> s ∧
        r.1 !! src = Some e) ∧
  (r.2 ≠ Ok tt → r.1 = s).
Proof.
  cbv zeta. rewrite Copy_mem.
  destruct (s !! src) as [e|] eqn:Hsrc.
  - destruct (decide (entryData e = ∅)) as [Hd|Hd].
    + split_and!; try done. split; [done|]. intros [(e' & [= <-] & ?) _]. done.
    + destruct (s !! dst) as [e'|] eqn:Hdst.
      * split_and!; try done. split; [done|]. by intros [_ ?].
      * split_and!; try done.
        -- split; [|done]. intros _. split; [|done]. by exists e.
        -- intros _. exists e. split_and!; [done..|]. cbn [fst].
           rewrite lookup_insert_ne; [done|]. intros ->. congruence.
  - split_and!; try done. split; [done|]. by intros [(e' & ? & _) _].
Qed.

Lemma Move_locked locked (s : gmap string entry) src dst :
  Move (lockedOps locked) s src dst =
    match s !! src with
    | Some e =>
        if decide (entryData e = ∅) then (s, Err (ErrSourceMissing src))
        else match s !! dst with
             | Some _ => (s, Err (ErrDestinationExists dst))
             | None =>
                 let s1 := <[dst := mkEntry 1 (entryData e)]> s in
                 if decide (src ∈ locked) then
                   if decide (dst ∈ locked) then
                     (s1, Err (ErrRollbackFailed (ApiError "permission denied")
                                 (ApiError "permission denied")))
                   else (delete dst s1,
                         Err (ErrDeleteAfterCopy (ApiError "permission denied")))
                 else (delete src s1, Ok tt)
             end
    | None => (s, Err (ErrSourceMissing src))
    end.
Proof.
  unfold Move.
  rewrite readAndValidateSource_mem, checkDestinationNotExists_mem.
  destruct (s !! src) as [e|]; [|done].
  destruct (decide (entryData e = ∅)); [done|].
  destruct (s !! dst) eqn:Hdst; [done|].
  cbn [lockedOps calls WriteSecret DeleteSecret memStore]. cbv zeta.
  rewrite Hdst.
  destruct (decide (src ∈ locked)); [|done].
  by destruct (decide (dst ∈ locked)).
Qed.

(** X24: [Move] on the store kept in memory, where some paths may
    refuse to be deleted.  It succeeds only when the source holds data
    and the destination is free, and then the destination is version 1
    with the data of the source, the source is gone and nothing else
    has changed.  When the source cannot be deleted the copy is rolled
    back and the store is as it was.  Whatever happens the data of the
    source is not lost: it is still at the source, or it is at the
    destination. *)
Theorem Move_moves (locked : gset string) (s : gmap string entry)
    (src dst : string) :
  let r := Move (lockedOps locked) s src dst in
  (r.2 = Ok tt →
   ∃ e, s !! src = Some e ∧ entryData e ≠ ∅ ∧ s !! dst = None ∧
        r.1 !! dst = Some (mkEntry 1 (entryData e)) ∧ r.1 !! src = None ∧
        ∀ q, q ≠ src → q ≠ dst → r.1 !! q = s !! q) ∧
  (src ∉ locked →
   (∃ e, s !! src = Some e ∧ entryData e ≠ ∅) → s !! dst = None →
   r.2 = Ok tt) ∧
  (src ∈ locked → dst ∉ locked → r.1 = s ∧ r.2 ≠ Ok tt) ∧
  (∀ e, s !! src = Some e →
     r.1 !! src = Some e ∨ ∃ ver, r.1 !! dst = Some (mkEntry ver (entryData e))).
Proof.
  cbv zeta. rewrite Move_locked.
  destruct (s !! src) as [e|] eqn:Hsrc; cbn [fst snd].
  2: { split_and!; try done. intros _ (e & ? & _). done. }
  destruct (decide (entryData e = ∅)) as [Hd|Hd]; cbn [fst snd].
  { split_and!; try done.
    - intros _ (e' & [= <-] & ?). done.
    - intros e' [= <-]. by left. }
  destruct (s !! dst) as [e'|] eqn:Hdst; cbn [fst snd].
  { split_and!; try done. intros e0 [= <-]. by left. }
  assert (src ≠ dst) as Hne by (intros ->; congruence).
  cbv zeta.
  destruct (decide (src ∈ locked)) as [Hl|Hl];
    [destruct (decide (dst ∈ locked)) as [Hl'|Hl']|]; cbn [fst snd].
  - split_and!; try done. intros e0 [= <-]. left.
    by rewrite lookup_insert_ne.
  - split_and!; try done.
    + intros _ _. split; [|done].
      rewrite delete_insert_eq. by apply delete_id.
    + intros e0 [= <-]. left.
      rewrite lookup_delete_ne by done. by rewrite lookup_insert_ne.
  - split_and!; try done.
    + intros _. exists e. split_and!; try done.
      * rewrite lookup_delete_ne by done. by rewrite lookup_insert_eq.
      * by rewrite lookup_delete_eq.
      * intros q Hq1 Hq2. rewrite lookup_delete_ne by done.
        by rewrite lookup_insert_ne.
    + intros e0 [= <-]. right. exists 1.
      rewrite lookup_delete_ne by done. by rewrite lookup_insert_eq.
Qed.

(** *** Copying a directory *)

Lemma NoDup_omap {A B} (f : A → option B) (l : list A) :
  (∀ x y z, f x = Some z → f y = Some z → x = y) →
  NoDup l → NoDup (omap f l).
Proof.
  intros Hinj. induction 1 as [|x l Hx Hl IH]; [constructor|].
  rewrite omap_cons. destruct (f x) as [z|] eqn:Hz; [|done].
  constructor; [|done]. rewrite list_elem_of_omap. intros (y & Hy & Hfy).
  by rewrite (Hinj x y z Hz Hfy) in Hx.
Qed.

Lemma NoDup_listed (s : gmap string entry) target : NoDup (listed s target).
Proof.
  unfold listed. apply NoDup_omap; [|apply NoDup_fst_map_to_list].
  intros x y z Hx%stripPrefix_Some Hy%stripPrefix_Some. congruence.
Qed.

Lemma checkDestinationsNotExist_mem (s : gmap string entry) dst relPaths :
  checkDestinationsNotExist memOps s dst relPaths = None ↔
  ∀ rel, rel ∈ relPaths → s !! fullPathOf dst rel = None.
Proof.
  induction relPaths as [|rel relPaths IH].
  - split; [by intros _ ? ?%elem_of_nil|done].
  - cbn [checkDestinationsNotExist]. rewrite memOps_locked.
    rewrite checkDestinationNotExists_mem. fold (fullPathOf dst rel).
    destruct (s !! fullPathOf dst rel) as [e|] eqn:Hrel.
    + split; [done|]. intros H. specialize (H rel). rewrite Hrel in H.
      discriminate H. by left.
    + rewrite <- memOps_locked, IH. split.
      * intros H r [->|Hr]%elem_of_cons; [done|by apply H].
      * intros H r Hr. apply H. by right.
Qed.

Lemma copySecrets_mem (s s1 : gmap string entry) src dst relPaths :
  NoDup relPaths →
  (∀ rel, rel ∈ relPaths →
     is_Some (s !! fullPathOf src rel) ∧
     s1 !! fullPathOf src rel = s !! fullPathOf src rel ∧
     s1 !! fullPathOf dst rel = None) →
  ∃ s', copySecrets memOps s1 src dst relPaths = (s', None) ∧
    (∀ rel e, rel ∈ relPaths → s !! fullPathOf src rel = Some e →
       s' !! fullPathOf dst rel = Some (mkEntry 1 (entryData e))) ∧
    (∀ q, (∀ rel, rel ∈ relPaths → q ≠ fullPathOf dst rel) → s' !! q = s1 !! q).
Proof.
  revert s1. induction relPaths as [|rel relPaths IH]; intros s1 Hnodup Hpre.
  - exists s1. split_and!; [done| |done]. by intros ? ? ?%elem_of_nil.
  - apply NoDup_cons in Hnodup as [Hrel Hnodup].
    destruct (Hpre rel) as ([e He] & Hsrc & Hdst); [by left|].
    cbn [copySecrets memOps calls memStore ReadSecretRaw WriteSecret].
    fold (fullPathOf src rel) (fullPathOf dst rel).
    rewrite Hsrc, He, Hdst. cbn [fmap option_fmap option_map default].
    change (mkOpStore _ _ _) with memOps.
    destruct (IH (<[fullPathOf dst rel := mkEntry 1 (entryData e)]> s1) Hnodup)
      as (s' & Hcopy & Hcopied & Hother).
    { intros r Hr. destruct (Hpre r) as (Hsome & Hsrc' & Hdst'); [by right|].
      split_and!; [done| |].
      - rewrite lookup_insert_ne; [done|]. intros Heq.
        rewrite <- Heq in Hsrc', Hsome. rewrite Hdst in Hsrc'.
        rewrite <- Hsrc' in Hsome. by destruct Hsome.
      - rewrite lookup_insert_ne; [done|]. intros Heq%fullPathOf_inj.
        by subst r. }
    exists s'. split_and!; [done| |].
    + intros r e' [->|Hr]%elem_of_cons He'.
      * rewrite Hother.
        -- rewrite lookup_insert_eq. congruence.
        -- intros r Hr Heq%fullPathOf_inj. by subst r.
      * by apply Hcopied.
    + intros q Hq. rewrite Hother.
      * rewrite lookup_insert_ne; [done|]. intros Heq. by apply (Hq rel); [left|].
      * intros r Hr. apply Hq. by right.
Qed.

(** X25: [CopyRecursive] of a directory on the store kept in memory
    copies all or nothing.  When a destination path is taken it fails
    and the store is as it was; otherwise it returns the number of
    secrets listed under the source, every one of them is at the
    destination as version 1 with the data of the source, and no other
    path has changed. *)
Theorem CopyRecursive_all_or_nothing (s : gmap string entry) (src dst : string) :
  listed s src ≠ [] →
  let r := CopyRecursive memOps s src dst in
  ((∃ rel, rel ∈ listed s src ∧ is_Some (s !! fullPathOf dst rel)) →
   r.1 = s ∧ ∃ path, r.2 = Err (ErrDestinationExists path)) ∧
  ((∀ rel, rel ∈ listed s src → s !! fullPathOf dst rel = None) →
   r.2 = Ok (Z.of_nat (length (listed s src))) ∧
   (∀ rel e, s !! fullPathOf src rel = Some e →
      r.1 !! fullPathOf dst rel = Some (mkEntry 1 (entryData e))) ∧
   (∀ q, (∀ rel, rel ∈ listed s src → q ≠ fullPathOf dst rel) →
      r.1 !! q = s !! q)).
Proof.
  intros Hne. cbv zeta. unfold CopyRecursive.
  cbn [memOps calls memStore ListSecretPaths]. fold (listed s src).
  change (mkOpStore _ _ _) with memOps.
  destruct (Z.of_nat (length (listed s src)) =? 0) eqn:E.
  { apply Z.eqb_eq in E. destruct (listed s src); [done|]. cbn in E. lia. }
  split.
  - intros (rel & Hrel & Hsome).
    destruct (checkDestinationsNotExist memOps s dst (listed s src))
      as [err|] eqn:Hcheck.
    + split; [done|]. cbn [snd]. clear -Hcheck.
      induction (listed s src) as [|r l IH]; [done|].
      cbn [checkDestinationsNotExist] in Hcheck. rewrite memOps_locked in Hcheck.
      rewrite checkDestinationNotExists_mem in Hcheck.
      destruct (s !! (dst +:+ "/" +:+ r)).
      * injection Hcheck as <-. by eexists.
      * by apply IH.
    + rewrite checkDestinationsNotExist_mem in Hcheck.
      specialize (Hcheck rel Hrel). destruct Hsome as [e He]. congruence.
  - intros Hfree.
    rewrite (proj2 (checkDestinationsNotExist_mem s dst (listed s src)) Hfree).
    destruct (copySecrets_mem s s src dst (listed s src))
      as (s' & Hcopy & Hcopied & Hother).
    { apply NoDup_listed. }
    { intros rel Hrel. split_and!; [by apply elem_of_listed|done|by apply Hfree]. }
    rewrite Hcopy. cbn [fst snd]. split_and!; [done| |done].
    intros rel e He. apply Hcopied; [|done].
    apply elem_of_listed. by eexists.
Qed.

End MoreOperations.


(** ** Previous versions *)

Section PreviousVersions.
Import Compare Client Timeline Shapes Previous.

Lemma mergeFlattened_empty relPath result : mergeFlattened relPath ∅ result = result.
Proof. unfold mergeFlattened. by rewrite map_fold_empty. Qed.

Lemma prevVersion_step c basePath result skipped relPath :
  prevVersion c basePath (result, skipped) relPath =
    (mergeFlattened relPath (prevFields c basePath relPath) result,
     if skips c basePath relPath then skipped + 1 else skipped).
Proof.
  unfold prevVersion, prevFields, skips.
  destruct (GetMetadata c _) as [[metadata|]|e];
    rewrite ?mergeFlattened_empty; try done.
  destruct (CurrentVersion metadata <=? 1);
    rewrite ?mergeFlattened_empty; try done.
  cbn [orb].
  by destruct (ReadSecretVersion _ _ _) as [secrets|e];
    rewrite ?mergeFlattened_empty.
Qed.

Lemma prevVersion_fold c basePath keys result skipped :
  fold_left (prevVersion c basePath) keys (result, skipped) =
    (foldl (λ r key, mergeFlattened key (prevFields c basePath key) r) result keys,
     skipped + Z.of_nat (length (filter (λ key, skips c basePath key = true) keys))).
Proof.
  revert result skipped. induction keys as [|key keys IH]; intros result skipped.
  - cbn. f_equal. lia.
  - cbn [fold_left foldl]. rewrite prevVersion_step, IH, filter_cons. f_equal.
    destruct (skips c basePath key); [rewrite decide_True by done|
                                      rewrite decide_False by done];
      cbn [length]; lia.
Qed.

Lemma mergeFlattened_origin relPath (flattened result : gmap string Any) k v :
  mergeFlattened relPath flattened result !! k = Some v →
  result !! k = Some v ∨
  ∃ f, flattened !! f = Some v ∧ k = fieldKey relPath f.
Proof.
  unfold mergeFlattened.
  apply (map_fold_weak_ind
           (λ r m', r !! k = Some v →
                    result !! k = Some v ∨
                    ∃ f, m' !! f = Some v ∧ k = fieldKey relPath f)).
  - by left.
  - intros i x m' r Hi IH.
    assert ((if String.eqb i "" then <[relPath := x]> r
             else <[relPath +:+ "." +:+ i := x]> r)
            = <[fieldKey relPath i := x]> r) as ->.
    { unfold fieldKey. by destruct (String.eqb i ""). }
    intros [[<- <-]|[Hne Hk]]%lookup_insert_Some.
    + right. exists i. by rewrite lookup_insert_eq.
    + destruct (IH Hk) as [?|(f & Hf & ->)]; [by left|].
      right. exists f. split; [|done].
      rewrite lookup_insert_ne; [done|]. intros ->. congruence.
Qed.

Lemma prev_origin c basePath keys result k v :
  foldl (λ r key, mergeFlattened key (prevFields c basePath key) r) result keys
    !! k = Some v →
  result !! k = Some v ∨
  ∃ key f, key ∈ keys ∧ prevFields c basePath key !! f = Some v ∧
           k = fieldKey key f.
Proof.
  revert result. induction keys as [|key keys IH]; intros result; [by left|].
  cbn [foldl]. intros [Hk|(key' & f & Hin & Hf & ->)]%IH.
  - apply mergeFlattened_origin in Hk as [?|(f & Hf & ->)]; [by left|].
    right. exists key, f. split_and!; [by left|done..].
  - right. exists key', f. split_and!; [by right|done..].
Qed.

Lemma prevFields_skipped c basePath key :
  skips c basePath key = true → prevFields c basePath key = ∅.
Proof.
  unfold skips, prevFields.
  destruct (GetMetadata c _) as [[metadata|]|e]; try done.
  destruct (CurrentVersion metadata <=? 1); [done|]. cbn [orb].
  by destruct (ReadSecretVersion _ _ _).
Qed.

Lemma prev_nothing c basePath keys result :
  (∀ key, key ∈ keys → prevFields c basePath key = ∅) →
  foldl (λ r key, mergeFlattened key (prevFields c basePath key) r) result keys
  = result.
Proof.
  revert result. induction keys as [|key keys IH]; intros result Hkeys; [done|].
  cbn [foldl]. rewrite (Hkeys key) by (by left). rewrite mergeFlattened_empty.
  apply IH. intros k Hk. apply Hkeys. by right.
Qed.

(** X26: [GetPrevVersions].  Every entry of a result comes from the
    version before the current one of a listed secret that was not
    skipped, under the path of the secret (and a dot and the field).
    When nothing is listed the error is "no secrets found"; when
    secrets are listed and all are skipped it is "all are at version 1".
    A listed secret whose previous version reads as nothing is not
    counted as skipped: when that is all there is, the error is "no
    secrets found" although secrets are listed. *)
Theorem GetPrevVersions_result (c : MetaClient) (basePath : string)
    (keys : list string) :
  ListSecretPaths (client c) basePath = Ok keys →
  (∀ result, GetPrevVersions c basePath = Ok result →
     result ≠ ∅ ∧
     ∀ k v, result !! k = Some v →
       ∃ key f, key ∈ keys ∧ skips c basePath key = false ∧
         prevFields c basePath key !! f = Some v ∧ k = fieldKey key f) ∧
  (keys = [] → GetPrevVersions c basePath = Err (ErrNoSecretsUnder basePath)) ∧
  (keys ≠ [] → (∀ key, key ∈ keys → skips c basePath key = true) →
   GetPrevVersions c basePath = Err (ErrAllAtVersion1 basePath)) ∧
  ((∀ key, key ∈ keys →
      skips c basePath key = false ∧ prevFields c basePath key = ∅) →
   GetPrevVersions c basePath = Err (ErrNoSecretsUnder basePath)).
Proof.
  intros Hlist. unfold GetPrevVersions. rewrite Hlist, prevVersion_fold.
  set (result := foldl _ ∅ keys). set (skipped := 0 + _).
  split_and!.
  - intros r. destruct (Z.of_nat (size result) =? 0) eqn:E.
    { by destruct (0 <? skipped). }
    intros [= <-]. split.
    + intros Hempty. rewrite Hempty, map_size_empty in E. done.
    + intros k v Hk. apply prev_origin in Hk as [Hk|(key & f & Hin & Hf & ->)].
      { by rewrite lookup_empty in Hk. }
      exists key, f. split_and!; try done.
      destruct (skips c basePath key) eqn:Hskip; [|done].
      rewrite (prevFields_skipped _ _ _ Hskip), lookup_empty in Hf. done.
  - intros ->. done.
  - intros Hne Hall.
    assert (result = ∅) as ->.
    { apply prev_nothing. intros key Hkey. by apply prevFields_skipped, Hall. }
    rewrite map_size_empty. cbn [Z.of_nat Z.eqb].
    assert (0 < skipped) as Hpos.
    { unfold skipped. rewrite filter_all by done.
      destruct keys; [done|]. cbn [length]. lia. }
    by rewrite (proj2 (Z.ltb_lt 0 skipped) Hpos).
  - intros Hall.
    assert (result = ∅) as ->.
    { apply prev_nothing. intros key Hkey. by apply Hall. }
    rewrite map_size_empty. cbn [Z.of_nat Z.eqb].
    assert (skipped = 0) as ->.
    { unfold skipped. rewrite filter_none; [done|].
      intros key Hkey. destruct (Hall key Hkey) as [-> _]. done. }
    done.
Qed.

(** X27: [GetSecretAtVersion].  With [isPrev] the version passed is not
    looked at: the version read is the one before the current version
    of the metadata, which must be above 1.  Without it the version
    passed is read.  A version that reads as nothing is an error.  The
    references [base@n] and [base@prev], parsed by
    [ParseVersionedPath], read version [n] and the previous version of
    [base]. *)
Theorem GetSecretAtVersion_reads (c : MetaClient) (path : string) :
  (∀ version version',
     GetSecretAtVersion c path version true
     = GetSecretAtVersion c path version' true) ∧
  (∀ version secrets,
     GetSecretAtVersion c path version false = Ok secrets ↔
     ReadSecretVersion (client c) path version = Ok (Some secrets)) ∧
  (∀ version secrets,
     GetSecretAtVersion c path version true = Ok secrets ↔
     ∃ metadata, GetMetadata c path = Ok (Some metadata) ∧
       1 < CurrentVersion metadata ∧
       ReadSecretVersion (client c) path (CurrentVersion metadata - 1)
       = Ok (Some secrets)) ∧
  (∀ n, 0 < n ≤ Go.maxInt →
     let r := ParseVersionedPath (path +:+ "@" +:+ Go.Itoa n) in
     GetSecretAtVersion c r.1 (Compare.Version r.2) (IsPrev r.2)
     = GetSecretAtVersion c path n false) ∧
  (let r := ParseVersionedPath (path +:+ "@" +:+ "prev") in
   GetSecretAtVersion c r.1 (Compare.Version r.2) (IsPrev r.2)
   = GetSecretAtVersion c path 0 true).
Proof.
  split_and!.
  - done.
  - intros version secrets. unfold GetSecretAtVersion.
    destruct (ReadSecretVersion _ _ _) as [[data|]|e]; split; congruence.
  - intros version secrets. unfold GetSecretAtVersion.
    destruct (GetMetadata c path) as [[metadata|]|e].
    + destruct (CurrentVersion metadata <=? 1) eqn:E.
      * apply Z.leb_le in E. split; [done|].
        intros (metadata' & [= <-] & ? & _). lia.
      * apply Z.leb_gt in E.
        destruct (ReadSecretVersion _ _ _) as [[data|]|e'] eqn:Hread; split;
          try done.
        -- intros [= <-]. by exists metadata.
        -- intros (metadata' & [= <-] & _ & Hread'). congruence.
        -- intros (metadata' & [= <-] & _ & Hread'). congruence.
        -- intros (metadata' & [= <-] & _ & Hread'). congruence.
    + split; [done|]. by intros (? & ? & _).
    + split; [done|]. by intros (? & ? & _).
  - intros n Hn. cbv zeta. rewrite ParseVersionedPath_Itoa.
    + rewrite (proj2 (Z.ltb_lt 0 n)) by lia. done.
    + unfold Go.maxInt in *. lia.
  - cbv zeta. rewrite ParseVersionedPath_cases.
    by rewrite (splitLast_at path "prev" eq_refl).
Qed.

End PreviousVersions.

(** ** The changes between two versions *)

Section VersionChanges.
Import Compare Client Versions.
Context {sorter : SliceSorter}.

Lemma compareNew_fold old l acc :
  fold_left (compareNew old) l acc = acc ++ omap (newChange old) l.
Proof.
  revert acc. induction l as [|[k v] l IH]; intros acc.
  - simpl. by rewrite app_nil_r.
  - cbn [fold_left]. rewrite IH, omap_cons.
    unfold compareNew, newChange. cbn [fst snd].
    destruct (old !! k) as [oldVal|].
    + destruct (String.eqb _ _); cbn [negb]; [done|by rewrite <- app_assoc].
    + by rewrite <- app_assoc.
Qed.

Lemma compareOld_fold new l acc :
  fold_left (compareOld new) l acc = acc ++ omap (oldChange new) l.
Proof.
  revert acc. induction l as [|[k v] l IH]; intros acc.
  - simpl. by rewrite app_nil_r.
  - cbn [fold_left]. rewrite IH, omap_cons.
    unfold compareOld, oldChange. cbn [fst snd].
    destruct (new !! k); [done|by rewrite <- app_assoc].
Qed.

Lemma newChange_key old kv ch :
  newChange old kv = Some ch → Versions.Key ch = kv.1.
Proof.
  unfold newChange. destruct (old !! kv.1); [destruct (String.eqb _ _)|];
    try done; by intros [= <-].
Qed.

Lemma oldChange_key new kv ch :
  oldChange new kv = Some ch → Versions.Key ch = kv.1 ∧ new !! kv.1 = None.
Proof.
  unfold oldChange. destruct (new !! kv.1); [done|]. by intros [= <-].
Qed.

Lemma NoDup_omap_key {A B} (f : string * A → option B) (key : B → string)
    (l : list (string * A)) :
  (∀ x y, f x = Some y → key y = x.1) →
  NoDup l.*1 → NoDup (key <$> omap f l).
Proof.
  intros Hkey. induction l as [|x l IH]; [constructor|].
  rewrite fmap_cons, omap_cons. intros [Hx Hl]%NoDup_cons.
  destruct (f x) as [y|] eqn:Hy; [|by apply IH].
  rewrite fmap_cons. constructor; [|by apply IH].
  rewrite (Hkey x y Hy). intros Hin. apply Hx.
  apply list_elem_of_fmap in Hin as (y' & -> & Hin).
  apply list_elem_of_omap in Hin as (x' & Hx' & Hy').
  rewrite (Hkey x' y' Hy'). by apply list_elem_of_fmap_2.
Qed.

Lemma changes_NoDup (old new : gmap string Any) :
  NoDup (Versions.Key <$>
           (omap (newChange old) (map_to_list new)
            ++ omap (oldChange new) (map_to_list old))).
Proof.
  rewrite fmap_app. apply NoDup_app. split_and!.
  - apply NoDup_omap_key; [|apply NoDup_fst_map_to_list].
    intros x y. apply newChange_key.
  - intros k (ch & -> & Hch)%list_elem_of_fmap (ch' & Heq & Hch')%list_elem_of_fmap.
    apply list_elem_of_omap in Hch as ([k1 v1] & Hin1 & Hch).
    apply list_elem_of_omap in Hch' as ([k2 v2] & Hin2 & Hch').
    apply newChange_key in Hch. apply oldChange_key in Hch' as [Hk2 Hnone].
    cbn [fst] in *. apply elem_of_map_to_list in Hin1. congruence.
  - apply NoDup_omap_key; [|apply NoDup_fst_map_to_list].
    intros x y Hy. apply oldChange_key in Hy. apply Hy.
Qed.

Lemma changes_isChange (old new : gmap string Any) ch :
  ch ∈ omap (newChange old) (map_to_list new)
       ++ omap (oldChange new) (map_to_list old)
  ↔ isChange old new ch.
Proof.
  rewrite elem_of_app, !list_elem_of_omap. unfold isChange. split.
  - intros [([k v] & Hin & Hch)|([k v] & Hin & Hch)];
      apply elem_of_map_to_list in Hin.
    + unfold newChange in Hch. cbn [fst snd] in Hch.
      destruct (old !! k) as [oldVal|] eqn:Hold.
      * destruct (String.eqb _ _) eqn:Heq; [done|]. injection Hch as <-.
        right. left. exists k, oldVal, v. split_and!; try done.
        by apply String.eqb_neq.
      * injection Hch as <-. left. by exists k, v.
    + unfold oldChange in Hch. cbn [fst snd] in Hch.
      destruct (new !! k) eqn:Hnew; [done|]. injection Hch as <-.
      right. right. by exists k, v.
  - intros [(k & v & Hnew & Hold & ->)|[(k & v1 & v2 & Hold & Hnew & Hne & ->)
                                       |(k & v & Hold & Hnew & ->)]].
    + left. exists (k, v). rewrite elem_of_map_to_list. split; [done|].
      unfold newChange. cbn [fst snd]. by rewrite Hold.
    + left. exists (k, v2). rewrite elem_of_map_to_list. split; [done|].
      unfold newChange. cbn [fst snd]. rewrite Hold.
      apply String.eqb_neq in Hne. by rewrite Hne.
    + right. exists (k, v). rewrite elem_of_map_to_list. split; [done|].
      unfold oldChange. cbn [fst snd]. by rewrite Hnew.
Qed.

Lemma no_change_iff (old new : gmap string Any) :
  (∀ ch, ¬ isChange old new ch) ↔
  dom old = dom new ∧
  ∀ k v1 v2, old !! k = Some v1 → new !! k = Some v2 → Sprintv v1 = Sprintv v2.
Proof.
  split.
  - intros Hno. split.
    + apply set_eq. intros k. rewrite !elem_of_dom. split.
      * intros [v Hv]. destruct (new !! k) eqn:Hnew; [by eexists|].
        exfalso. eapply Hno. right. right. by exists k, v.
      * intros [v Hv]. destruct (old !! k) eqn:Hold; [by eexists|].
        exfalso. eapply Hno. left. by exists k, v.
    + intros k v1 v2 Hold Hnew.
      destruct (decide (Sprintv v1 = Sprintv v2)) as [|Hne]; [done|].
      exfalso. eapply Hno. right. left. by exists k, v1, v2.
  - intros [Hdom Hsame] ch
      [(k & v & Hnew & Hold & _)|[(k & v1 & v2 & Hold & Hnew & Hne & _)
                                 |(k & v & Hold & Hnew & _)]].
    + assert (k ∈ dom old) as [? ?]%elem_of_dom; [|congruence].
      rewrite Hdom. apply elem_of_dom. by eexists.
    + by apply Hne, (Hsame k).
    + assert (k ∈ dom new) as [? ?]%elem_of_dom; [|congruence].
      rewrite <- Hdom. apply elem_of_dom. by eexists.
Qed.

(** X28: [CompareVersions].  An error of either read is returned as it
    is.  Otherwise the changes are in strictly ascending order of the
    key, so a key has at most one change, and they are exactly: a key
    of the new version alone as added, a key of the old version alone
    as deleted, and a key of both whose values print differently as
    modified, each with the renderings and their lengths.  There is no
    change exactly when both versions have the same keys and values
    that print alike; a version compared with itself has none.  A key
    that [CompareSecrets] reports as changed between the two maps is
    reported as modified. *)
Theorem CompareVersions_changes (c : Client) (path : string)
    (oldVersion newVersion : Z) :
  match ReadSecretVersion c path oldVersion,
        ReadSecretVersion c path newVersion with
  | Err e, _ => CompareVersions c path oldVersion newVersion = Err e
  | Ok _, Err e => CompareVersions c path oldVersion newVersion = Err e
  | Ok oldData, Ok newData =>
      let old := default ∅ oldData in
      let new := default ∅ newData in
      ∃ changes,
        CompareVersions c path oldVersion newVersion = Ok changes ∧
        StronglySorted
          (λ a b, String.ltb (Versions.Key a) (Versions.Key b) = true) changes ∧
        (∀ ch, ch ∈ changes ↔ isChange old new ch) ∧
        (changes = [] ↔
         dom old = dom new ∧
         ∀ k v1 v2, old !! k = Some v1 → new !! k = Some v2 →
           Sprintv v1 = Sprintv v2) ∧
        (oldVersion = newVersion → changes = []) ∧
        (∀ k, k ∈ ChangedKey <$> Changed (CompareSecrets old new) →
           ∃ ch, ch ∈ changes ∧ Versions.Key ch = k ∧
                 Type_ ch = ChangeModified)
  end.
Proof.
  unfold CompareVersions.
  destruct (ReadSecretVersion c path oldVersion) as [oldData|e] eqn:Hold;
    [|done].
  destruct (ReadSecretVersion c path newVersion) as [newData|e] eqn:Hnew;
    [|done].
  cbv zeta. set (old := default ∅ oldData). set (new := default ∅ newData).
  rewrite compareOld_fold, compareNew_fold, app_nil_l.
  set (found := omap (newChange old) (map_to_list new)
                ++ omap (oldChange new) (map_to_list old)).
  pose proof (sortSlice_perm
                (λ a b, String.ltb (Versions.Key a) (Versions.Key b)) found)
    as Hperm.
  assert (∀ ch, ch ∈ sortSlice
                       (λ a b, String.ltb (Versions.Key a) (Versions.Key b)) found
                ↔ isChange old new ch) as Hin.
  { intros ch. rewrite Hperm. apply changes_isChange. }
  assert (sortSlice (λ a b, String.ltb (Versions.Key a) (Versions.Key b)) found
          = [] ↔
          dom old = dom new ∧
          ∀ k v1 v2, old !! k = Some v1 → new !! k = Some v2 →
            Sprintv v1 = Sprintv v2) as Hnil.
  { rewrite <- no_change_iff. split.
    - intros Hempty ch Hch. apply Hin in Hch. rewrite Hempty in Hch.
      by apply elem_of_nil in Hch.
    - intros Hno. destruct (sortSlice _ found) as [|ch l] eqn:E; [done|].
      exfalso. apply (Hno ch), Hin. by left. }
  eexists. split; [done|]. split_and!.
  - apply sortSlice_strict, changes_NoDup.
  - done.
  - done.
  - intros Heq. apply Hnil. subst newVersion.
    assert (old = new) as -> by (unfold old, new; congruence).
    split; [done|]. intros k v1 v2 H1 H2. congruence.
  - intros k (e & -> & He)%list_elem_of_fmap.
    destruct (CompareSecrets_spec old new) as (_ & _ & H3 & _).
    rewrite H3 in He. apply elem_of_changedIn in He
      as (k & v1 & v2 & Hv1 & Hv2 & Hhash & ->).
    exists (mkVersionChange k ChangeModified (Sprintv v1) (Sprintv v2)
              (Go.len (Sprintv v1)) (Go.len (Sprintv v2))).
    split_and!; [|done..]. apply Hin. right. left.
    exists k, v1, v2. split_and!; [done..| |done].
    intros Heq. apply Hhash. unfold hashValue. by rewrite Heq.
Qed.

End VersionChanges.

(** ** The mount of a path *)

Section MountPaths.
Import Client Mounts.
Context {sorter : SliceSorter}.

Lemma splitFirst_app c s :
  match splitFirst c s with
  | (h, None) => s = h
  | (h, Some t) => s = h +:+ String c t
  end.
Proof.
  induction s as [|a s IH]; cbn [splitFirst]; [done|].
  destruct (Ascii.eqb_spec a c) as [->|Hne]; [done|].
  destruct (splitFirst c s) as [h [t|]].
  - by rewrite append_String, <- IH.
  - by rewrite <- IH.
Qed.

Lemma splitMountPath_app path :
  let '(mount, secretPath) := splitMountPath path in
  (secretPath = "" ∧ path = mount) ∨ path = mount +:+ "/" +:+ secretPath.
Proof.
  unfold splitMountPath. pose proof (splitFirst_app "/" path) as H.
  destruct (splitFirst "/" path) as [h [t|]]; [by right|by left].
Qed.

Lemma HasPrefix_app s pre :
  Go.HasPrefix s pre = true ↔ ∃ r, s = pre +:+ r.
Proof.
  unfold Go.HasPrefix. split; [apply prefix_app|].
  intros [r ->]. apply prefix_app_true.
Qed.

Lemma TrimPrefix_app pre r : TrimPrefix (pre +:+ r) pre = r.
Proof.
  unfold TrimPrefix. rewrite (proj2 (HasPrefix_app _ _)) by (by exists r).
  apply sliceFrom_app.
Qed.

Lemma findMount_first mountCache path :
  match findMount mountCache path with
  | Some (mount, secretPath) =>
      ∃ before after, mountCache = before ++ mount :: after ∧
        (∀ m, m ∈ before → ¬ matches m path) ∧
        ((secretPath = "" ∧ path = mount) ∨
         path = mount +:+ "/" +:+ secretPath)
  | None => ∀ m, m ∈ mountCache → ¬ matches m path
  end.
Proof.
  induction mountCache as [|mount rest IH]; cbn [findMount].
  { by intros m ?%elem_of_nil. }
  destruct (Go.HasPrefix path (mount +:+ "/")) eqn:Hpre.
  { apply HasPrefix_app in Hpre as [r ->]. exists [], rest.
    split_and!; [done|by intros m ?%elem_of_nil|].
    right. by rewrite TrimPrefix_app, append_assoc. }
  destruct (String.eqb_spec path mount) as [->|Hne].
  { exists [], rest. split_and!; [done|by intros m ?%elem_of_nil|by left]. }
  assert (¬ matches mount path) as Hno.
  { intros [->|[r ->]]; [done|].
    rewrite <- append_assoc in Hpre.
    by rewrite (proj2 (HasPrefix_app _ _)) in Hpre by (by eexists). }
  destruct (findMount rest path) as [[m secretPath]|].
  - destruct IH as (before & after & -> & Hbefore & Hm).
    exists (mount :: before), after. split_and!; [done| |done].
    intros m' [->|Hin]%elem_of_cons; [done|by apply Hbefore].
  - intros m [->|Hin]%elem_of_cons; [done|by apply IH].
Qed.

Lemma kvMounts_fold mounts acc :
  fold_left (λ kvMounts '(path, mount),
      if String.eqb (MountType mount) "kv" then
        match Options mount !! "version" with
        | Some v =>
            if String.eqb v "2" then kvMounts ++ [Go.TrimSuffix path "/"]
            else kvMounts
        | None => kvMounts
        end
      else kvMounts) mounts acc
  = acc ++ omap (λ '(path, mount),
             if String.eqb (MountType mount) "kv" then
               match Options mount !! "version" with
               | Some v =>
                   if String.eqb v "2" then Some (Go.TrimSuffix path "/") else None
               | None => None
               end
             else None) mounts.
Proof.
  revert acc. induction mounts as [|[path mount] mounts IH]; intros acc.
  - simpl. by rewrite app_nil_r.
  - cbn [fold_left]. rewrite IH, omap_cons.
    destruct (String.eqb (MountType mount) "kv"); [|done].
    destruct (Options mount !! "version") as [v|]; [|done].
    destruct (String.eqb v "2"); [|done]. by rewrite <- app_assoc.
Qed.

Lemma StronglySorted_after {A} (R : A → A → Prop) (l1 l2 : list A) x y :
  StronglySorted R (l1 ++ x :: l2) → y ∈ l2 → R x y.
Proof.
  induction l1 as [|a l1 IH]; cbn [app]; intros [Hs Hall]%StronglySorted_inv Hy.
  - rewrite Forall_forall in Hall. by apply Hall.
  - by apply IH.
Qed.

Lemma byLength_StrictWeak :
  StrictWeak (λ a b : string, Go.len b <? Go.len a).
Proof.
  split.
  - intros a b H%Z.ltb_lt. apply Z.ltb_ge. lia.
  - intros a b c H1%Z.ltb_ge H2%Z.ltb_ge. apply Z.ltb_ge. lia.
Qed.

Lemma kvMountsOf_spec mounts :
  (∀ mount, mount ∈ kvMountsOf mounts ↔ isKvMount mounts mount) ∧
  StronglySorted (λ a b, Go.len b ≤ Go.len a) (kvMountsOf mounts).
Proof.
  unfold kvMountsOf. rewrite kvMounts_fold, app_nil_l. split.
  - intros mount. rewrite sortSlice_perm, list_elem_of_omap. unfold isKvMount.
    split.
    + intros ([path output] & Hin%elem_of_map_to_list & Hsome).
      exists path, output.
      destruct (String.eqb (MountType output) "kv") eqn:Hkv; [|done].
      apply String.eqb_eq in Hkv.
      destruct (Options output !! "version") as [v|]; [|done].
      destruct (String.eqb v "2") eqn:Hv; [|done].
      apply String.eqb_eq in Hv. subst v.
      by injection Hsome as <-.
    + intros (path & output & Hin & Hkv & Hversion & ->).
      exists (path, output). rewrite elem_of_map_to_list. split; [done|].
      by rewrite Hkv, Hversion.
  - eapply StronglySorted_impl;
      [|apply (sortSlice_sorted _ _ byLength_StrictWeak)].
    intros a b Hb%Z.ltb_ge. done.
Qed.

(** X29: [ResolveMountPath].  The mount and the secret path it returns
    always make up the path: the path is the mount, with an empty
    secret path, or the mount, a slash and the secret path.  With the
    cache filled from the table of mounts, the cache holds exactly the
    KV version 2 mounts, and when one of them lies above the path the
    mount returned is one of them, lies above the path, and none that
    does is longer; when none does, or the table cannot be read, the
    mount is the path up to its first slash. *)
Theorem ResolveMountPath_longest
    (sysMounts : R (gmap string MountOutput)) (mountCache : list string)
    (path : string) :
  let r := ResolveMountPath sysMounts mountCache path in
  ((r.2.2 = "" ∧ path = r.2.1) ∨ path = r.2.1 +:+ "/" +:+ r.2.2) ∧
  (∀ mounts, sysMounts = Ok mounts → mountCache = [] →
     (∀ mount, mount ∈ r.1 ↔ isKvMount mounts mount) ∧
     ((∃ mount, isKvMount mounts mount ∧ matches mount path) →
      isKvMount mounts r.2.1 ∧ matches r.2.1 path ∧
      ∀ mount, isKvMount mounts mount → matches mount path →
        Go.len mount ≤ Go.len r.2.1) ∧
     ((∀ mount, isKvMount mounts mount → ¬ matches mount path) →
      r.2 = splitMountPath path)) ∧
  (∀ e, sysMounts = Err e → mountCache = [] → r.2 = splitMountPath path).
Proof.
  cbv zeta. split_and!.
  - unfold ResolveMountPath.
    destruct (ensureMountCache sysMounts mountCache) as [cache [e|]].
    + cbn [fst snd]. pose proof (splitMountPath_app path) as H.
      by destruct (splitMountPath path).
    + pose proof (findMount_first cache path) as H.
      destruct (findMount cache path) as [[mount secretPath]|].
      * cbn [fst snd]. by destruct H as (_ & _ & _ & _ & H).
      * cbn [fst snd]. pose proof (splitMountPath_app path) as H'.
        by destruct (splitMountPath path).
  - intros mounts -> ->. unfold ResolveMountPath.
    change (ensureMountCache (Ok mounts) []) with (kvMountsOf mounts, @None Error).
    cbv iota beta.
    destruct (kvMountsOf_spec mounts) as [Hkv Hsorted].
    pose proof (findMount_first (kvMountsOf mounts) path) as H.
    destruct (findMount (kvMountsOf mounts) path) as [[mount secretPath]|];
      cbn [fst snd].
    + destruct H as (before & after & Hcache & Hbefore & Hm).
      split_and!; [done| |].
      * intros _.
        assert (matches mount path) as Hmatch.
        { destruct Hm as [[_ ->]| ->]; [by left|right; by eexists]. }
        assert (mount ∈ kvMountsOf mounts) as Hin.
        { rewrite Hcache. apply elem_of_app. right. by left. }
        split_and!; [by apply Hkv|done|].
        intros m Hm' Hmatch'. apply Hkv in Hm'. rewrite Hcache in Hm', Hsorted.
        apply elem_of_app in Hm' as [Hin'|Hin']; [by apply Hbefore in Hin'|].
        apply elem_of_cons in Hin' as [->|Hin']; [lia|].
        by apply (StronglySorted_after _ _ _ _ _ Hsorted).
      * intros Hnone. exfalso. apply (Hnone mount).
        -- apply Hkv. rewrite Hcache. apply elem_of_app. right. by left.
        -- destruct Hm as [[_ ->]| ->]; [by left|right; by eexists].
    + split_and!; [done| |done].
      intros (mount & Hmount & Hmatch). exfalso.
      by apply (H mount); [apply Hkv|].
  - intros e -> ->. done.
Qed.

End MountPaths.

(** ** The tree of secrets *)

Section Trees.
Import Tree.

Lemma TrimSuffix_slash part : Go.TrimSuffix (part +:+ "/") "/" = part.
Proof.
  unfold Go.TrimSuffix, Go.HasSuffix.
  assert (Go.len (part +:+ "/") - Go.len "/" = Go.len part) as ->.
  { unfold Go.len. rewrite length_append. cbn. lia. }
  rewrite sliceFrom_app, slice_base.
  assert ((Go.len "/" <=? Go.len (part +:+ "/")) = true) as ->.
  { apply Z.leb_le. unfold Go.len. rewrite length_append. cbn. lia. }
  done.
Qed.

Lemma addParts_node basePath seen parts current :
  Name (addParts basePath seen parts current) = Name current ∧
  IsDir (addParts basePath seen parts current) = IsDir current ∧
  FullPath (addParts basePath seen parts current) = FullPath current ∧
  Metadata (addParts basePath seen parts current) = Metadata current.
Proof. by destruct parts. Qed.

Lemma childName_addParts basePath seen parts current :
  childName (addParts basePath seen parts current) = childName current.
Proof.
  unfold childName.
  destruct (addParts_node basePath seen parts current) as (-> & -> & _). done.
Qed.

Lemma childName_new part (isLast : bool) fullPath :
  childName (mkTreeNode (if negb isLast then part +:+ "/" else part) fullPath
               (negb isLast) [] None) = part.
Proof.
  unfold childName. destruct isLast; cbn [negb IsDir Name]; [done|].
  apply TrimSuffix_slash.
Qed.

Lemma descend_twice part next newNode children :
  (∀ c, childName (next c) = childName c) →
  childName newNode = part →
  (∀ c, next (next c) = next c) →
  descend part next newNode (descend part next newNode children)
  = descend part next newNode children.
Proof.
  intros Hname Hnew Hnext. induction children as [|child children IH].
  - cbn [descend]. rewrite Hname, Hnew, String.eqb_refl. by rewrite Hnext.
  - cbn [descend]. destruct (String.eqb (childName child) part) eqn:E.
    + cbn [descend]. rewrite Hname, E. by rewrite Hnext.
    + cbn [descend]. rewrite E. by rewrite IH.
Qed.

Lemma addParts_twice basePath seen parts current :
  addParts basePath seen parts (addParts basePath seen parts current)
  = addParts basePath seen parts current.
Proof.
  revert seen current. induction parts as [|part parts IH]; intros seen current;
    [done|].
  cbn [addParts Name FullPath IsDir Children Metadata]. f_equal.
  apply descend_twice.
  - intros c. apply childName_addParts.
  - apply childName_new.
  - intros c. apply IH.
Qed.

Lemma sum_from {A} (f : A → Z) (l : list A) acc :
  fold_left (λ count x, count + f x) l acc
  = acc + fold_left (λ count x, count + f x) l 0.
Proof.
  revert acc. induction l as [|x l IH]; intros acc; cbn [fold_left]; [lia|].
  rewrite (IH (acc + f x)), (IH (0 + f x)). lia.
Qed.

(** Replacing the child found, or appending the new node, moves a sum
    over the children by what it moves the summand of that child. *)
Lemma descend_sum (f : TreeNode → Z) part next newNode children lo hi :
  lo ≤ 0 ≤ hi →
  (∀ c, f c + lo ≤ f (next c) ≤ f c + hi) →
  lo ≤ f (next newNode) ≤ hi →
  fold_left (λ count x, count + f x) children 0 + lo
  ≤ fold_left (λ count x, count + f x) (descend part next newNode children) 0
  ≤ fold_left (λ count x, count + f x) children 0 + hi.
Proof.
  intros Hbounds Hnext Hnew. induction children as [|child children IH].
  - cbn [descend fold_left]. lia.
  - cbn [descend]. destruct (String.eqb (childName child) part).
    + cbn [fold_left]. rewrite (sum_from f children (0 + f (next child))).
      rewrite (sum_from f children (0 + f child)).
      specialize (Hnext child). lia.
    + cbn [fold_left].
      rewrite (sum_from f (descend _ _ _ _) (0 + f child)).
      rewrite (sum_from f children (0 + f child)). lia.
Qed.

Lemma CountSecrets_node t :
  CountSecrets t =
    if negb (IsDir t) then 1
    else fold_left (λ count child, count + CountSecrets child) (Children t) 0.
Proof. by destruct t. Qed.

Lemma CountDirs_node t :
  CountDirs t =
    fold_left (λ count child,
      count + (if IsDir child then 1 + CountDirs child else 0)) (Children t) 0.
Proof.
  destruct t as [n f d children m]. cbn [CountDirs Children].
  assert (∀ acc,
            fold_left (λ count child,
              if IsDir child then count + (1 + CountDirs child) else count)
              children acc
            = fold_left (λ count child,
                count + (if IsDir child then 1 + CountDirs child else 0))
                children acc) as H; [|apply H].
  induction children as [|child children IH]; intros acc; [done|].
  cbn [fold_left]. rewrite <- IH. by destruct (IsDir child); rewrite ?Z.add_0_r.
Qed.

Lemma last_part_test (parts : list string) :
  (Z.of_nat (length parts) =? 0) = match parts with [] => true | _ => false end.
Proof. by destruct parts. Qed.

Lemma CountSecrets_addParts basePath seen parts current :
  CountSecrets current
  ≤ CountSecrets (addParts basePath seen parts current)
  ≤ CountSecrets current + 1.
Proof.
  revert seen current. induction parts as [|part parts IH]; intros seen current.
  { cbn [addParts]. lia. }
  rewrite (CountSecrets_node (addParts _ _ _ _)), (CountSecrets_node current).
  cbn [addParts Name FullPath IsDir Children Metadata].
  destruct (IsDir current); cbn [negb]; [|lia].
  pose proof (descend_sum CountSecrets part
                (addParts basePath (seen ++ [part]) parts)
                (mkTreeNode
                   (if negb (Z.of_nat (length parts) =? 0)
                    then part +:+ "/" else part)
                   (basePath +:+ "/" +:+ Go.Join (seen ++ [part]) "/")
                   (negb (Z.of_nat (length parts) =? 0)) [] None)
                (Children current) 0 1) as H.
  rewrite Z.add_0_r in H. apply H; [lia| |].
  - intros c. specialize (IH (seen ++ [part]) c). lia.
  - destruct parts as [|part' parts'].
    + cbn [addParts]. rewrite CountSecrets_node. cbn [IsDir Children fold_left].
      rewrite last_part_test. cbn [negb]. lia.
    + match goal with |- _ ≤ CountSecrets (addParts _ _ _ ?n) ≤ _ =>
        specialize (IH (seen ++ [part]) n);
        rewrite (CountSecrets_node n) in IH
      end.
      cbn [IsDir Children fold_left] in IH.
      rewrite !last_part_test in IH |- *. cbn [negb] in IH |- *. lia.
Qed.

Lemma CountDirs_addParts basePath seen parts current :
  CountDirs current
  ≤ CountDirs (addParts basePath seen parts current)
  ≤ CountDirs current + Z.of_nat (pred (length parts)).
Proof.
  revert seen current. induction parts as [|part parts IH]; intros seen current.
  { cbn [addParts length pred]. lia. }
  rewrite (CountDirs_node (addParts _ _ _ _)), (CountDirs_node current).
  cbn [addParts Name FullPath IsDir Children Metadata length pred].
  pose proof (descend_sum
                (λ child, if IsDir child then 1 + CountDirs child else 0) part
                (addParts basePath (seen ++ [part]) parts)
                (mkTreeNode
                   (if negb (Z.of_nat (length parts) =? 0)
                    then part +:+ "/" else part)
                   (basePath +:+ "/" +:+ Go.Join (seen ++ [part]) "/")
                   (negb (Z.of_nat (length parts) =? 0)) [] None)
                (Children current) 0 (Z.of_nat (length parts))) as H.
  rewrite Z.add_0_r in H. apply H; [lia| |].
  - intros c. specialize (IH (seen ++ [part]) c).
    destruct (addParts_node basePath (seen ++ [part]) parts c) as (_ & -> & _).
    destruct (IsDir c); lia.
  - destruct parts as [|part' parts'].
    + cbn [addParts IsDir]. rewrite last_part_test. cbn [negb]. lia.
    + match goal with
      |- _ ≤ (if IsDir (addParts _ _ _ ?n) then _ else _) ≤ _ =>
        specialize (IH (seen ++ [part]) n);
        destruct (addParts_node basePath (seen ++ [part]) (part' :: parts') n)
          as (_ & -> & _);
        rewrite (CountDirs_node n) in IH
      end.
      cbn [IsDir Children fold_left] in IH |- *.
      rewrite !last_part_test in IH |- *.
      cbn [negb length pred] in IH |- *. lia.
Qed.

Lemma Split_length s sep : (1 ≤ length (Split s sep))%nat.
Proof.
  induction s as [|a s IH]; cbn [Split]; [cbn; lia|].
  destruct (Ascii.eqb a sep); [cbn; lia|].
  destruct (Split s sep); cbn; lia.
Qed.

(** X30: [addPathToTree] on any tree.  Adding a path that was just
    added changes nothing.  Adding a path leaves the root node itself
    as it is, never lowers [CountSecrets] or [CountDirs], raises
    [CountSecrets] by at most one, and raises [CountDirs] by at most
    the number of parts of the path before the last. *)
Theorem addPathToTree_adds (root : TreeNode) (basePath relPath : string) :
  let added := addPathToTree root basePath relPath in
  addPathToTree added basePath relPath = added ∧
  Name added = Name root ∧ IsDir added = IsDir root ∧
  FullPath added = FullPath root ∧
  CountSecrets root ≤ CountSecrets added ≤ CountSecrets root + 1 ∧
  CountDirs root ≤ CountDirs added
    ≤ CountDirs root + Z.of_nat (length (Split relPath "/")) - 1.
Proof.
  cbv zeta. unfold addPathToTree.
  destruct (addParts_node basePath [] (Split relPath "/") root)
    as (HN & HD & HF & _).
  split_and!; [apply addParts_twice|done..| | | |].
  - apply CountSecrets_addParts.
  - apply CountSecrets_addParts.
  - apply CountDirs_addParts.
  - pose proof (CountDirs_addParts basePath [] (Split relPath "/") root).
    pose proof (Split_length relPath "/"). lia.
Qed.

End Trees.

(** ** The further properties on inputs *)

Section MoreOnInputs.
Import Compare Client Timeline Spec Histories Snapshot Backups.
Import Examples MoreExamples.

Lemma entries_witness :
  let A : gmap string Any := {["k" := VString "a"]} in
  let B : gmap string Any := {["k" := VString "b"]} in
  let e := mkChangedEntry "k" 1 1 "a" "b" in
  e ∈ Changed (@CompareSecrets goInsertionSort A B) ∧
  FirstValue e ≠ SecondValue e.
Proof.
  assert (H : mkChangedEntry "k" 1 1 "a" "b"
              ∈ Changed (@CompareSecrets goInsertionSort
                           {["k" := VString "a"]} {["k" := VString "b"]})).
  { vm_compute. left. }
  split; [exact H|].
  exact (proj2 (proj2 (proj2
    (@CompareSecrets_entries goInsertionSort
       {["k" := VString "a"]} {["k" := VString "b"]}))) _ H).
Defined.

Lemma selector_witness :
  HasVersion (ParseVersionedPath "secret/app@-2").2 = true ∧
  ∃ suffix,
    "secret/app@-2" = (ParseVersionedPath "secret/app@-2").1 +:+ "@" +:+ suffix ∧
    Go.LastIndex suffix "@" = -1.
Proof.
  assert (H : HasVersion (ParseVersionedPath "secret/app@-2").2 = true)
    by (vm_compute; reflexivity).
  split; [exact H|].
  destruct (proj2 (ParseVersionedPath_selector "secret/app@-2") H)
    as (suffix & Hpath & Hidx & _).
  exists suffix. split; [exact Hpath|exact Hidx].
Defined.

Lemma timeline_entries_witness :
  ∃ timeline,
    @GetTimeline goInsertionSort twoKeys "d" = Ok timeline ∧
    timeline ≠ [] ∧
    StronglySorted (λ a b, Time b ≤ Time a) timeline.
Proof.
  eexists.
  assert (H : @GetTimeline goInsertionSort twoKeys "d" = Ok _)
    by (vm_compute; reflexivity).
  split; [exact H|].
  destruct (@GetTimeline_entries goInsertionSort twoKeys "d" _ H)
    as (H1 & H2 & _).
  split; [exact H1|exact H2].
Defined.

Lemma nonpositive_depth_witness :
  -1 ≤ 0 ∧
  @GetStateAtChangesAgo goInsertionSort twoKeys "d" (-1) =
    match @GetStateAtChangesAgo goInsertionSort twoKeys "d" 0 with
    | Err (ErrNoSecretsAtChangesAgo _) => Err (ErrNoSecretsAtChangesAgo (-1))
    | r => r
    end.
Proof.
  assert (H : -1 ≤ 0) by lia.
  split; [exact H|].
  exact (proj1 (@GetStateAtChangesAgo_nonpositive_depth goInsertionSort
                  twoKeys "d") (-1) H).
Defined.

Lemma twoKeys_regular : @regular goInsertionSort twoKeys "d".
Proof.
  split.
  - apply (NoDup_cons_2 "k1" ["k2"]).
    + intros Hin%list_elem_of_singleton. discriminate.
    + apply NoDup_singleton.
  - intros key Hkey.
    assert (key = "k1" ∨ key = "k2") as [-> | ->].
    { apply elem_of_cons in Hkey as [->|Hkey]; [by left|].
      apply list_elem_of_singleton in Hkey as ->. by right. }
    + split.
      * vm_compute. reflexivity.
      * vm_compute. repeat constructor.
    + split.
      * vm_compute. reflexivity.
      * vm_compute. repeat constructor.
Defined.

Lemma twoKeys_reachesFirst :
  ∀ key, key ∈ @keysOf twoKeys "d" →
    reachesFirst (@historyOf goInsertionSort twoKeys "d" key).
Proof.
  intros key Hkey.
  assert (key = "k1" ∨ key = "k2") as [-> | ->].
  { apply elem_of_cons in Hkey as [->|Hkey]; [by left|].
    apply list_elem_of_singleton in Hkey as ->. by right. }
  - vm_compute. reflexivity.
  - vm_compute. reflexivity.
Defined.

Lemma walk_counts_witness :
  @regular goInsertionSort twoKeys "d" ∧
  @pointersAt goInsertionSort twoKeys "d" 1 !! "k2"
  = Some (2 - Z.of_nat (length (@eventsOf goInsertionSort twoKeys "d" "k2" 1))).
Proof.
  split; [exact twoKeys_regular|].
  apply (proj1 (@pointer_walk_counts goInsertionSort twoKeys "d" 1
                  twoKeys_regular)).
  vm_compute. reflexivity.
Defined.

Lemma reaches_first_witness :
  @regular goInsertionSort twoKeys "d" ∧
  @pointersAt goInsertionSort twoKeys "d" (@totalChanges goInsertionSort twoKeys "d")
  = (λ _, 1) <$> @currentVersions goInsertionSort twoKeys "d".
Proof.
  split; [exact twoKeys_regular|].
  exact (proj1 (@pointer_walk_reaches_first goInsertionSort twoKeys "d"
                  twoKeys_regular twoKeys_reachesFirst)).
Defined.

Lemma dry_run_witness :
  DryRun (mkRestoreOptions true false true) = true ∧
  (RestoreSnapshot memStore liveAC snapshotAB "t"
     (mkRestoreOptions true false true)).1 = liveAC.
Proof.
  assert (H : DryRun (mkRestoreOptions true false true) = true) by reflexivity.
  split; [exact H|].
  exact (proj1 RestoreSnapshot_dry_run _ memStore liveAC snapshotAB "t"
           (mkRestoreOptions true false true) H).
Defined.

Lemma plan_witness :
  ∃ s' plan,
    RestoreSnapshot memStore liveAC snapshotAB "t"
      (mkRestoreOptions false false true) = (s', Ok plan) ∧
    Skipped plan = [].
Proof.
  destruct (RestoreSnapshot_plan liveAC snapshotAB "t"
              (mkRestoreOptions false false true))
    as (s' & plan & Hrun & _ & _ & _ & Hskip & _).
  exists s', plan. split; [exact Hrun|]. apply Hskip. reflexivity.
Defined.

Lemma stays_in_target_witness :
  (RestoreSnapshot memStore liveAC snapshotAB "t"
     (mkRestoreOptions false false false)).1 !! "t/c"
  = liveAC !! "t/c".
Proof.
  apply (proj2 (proj2 (RestoreSnapshot_stays_in_target liveAC snapshotAB "t"
                         (mkRestoreOptions false false false)) eq_refl) "c").
  vm_compute. reflexivity.
Defined.

Lemma holds_listed_witness :
  listed liveAC "t" ≠ [] ∧
  ∃ secrets,
    CreateSnapshot memStore liveAC "t" 7 = Ok (mkSnapshot "t" 7 secrets) ∧
    (∀ k, secrets !! k = secretOf <$> liveAC !! fullPathOf "t" k).
Proof.
  assert (H : listed liveAC "t" ≠ []) by (vm_compute; discriminate).
  split; [exact H|].
  destruct (proj2 (CreateSnapshot_holds_listed liveAC "t" 7) H)
    as (secrets & Hcreate & Hlookup & _).
  exists secrets. split; [exact Hcreate|exact Hlookup].
Defined.

Lemma liveAC_plain k e :
  liveAC !! fullPathOf "t" k = Some e → ¬ doublyWrapped (entryData e).
Proof.
  unfold liveAC. intros He (inner & w & Hd & _).
  apply lookup_insert_Some in He as [[_ <-]|[_ He]].
  { apply (f_equal (λ m, m !! "value")) in Hd. vm_compute in Hd. done. }
  apply lookup_insert_Some in He as [[_ <-]|[_ He]].
  { apply (f_equal (λ m, m !! "value")) in Hd. vm_compute in Hd. done. }
  by rewrite lookup_empty in He.
Defined.

Lemma restore_noop_witness :
  ∃ snap plan,
    CreateSnapshot memStore liveAC "t" 7 = Ok snap ∧
    RestoreSnapshot memStore liveAC snap "t" (mkRestoreOptions false true true)
      = (liveAC, Ok plan) ∧
    HasChanges plan = false.
Proof.
  eexists.
  assert (H : CreateSnapshot memStore liveAC "t" 7 = Ok _)
    by (vm_compute; reflexivity).
  destruct (CreateSnapshot_restore_noop liveAC "t" 7 _
              (mkRestoreOptions false true true) H liveAC_plain)
    as (plan & Hrun & _ & _ & _ & _ & _ & _ & Hchanges).
  exists plan. split; [exact H|]. split; [exact Hrun|exact Hchanges].
Defined.

Lemma restore_unwraps_witness :
  ∃ snap s' plan,
    CreateSnapshot memStore nestedValue "t" 7 = Ok snap ∧
    RestoreSnapshot memStore nestedValue snap "t"
      (mkRestoreOptions false false true) = (s', Ok plan) ∧
    "a" ∈ Updated plan.
Proof.
  eexists.
  assert (H : CreateSnapshot memStore nestedValue "t" 7 = Ok _)
    by (vm_compute; reflexivity).
  destruct (CreateSnapshot_restore_unwraps nestedValue "t" 7 _
              (mkRestoreOptions false false true) "a" 1 (VString "x") H)
    as (s' & plan & Hrun & Hupdated & _).
  { vm_compute. reflexivity. }
  exists s', plan. split; [exact H|]. split; [exact Hrun|exact Hupdated].
Defined.

Lemma bounds_witness :
  let changes :=
    @sortSlice goInsertionSort _ (λ a b, createdTime b <? createdTime a)
      (@collectChanges goInsertionSort twoKeys "d" ["k1"; "k2"]).1 in
  let ev := mkChangeEvent "k2" 2 40 in
  ev ∈ changes ∧ 1 < version ev ∧ secretPath ev ∈ ["k1"; "k2"].
Proof.
  assert (H : mkChangeEvent "k2" 2 40
              ∈ @sortSlice goInsertionSort _
                  (λ a b, createdTime b <? createdTime a)
                  (@collectChanges goInsertionSort twoKeys "d" ["k1"; "k2"]).1).
  { vm_compute. left. }
  split; [exact H|].
  exact (proj1 (@undoChanges_bounds goInsertionSort twoKeys "d" ["k1"; "k2"] 1 "k1")
           _ H).
Defined.

Lemma flat_witness :
  let data : gmap string Any := {["k" := VString "v"]} in
  Shapes.flatMap data ∧ Flatten data = data.
Proof.
  assert (H : Shapes.flatMap ({["k" := VString "v"]} : gmap string Any)).
  { by apply map_Forall_singleton. }
  split; [exact H|].
  exact (proj1 (proj2 (Flatten_flat {["k" := VString "v"]})) H).
Defined.

Lemma secret_witness :
  Shapes.notMap (VString "x") ∧
  mergeFlattened "app/key"
    (FlattenAndExtractValues {["value" := VString "x"]} true) ∅
  = <["app/key" := VString "x"]> ∅.
Proof.
  assert (H : Shapes.notMap (VString "x")) by exact I.
  split; [exact H|].
  exact (proj2 (proj2 (proj1 (mergeFlattened_secret "app/key" ∅) (VString "x") H))).
Defined.

Lemma add_witness :
  Operations.SecretExists Operations.memOps liveAC "t/a" ≠ Ok false ∧
  (Operations.Add Operations.memOps liveAC "t/a" "new").1 = liveAC.
Proof.
  assert (H : Operations.SecretExists Operations.memOps liveAC "t/a" ≠ Ok false).
  { vm_compute. discriminate. }
  split; [exact H|].
  exact (proj1 (proj1 Add_Update_exclusive _ Operations.memOps liveAC "t/a" "new" H)).
Defined.

Lemma copy_witness :
  (Operations.Copy Operations.memOps liveAC "t/a" "t/z").2 = Ok tt ∧
  ∃ e, liveAC !! "t/a" = Some e ∧
    (Operations.Copy Operations.memOps liveAC "t/a" "t/z").1 !! "t/a" = Some e.
Proof.
  assert (H : (Operations.Copy Operations.memOps liveAC "t/a" "t/z").2 = Ok tt).
  { vm_compute. reflexivity. }
  split; [exact H|].
  destruct (proj1 (proj2 (Copy_copies liveAC "t/a" "t/z")) H)
    as (e & He & _ & Hsrc).
  exists e. split; [exact He|exact Hsrc].
Defined.

Lemma move_witness :
  ("t/a" ∈ ({["t/a"]} : gset string)) ∧ ("t/z" ∉ ({["t/a"]} : gset string)) ∧
  (Operations.Move (Operations.lockedOps {["t/a"]}) liveAC "t/a" "t/z").1 = liveAC.
Proof.
  assert (H1 : "t/a" ∈ ({["t/a"]} : gset string)) by (by apply elem_of_singleton).
  assert (H2 : "t/z" ∉ ({["t/a"]} : gset string)).
  { intros H%elem_of_singleton. discriminate. }
  split; [exact H1|]. split; [exact H2|].
  exact (proj1 (proj1 (proj2 (proj2 (Move_moves {["t/a"]} liveAC "t/a" "t/z")))
                  H1 H2)).
Defined.

Lemma copy_recursive_witness :
  listed liveAC "t" ≠ [] ∧
  (Operations.CopyRecursive Operations.memOps liveAC "t" "u").2
  = Ok (Z.of_nat (length (listed liveAC "t"))).
Proof.
  assert (H : listed liveAC "t" ≠ []) by (vm_compute; discriminate).
  split; [exact H|].
  apply (proj2 (CopyRecursive_all_or_nothing liveAC "t" "u" H)).
  intros rel Hrel.
  assert (rel = "a" ∨ rel = "c") as [-> | ->].
  { apply elem_of_listed in Hrel as [e He]. unfold liveAC in He.
    apply lookup_insert_Some in He as [[Heq _]|[_ He]].
    { left. symmetry. by apply (fullPathOf_inj "t" "a" rel). }
    apply lookup_insert_Some in He as [[Heq _]|[_ He]].
    { right. symmetry. by apply (fullPathOf_inj "t" "c" rel). }
    by rewrite lookup_empty in He. }
  - vm_compute. reflexivity.
  - vm_compute. reflexivity.
Defined.

Lemma prev_versions_witness :
  ∃ result,
    Client.ListSecretPaths (Previous.client twoKeysMeta) "d" = Ok ["k1"; "k2"] ∧
    Previous.GetPrevVersions twoKeysMeta "d" = Ok result ∧
    result ≠ ∅.
Proof.
  eexists.
  assert (H : Client.ListSecretPaths (Previous.client twoKeysMeta) "d"
              = Ok ["k1"; "k2"])
    by reflexivity.
  assert (Hresult : Previous.GetPrevVersions twoKeysMeta "d" = Ok _)
    by (vm_compute; reflexivity).
  split; [exact H|]. split; [exact Hresult|].
  exact (proj1 (proj1 (GetPrevVersions_result twoKeysMeta "d" ["k1"; "k2"] H)
                  _ Hresult)).
Defined.

Lemma secret_at_version_witness :
  0 < 1 ≤ Go.maxInt ∧
  Previous.GetSecretAtVersion twoKeysMeta
    (ParseVersionedPath ("d/k1" +:+ "@" +:+ Go.Itoa 1)).1
    (Compare.Version (ParseVersionedPath ("d/k1" +:+ "@" +:+ Go.Itoa 1)).2)
    (IsPrev (ParseVersionedPath ("d/k1" +:+ "@" +:+ Go.Itoa 1)).2)
  = Previous.GetSecretAtVersion twoKeysMeta "d/k1" 1 false.
Proof.
  assert (H : 0 < 1 ≤ Go.maxInt) by (vm_compute; split; [reflexivity|discriminate]).
  split; [exact H|].
  exact (proj1 (proj2 (proj2 (proj2 (GetSecretAtVersion_reads twoKeysMeta "d/k1"))))
           1 H).
Defined.

Lemma mount_witness :
  (∃ mount, Mounts.isKvMount oneKvMount mount ∧
            Mounts.matches mount "secret/app/key") ∧
  Mounts.isKvMount oneKvMount
    (@Mounts.ResolveMountPath goInsertionSort (Ok oneKvMount) []
       "secret/app/key").2.1 ∧
  Mounts.matches
    (@Mounts.ResolveMountPath goInsertionSort (Ok oneKvMount) []
       "secret/app/key").2.1 "secret/app/key".
Proof.
  assert (H : ∃ mount, Mounts.isKvMount oneKvMount mount ∧
                       Mounts.matches mount "secret/app/key").
  { exists "secret". split.
    - exists "secret/", (Mounts.mkMountOutput "kv" {["version" := "2"]}).
      split_and!; vm_compute; reflexivity.
    - right. by exists "app/key". }
  split; [exact H|].
  destruct (proj1 (proj2 (proj1 (proj2
    (@ResolveMountPath_longest goInsertionSort (Ok oneKvMount) []
       "secret/app/key")) oneKvMount eq_refl eq_refl)) H) as (H1 & H2 & _).
  split; [exact H1|exact H2].
Defined.

End MoreOnInputs.
